(** * jsonfilter: path resolution and tree traversal of [filter/filter.go]

    A shallow embedding of the filter package of dschnare/jsonfilter and the
    properties of its resolver ([getFilterCommand], [getFilterCommandRec])
    and of its traverser ([traverseWithPath], [traverseMap],
    [traverseSlice], [doFilter]).  The package is embedded twice: on JSON
    trees, where the traverser returns the new tree, and on a heap
    ([InPlace]), where it assigns to the maps and slices it was given; the
    second is shown to refine the first.  Around them are the command line
    runner ([commandLineFilterRunner]), the readers ([readJsonFromReader],
    [readJsonFromFile], [FilterJsonFromReader]) and the command of
    [main.go] ([Main]).

    Go strings are byte sequences; they are modelled by [string] (a list of
    8-bit [ascii] characters).  The separators and the quote the program
    looks for are ASCII, so working on bytes or on runes is the same. *)

From Stdlib Require Import ZArith Ascii String DecimalString DecimalPos DecimalN.
From stdpp Require Import base tactics option list strings gmap.

Set Warnings "-register-all,-inconsistent-scopes".
#[local] Arguments String.append !_ _ / : simpl nomatch.
Local Open Scope Z_scope.

(** ** The pieces of the Go library the package calls *)

Module strings.

(** [strings.FieldsFunc(s, f)]: the maximal runs of characters that do not
    satisfy [f]; no field is empty.  [cur] is the field being read. *)
Fixpoint fieldsFrom (f : ascii → bool) (s cur : string) : list string :=
  match s with
  | EmptyString => if String.eqb cur "" then [] else [cur]
  | String c s' =>
      if f c
      then (if String.eqb cur "" then fieldsFrom f s' ""
            else cur :: fieldsFrom f s' "")
      else fieldsFrom f s' (cur +:+ String c "")
  end.

Definition FieldsFunc (s : string) (f : ascii → bool) : list string :=
  fieldsFrom f s "".

(** [strings.TrimLeft], [strings.TrimRight] and [strings.Trim] for a
    cutset of one ASCII character. *)
Fixpoint TrimLeft (s : string) (cut : ascii) : string :=
  match s with
  | EmptyString => ""
  | String c s' => if Ascii.eqb c cut then TrimLeft s' cut else s
  end.

Fixpoint TrimRight (s : string) (cut : ascii) : string :=
  match s with
  | EmptyString => ""
  | String c s' =>
      let r := TrimRight s' cut in
      if Ascii.eqb c cut && String.eqb r "" then "" else String c r
  end.

Definition Trim (s : string) (cut : ascii) : string :=
  TrimRight (TrimLeft s cut) cut.

(** [strings.HasSuffix]. *)
Definition HasSuffix (s suffix : string) : bool :=
  let n := String.length s in
  let k := String.length suffix in
  (k <=? n)%nat && String.eqb (String.substring (n - k) k s) suffix.

(** [strings.Split(s, sep)] for a separator of one ASCII character: the
    substrings between the separators, empty ones too.  [cur] is the
    substring being read. *)
Fixpoint splitFrom (sep : ascii) (s cur : string) : list string :=
  match s with
  | EmptyString => [cur]
  | String c s' =>
      if Ascii.eqb c sep then cur :: splitFrom sep s' ""
      else splitFrom sep s' (cur +:+ String c "")
  end.

Definition Split (s : string) (sep : ascii) : list string :=
  splitFrom sep s "".

End strings.

Module strconv.

(** The digits of [strconv.ParseInt(s, 10, 32)] after the sign: at least
    one character, decimal digits only. *)
Definition parseDigits (s : string) : option Z :=
  match s with
  | EmptyString => None
  | _ => (λ d, Z.of_N (N.of_uint d)) <$> NilEmpty.uint_of_string s
  end.

(** [strconv.ParseInt(s, 10, 32)], [Some i] when the returned error is
    nil: an optional sign, then digits, and the value fits in 32 bits. *)
Definition ParseInt_10_32 (s : string) : option Z :=
  match s with
  | EmptyString => None
  | String c rest =>
      let '(neg, body) :=
        if Ascii.eqb c "+" then (false, rest)
        else if Ascii.eqb c "-" then (true, rest)
        else (false, s) in
      un ← parseDigits body;
      if neg then (if un <=? 2 ^ 31 then Some (- un) else None)
      else (if un <? 2 ^ 31 then Some un else None)
  end.

End strconv.

Module fmt.

(** The verb [%d] of [fmt.Sprintf] at a position of a [range] loop. *)
Definition decimal (k : nat) : string :=
  NilEmpty.string_of_uint (N.to_uint (N.of_nat k)).

End fmt.

(** No character of [s] satisfies [f]. *)
Fixpoint noneSatisfies (f : ascii → bool) (s : string) : bool :=
  match s with
  | EmptyString => true
  | String c s' => negb (f c) && noneSatisfies f s'
  end.

Definition isDigit (c : ascii) : bool :=
  (48 <=? nat_of_ascii c)%nat && (nat_of_ascii c <=? 57)%nat.

(** ** JSON values

    What [encoding/json] decodes into an [interface{}]: a [string], a
    [float64] (kept as its 64 bits; the package never looks at it), a
    [bool], [nil], a [[]interface{}] or a [map[string]interface{}].  A map
    is the list of its entries in the order in which [range] goes over
    them, an order the Go runtime chooses; every statement below holds for
    every order.  The keys of a map are distinct ([wf_value]). *)

Record float64 := Float64 { float64_bits : Z }.

(** [m[key]] with its [ok] flag. *)
Fixpoint mapLookup {A} (key : string) (m : list (string * A)) : option A :=
  match m with
  | [] => None
  | (k, v) :: m' => if String.eqb k key then Some v else mapLookup key m'
  end.

Inductive Value : Type :=
  | VString (s : string)
  | VNumber (f : float64)
  | VBool (b : bool)
  | VNull
  | VArray (elems : list Value)
  | VObject (entries : list (string * Value)).

(** The keys of every map of a tree are distinct. *)
Fixpoint wf_value (v : Value) : bool :=
  match v with
  | VArray elems => forallb wf_value elems
  | VObject entries =>
      bool_decide (NoDup entries.*1) && forallb (λ kv, wf_value kv.2) entries
  | _ => true
  end.

(** ** The resolver *)

Definition isBracket (r : ascii) : bool :=
  Ascii.eqb r "[" || Ascii.eqb r "]".

Fixpoint getFilterCommandRec (keys : list string) (filters : Value) : Value * bool :=
  match keys with
  | [] => (filters, true)
  | k0 :: rest =>
      let key := strings.Trim k0 "'" in
      match filters with
      | VString _ => (filters, true)
      | VObject m =>
          match mapLookup key m with
          | Some v => getFilterCommandRec rest v
          | None => (VNull, false)
          end
      | VArray s =>
          match s with
          | [s0] => getFilterCommandRec rest s0
          | _ =>
              match strconv.ParseInt_10_32 key with
              | Some i =>
                  if (i <? Z.of_nat (length s)) && (0 <=? i)
                  then match s !! Z.to_nat i with
                       | Some si => getFilterCommandRec rest si
                       | None => (VNull, false)
                       end
                  else (VNull, false)
              | None => (VNull, false)
              end
          end
      | _ => (VNull, false)
      end
  end.

Definition getFilterCommand (path : string) (filters : Value) : string * bool :=
  let keys := strings.FieldsFunc path isBracket in
  match getFilterCommandRec keys filters with
  | (VString command, true) => (command, true)
  | _ => ("", false)
  end.

(** ** The traverser

    A filter runner is a Go function: besides its two results it may change
    the world around it (spawn a process, count its calls).  [World] is the
    state it reads and changes, threaded through the traversal in the order
    of the calls.  An [error] is [Some e], a [nil] error is [None]. *)

Section Traverser.

Context {error World : Type}.

Definition FilterRunner : Type :=
  string → string → World → (string * option error) * World.

Definition visitorFunc : Type :=
  string → string → World → (string * option error) * World.

(** What runs a filter when no runner is given: [commandLineFilterRunner]
    starts a process with [os/exec]. *)
Variable commandLineFilterRunner : FilterRunner.

(** [readJsonFromFile] and [readJsonFromText]: the file system and the
    decoder of [encoding/json]. *)
Variable readJsonFromFile : string → Value * option error.
Variable readJsonFromText : string → Value * option error.

Definition doRunFilter (path value : string) (filters : Value)
    (filterRunner : option FilterRunner) (w : World)
    : (string * option error) * World :=
  match getFilterCommand path filters with
  | (command, true) =>
      match filterRunner with
      | None => commandLineFilterRunner command value w
      | Some run => run command value w
      end
  | (_, false) => ((value, None), w)
  end.

Definition loadFilters (filter : string) : Value * option error :=
  if strings.HasSuffix filter ".json"
  then readJsonFromFile filter
  else (VString filter, None).

(** The loop of [traverseMap]: [m[k] = ...] for every entry in turn, and
    [break] at the first error, after the assignment. *)
Definition traverseMap
    (traverseWithPath : Value → string → visitorFunc → World → (Value * option error) * World)
    : list (string * Value) → string → visitorFunc → World
      → (list (string * Value) * option error) * World :=
  fix loop m path visit w :=
    match m with
    | [] => (([], None), w)
    | (k, v) :: m' =>
        let '((v', err), w1) :=
          traverseWithPath v (path +:+ "['" +:+ k +:+ "']") visit w in
        match err with
        | Some e => (((k, v') :: m', Some e), w1)
        | None =>
            let '((m'', err'), w2) := loop m' path visit w1 in
            (((k, v') :: m'', err'), w2)
        end
    end.

(** The loop of [traverseSlice], from position [k] on. *)
Definition traverseSliceFrom
    (traverseWithPath : Value → string → visitorFunc → World → (Value * option error) * World)
    : list Value → nat → string → visitorFunc → World
      → (list Value * option error) * World :=
  fix loop slice k path visit w :=
    match slice with
    | [] => (([], None), w)
    | v :: slice' =>
        let '((v', err), w1) :=
          traverseWithPath v (path +:+ "[" +:+ fmt.decimal k +:+ "]") visit w in
        match err with
        | Some e => ((v' :: slice', Some e), w1)
        | None =>
            let '((slice'', err'), w2) := loop slice' (S k) path visit w1 in
            ((v' :: slice'', err'), w2)
        end
    end.

Fixpoint traverseWithPath (value : Value) (path : string) (visit : visitorFunc)
    (w : World) {struct value} : (Value * option error) * World :=
  match value with
  | VString s =>
      let '((r, err), w') := visit path s w in ((VString r, err), w')
  | VObject m =>
      let '((m', err), w') := traverseMap traverseWithPath m path visit w in
      ((VObject m', err), w')
  | VArray slice =>
      let '((slice', err), w') :=
        traverseSliceFrom traverseWithPath slice 0 path visit w in
      ((VArray slice', err), w')
  | _ => ((value, None), w)
  end.

Definition traverseSlice (slice : list Value) (path : string)
    (visit : visitorFunc) (w : World) : (list Value * option error) * World :=
  traverseSliceFrom traverseWithPath slice 0 path visit w.

Definition traverse (value : Value) (visit : visitorFunc) (w : World)
    : (Value * option error) * World :=
  traverseWithPath value "" visit w.

(** What the caller's [value] denotes once [traverse] has run on it and
    its result has been dropped: a map or a slice was assigned to in
    place, so it is the traversed tree; any other value is what it was.
    [InPlace] below has the assignments in a heap, and [doFilter_refines]
    shows that the value of the caller then denotes this tree. *)
Definition afterTraverse (value result : Value) : Value :=
  match value with
  | VObject _ | VArray _ => result
  | _ => value
  end.

(** [doFilter] returns the error only; the first component is the tree
    the caller's [value] denotes when it returns. *)
Definition doFilter (value : Value) (filter : string)
    (filterRunner : option FilterRunner) (w : World)
    : (Value * option error) * World :=
  match loadFilters filter with
  | (filters, None) =>
      let '((result, err), w') :=
        traverse value
          (λ path value, doRunFilter path value filters filterRunner) w in
      ((afterTraverse value result, err), w')
  | (_, Some e) => ((value, Some e), w)
  end.

(** A nil [filterRunner] is [None]. *)
Definition FilterJsonFromTextWithFilterRunner (jsonText filter : string)
    (filterRunner : option FilterRunner) (w : World) : (Value * option error) * World :=
  match readJsonFromText jsonText with
  | (value, None) => doFilter value filter filterRunner w
  | (value, Some e) => ((value, Some e), w)
  end.

Definition FilterJsonFromText (jsonText filter : string) (w : World)
    : (Value * option error) * World :=
  match readJsonFromText jsonText with
  | (value, None) => doFilter value filter None w
  | (value, Some e) => ((value, Some e), w)
  end.

End Traverser.

(** ** Paths

    The traverser extends the path by one bracketed segment per level:
    [fmt.Sprintf("%s['%s']", path, k)] under a map and
    [fmt.Sprintf("%s[%d]", path, k)] under a slice. *)

Inductive PathSegment : Type :=
  | Key (name : string)
  | Index (i : nat).

Definition segmentText (seg : PathSegment) : string :=
  match seg with
  | Key k => "['" +:+ k +:+ "']"
  | Index i => "[" +:+ fmt.decimal i +:+ "]"
  end.

Definition extendPath (path : string) (segs : list PathSegment) : string :=
  fold_left (λ p seg, p +:+ segmentText seg) segs path.

Definition pathOf (segs : list PathSegment) : string := extendPath "" segs.

(** The keys the resolver reads from the text of a segment. *)
Definition segmentKeys (seg : PathSegment) : list string :=
  match seg with
  | Key k => strings.FieldsFunc ("'" +:+ k +:+ "'") isBracket
  | Index i => [fmt.decimal i]
  end.

(** The node of a tree at the end of a path. *)
Fixpoint valueAt (segs : list PathSegment) (v : Value) : option Value :=
  match segs with
  | [] => Some v
  | Key k :: segs' =>
      match v with
      | VObject m => mapLookup k m ≫= valueAt segs'
      | _ => None
      end
  | Index i :: segs' =>
      match v with
      | VArray l => l !! i ≫= valueAt segs'
      | _ => None
      end
  end.

Definition isScalar (v : Value) : bool :=
  match v with
  | VNumber _ | VBool _ | VNull => true
  | _ => false
  end.

(** Two trees of the same shape: the same maps, keys and slices, the same
    numbers, booleans and nulls; only strings may differ. *)
Definition sameElems (R : Value → Value → Prop) : list Value → list Value → Prop :=
  fix go l l' :=
    match l, l' with
    | [], [] => True
    | x :: l, y :: l' => R x y ∧ go l l'
    | _, _ => False
    end.

Definition sameEntries (R : Value → Value → Prop)
    : list (string * Value) → list (string * Value) → Prop :=
  fix go m m' :=
    match m, m' with
    | [], [] => True
    | (k, x) :: m, (k', y) :: m' => k = k' ∧ R x y ∧ go m m'
    | _, _ => False
    end.

Fixpoint sameShape (a b : Value) : Prop :=
  match a, b with
  | VString _, VString _ => True
  | VNumber f, VNumber g => f = g
  | VBool x, VBool y => x = y
  | VNull, VNull => True
  | VArray l, VArray l' => sameElems sameShape l l'
  | VObject m, VObject m' => sameEntries sameShape m m'
  | _, _ => False
  end.

(** A file system without files. *)
Definition noFile : string → Value * option string :=
  λ name, (VNull, Some ("open " +:+ name +:+ ": no such file or directory")).

(** A file system with one JSON file in it. *)
Definition oneFile (name : string) (content : Value) : string → Value * option string :=
  λ n, if String.eqb n name then (content, None) else noFile n.

(** The number of levels of maps and slices of a tree. *)
Fixpoint height (v : Value) : nat :=
  match v with
  | VArray l => S (foldr (λ x n, Nat.max (height x) n) 0%nat l)
  | VObject m => S (foldr (λ kx n, Nat.max (height kx.2) n) 0%nat m)
  | _ => 0%nat
  end.

(** The strings of a tree. *)
Fixpoint stringLeaves (v : Value) : list string :=
  match v with
  | VString s => [s]
  | VArray l => flat_map stringLeaves l
  | VObject m => flat_map (λ kv, stringLeaves kv.2) m
  | _ => []
  end.

(** ** A runner for the examples

    In the style of the runners of the tests: it knows the command
    [upper], fails on any other, and counts its calls in the world. *)

Definition upperChar (c : ascii) : ascii :=
  let n := nat_of_ascii c in
  if (97 <=? n)%nat && (n <=? 122)%nat then ascii_of_nat (n - 32) else c.

Fixpoint ToUpper (s : string) : string :=
  match s with
  | EmptyString => ""
  | String c s' => String (upperChar c) (ToUpper s')
  end.

Definition upperRunner : @FilterRunner string nat :=
  λ command value calls,
    if String.eqb command "upper" then ((ToUpper value, None), S calls)
    else (("", Some ("Unexpected command :: " +:+ command)), S calls).

(** ** The command line runner

    [commandLineFilterRunner] starts the command as a process, the string
    on its standard input, and takes what it writes to its standard
    output.  [execRun name args stdin] is [exec.Command(name, args...)]
    with [Stdin] and [Stdout] set, and [Run]: what the process wrote and
    the error of [Run], in a world the process may change. *)

Section CommandLine.

Context {error World : Type}.

Variable execRun : string → list string → string → World → (string * option error) * World.

(** [result] is assigned when [Run] returns no error, and is the empty
    string otherwise.  [strings.Split] returns at least one part
    ([Split_parts] below), so that [parts[0]] is there. *)
Definition commandLineFilterRunner : @FilterRunner error World :=
  λ command value w,
    match strings.Split command " " with
    | name :: args =>
        let '((out, err), w') := execRun name args value w in
        match err with
        | None => ((out, None), w')
        | Some e => (("", Some e), w')
        end
    | [] => (("", None), w)
    end.

End CommandLine.

(** ** Reading JSON

    [Decode reader] is [json.NewDecoder(reader).Decode(&value)]: the value
    decoded, [nil] when none was, and the error.  [io_EOF] is the error
    [io.EOF]; errors are compared as Go compares them, with [==].
    [os_Open] gives the file to read or the error of [os.Open];
    [bufio.NewReader] changes nothing in what is read. *)

Section Readers.

Context {error World Reader : Type} `{EqDecision error}.

Variable io_EOF : error.
Variable Decode : Reader → Value * option error.
Variable strings_NewReader : string → Reader.
Variable os_Open : string → Reader + error.
Variable commandLineFilterRunner : @FilterRunner error World.

Definition readJsonFromReader (reader : Reader) : Value * option error :=
  let '(value, err) := Decode reader in
  if bool_decide (err = Some io_EOF) then (value, None) else (value, err).

Definition readJsonFromFile (fileName : string) : Value * option error :=
  match os_Open fileName with
  | inl file => readJsonFromReader file
  | inr err => (VNull, Some err)
  end.

Definition readJsonFromText (jsonText : string) : Value * option error :=
  readJsonFromReader (strings_NewReader jsonText).

Definition FilterJsonFromReader (reader : Reader) (filter : string) (w : World)
    : (Value * option error) * World :=
  match readJsonFromReader reader with
  | (value, None) => doFilter commandLineFilterRunner readJsonFromFile value filter None w
  | (value, Some e) => ((value, Some e), w)
  end.

Definition FilterJsonFromReaderWithFilterRunner (reader : Reader) (filter : string)
    (filterRunner : option FilterRunner) (w : World) : (Value * option error) * World :=
  match readJsonFromReader reader with
  | (value, None) =>
      doFilter commandLineFilterRunner readJsonFromFile value filter filterRunner w
  | (value, Some e) => ((value, Some e), w)
  end.

End Readers.

(** ** The command [jsonfilter] of [main.go]

    [init] declares the flags and calls [flag.Parse], which either ends
    the command by itself or leaves the flags in the variables of the
    package: [help], [filter], [output], and the arguments that are no
    flags in [flag.Args()].  A file is known by what [Stat] says of it:
    [Some mode] for the mode bits of [info.Mode()], [None] for an error.
    What the command prints is left out, and with it the flag
    [prettyPrint], which only [doWrite] reads. *)

Module Main.

(** [os.ModeNamedPipe] and [os.ModePerm], of the 32 bits of an
    [os.FileMode]. *)
Definition ModeNamedPipe : Z := Z.shiftl 1 (32 - 1 - 6).
Definition ModePerm : Z := 511.

Definition isPiped (stat : option Z) : bool :=
  match stat with
  | Some mode => mode =? ModeNamedPipe
  | None => false
  end.

(** What [flag.Parse] makes of the command line.  The flag set of the
    command line exits on an error: for a flag that is not defined or a
    value that does not parse, [flag.Parse] prints the usage and calls
    [os.Exit(code)] itself, and [init] goes no further. *)
Inductive Parsed : Type :=
  | ParseExit (code : Z)
  | Flags (help : bool) (filter output : string) (args : list string).

(** How [init] ends: with [os.Exit(code)], or with the text to filter in
    [jsontext] and the flags [filter] and [output] for [main]. *)
Inductive Started : Type :=
  | Exit (code : Z)
  | Ready (jsontext filter output : string).

(** [stdin] is what [readFile(os.Stdin)] returns, were it called. *)
Definition init {error} (parsed : Parsed)
    (stdinStat : option Z) (stdin : string * option error) : Started :=
  match parsed with
  | ParseExit code => Exit code
  | Flags help filter output args =>
      let checkFilter jsontext :=
        if (String.length filter =? 0)%nat then Exit 1
        else Ready jsontext filter output in
      if help then Exit 0
      else
        match args with
        | [arg0] =>
            if String.eqb arg0 "/?" || String.eqb arg0 "help" then Exit 0
            else checkFilter arg0
        | _ =>
            if isPiped stdinStat
            then match stdin with
                 | (text, None) => checkFilter text
                 | (_, Some _) => Exit 1
                 end
            else Exit 1
        end
  end.

(** Where the result is written. *)
Inductive Writer : Type :=
  | Stdout
  | File (name : string).

(** [os_Create name] is [None] when the file was created. *)
Definition createWriter {error} (os_Create : string → option error)
    (output : string) (stdoutStat : option Z) : Writer + error :=
  if (String.length output =? 0)%nat || isPiped stdoutStat then inl Stdout
  else match os_Create output with
       | None => inl (File output)
       | Some err => inr err
       end.

(** How [main] ends: it returns, having written [value] to [writer] or
    nothing at all, or it panics. *)
Inductive Ended {error} : Type :=
  | Returned (written : option (Writer * Value))
  | Panicked (err : error).

(** [FilterJsonFromText] is the function of the package; [doWrite writer
    value] is [None] when the value was encoded and written. *)
Definition main {error}
    (FilterJsonFromText : string → string → Value * option error)
    (os_Create : string → option error)
    (doWrite : Writer → Value → option error)
    (jsontext filter output : string) (stdoutStat : option Z) : @Ended error :=
  if (String.length jsontext =? 0)%nat then Returned None
  else
    match FilterJsonFromText jsontext filter with
    | (value, None) =>
        match createWriter os_Create output stdoutStat with
        | inl writer =>
            match doWrite writer value with
            | None => Returned (Some (writer, value))
            | Some err => Panicked err
            end
        | inr err => Panicked err
        end
    | (_, Some err) => Panicked err
    end.

(** The command from its start to its end: [init], then [main]. *)
Definition jsonfilter {error}
    (FilterJsonFromText : string → string → Value * option error)
    (os_Create : string → option error)
    (doWrite : Writer → Value → option error)
    (parsed : Parsed) (stdinStat stdoutStat : option Z) (stdin : string * option error)
    : Z + @Ended error :=
  match init parsed stdinStat stdin with
  | Exit code => inl code
  | Ready jsontext filter output =>
      inr (main FilterJsonFromText os_Create doWrite jsontext filter output stdoutStat)
  end.

End Main.

(** ** Observing the calls of the filter runner

    A runner that counts or records its calls is a runner whose world has
    the record in it.  [traced run] is [run] with the record of every call
    made: the command, the value, and the error returned. *)

Definition Call : Type := string * string.

Section Calls.

Context {error World : Type}.

Definition traced (run : @FilterRunner error World)
    : @FilterRunner error (World * list (Call * option error)) :=
  λ command value '(w, log),
    let '((result, err), w') := run command value w in
    ((result, err), (w', log ++ [((command, value), err)])).

(** The visitor [doFilter] hands to [traverse]. *)
Definition filterVisitor (commandLineFilterRunner : @FilterRunner error World)
    (filters : Value) (filterRunner : option (@FilterRunner error World))
    : @visitorFunc error World :=
  λ path value, doRunFilter commandLineFilterRunner path value filters filterRunner.

(** What is recorded at the strings under a map and under a slice, in the
    order of the loops of [traverseMap] and [traverseSlice]; [leavesOf] is
    what is recorded under one entry or element. *)
Definition leavesOfMap (leavesOf : Value → string → list Call)
    : list (string * Value) → string → list Call :=
  fix go m path :=
    match m with
    | [] => []
    | (k, v) :: m' => leavesOf v (path +:+ "['" +:+ k +:+ "']") ++ go m' path
    end.

Definition leavesOfSlice (leavesOf : Value → string → list Call)
    : list Value → nat → string → list Call :=
  fix go l k path :=
    match l with
    | [] => []
    | v :: l' =>
        leavesOf v (path +:+ "[" +:+ fmt.decimal k +:+ "]") ++ go l' (S k) path
    end.

(** The strings of a tree, each with its path, in the order in which the
    traverser comes to them. *)
Fixpoint visitedLeaves (value : Value) (path : string) : list Call :=
  match value with
  | VString s => [(path, s)]
  | VObject m => leavesOfMap visitedLeaves m path
  | VArray l => leavesOfSlice visitedLeaves l 0 path
  | _ => []
  end.

(** [tracedVisit visit] is the visitor [visit] with the record of every
    call made: the path, the string, and the error returned. *)
Definition tracedVisit (visit : @visitorFunc error World)
    : @visitorFunc error (World * list (Call * option error)) :=
  λ path value '(w, log),
    let '((result, err), w') := visit path value w in
    ((result, err), (w', log ++ [((path, value), err)])).

(** The strings of a tree for which the resolver finds a command, each
    with its command, in the order in which the traverser comes to them. *)
Fixpoint matchedLeaves (filters value : Value) (path : string) : list Call :=
  match value with
  | VString s =>
      match getFilterCommand path filters with
      | (command, true) => [(command, s)]
      | _ => []
      end
  | VObject m => leavesOfMap (matchedLeaves filters) m path
  | VArray l => leavesOfSlice (matchedLeaves filters) l 0 path
  | _ => []
  end.

(** A record [new] of calls is fail-fast for the sequence [calls] of the
    leaves and the error [err] of the whole traversal: without an error
    there was a call for every leaf and every call succeeded; with an
    error [e] the calls are the leaves up to the first whose call failed,
    that call returned [e], and it is the last one made, so that the
    number of calls is the position of that leaf. *)
Definition failFast (calls : list Call) (err : option error)
    (new : list (Call * option error)) : Prop :=
  match err with
  | None => new.*1 = calls ∧ Forall (λ x, x.2 = None) new
  | Some e =>
      ∃ pre c post,
        calls = pre.*1 ++ c :: post
        ∧ new = pre ++ [(c, Some e)]
        ∧ Forall (λ x, x.2 = None) pre
        ∧ length new = S (length pre)
  end.

End Calls.

(** ** The traverser on the heap

    A Go map is a reference and a slice has a backing array: [m[k] = x] and
    [slice[k] = x] change the object that every holder of the map or of the
    slice sees.  [InPlace] is the package with the maps and the backing
    arrays in a heap: [traverseMap] and [traverseSlice] assign in place and
    return the reference they were given, [doFilter] returns the error
    only, and the caller keeps the [value] it passed. *)

Module InPlace.

Abbreviation loc := nat.

(** An [interface{}] value: maps and slices are references. *)
Inductive val : Type :=
  | IString (s : string)
  | INumber (f : float64)
  | IBool (b : bool)
  | INil
  | ISlice (l : loc)
  | IMap (l : loc).

Inductive cell : Type :=
  | CSlice (elems : list val)
  | CMap (entries : list (string * val)).

Abbreviation heap := (gmap loc cell).

Definition mapAt (h : heap) (l : loc) : option (list (string * val)) :=
  match h !! l with
  | Some (CMap m) => Some m
  | _ => None
  end.

Definition sliceAt (h : heap) (l : loc) : option (list val) :=
  match h !! l with
  | Some (CSlice s) => Some s
  | _ => None
  end.

(** [m[k] = v]. *)
Fixpoint mapAssign (k : string) (v : val) (m : list (string * val))
    : list (string * val) :=
  match m with
  | [] => [(k, v)]
  | (k0, v0) :: m' =>
      if String.eqb k0 k then (k0, v) :: m' else (k0, v0) :: mapAssign k v m'
  end.

Fixpoint getFilterCommandRec (h : heap) (keys : list string) (filters : val)
    : val * bool :=
  match keys with
  | [] => (filters, true)
  | k0 :: rest =>
      let key := strings.Trim k0 "'" in
      match filters with
      | IString _ => (filters, true)
      | IMap l =>
          match mapAt h l ≫= mapLookup key with
          | Some v => getFilterCommandRec h rest v
          | None => (INil, false)
          end
      | ISlice l =>
          match sliceAt h l with
          | Some [s0] => getFilterCommandRec h rest s0
          | Some s =>
              match strconv.ParseInt_10_32 key with
              | Some i =>
                  if (i <? Z.of_nat (length s)) && (0 <=? i)
                  then match s !! Z.to_nat i with
                       | Some si => getFilterCommandRec h rest si
                       | None => (INil, false)
                       end
                  else (INil, false)
              | None => (INil, false)
              end
          | None => (INil, false)
          end
      | _ => (INil, false)
      end
  end.

Definition getFilterCommand (h : heap) (path : string) (filters : val) : string * bool :=
  let keys := strings.FieldsFunc path isBracket in
  match getFilterCommandRec h keys filters with
  | (IString command, true) => (command, true)
  | _ => ("", false)
  end.

(** The cells a decoded tree takes, and the decoder putting a tree in the
    heap from the free location [n] on. *)
Fixpoint cells (t : Value) : nat :=
  match t with
  | VArray l => S (foldr (λ x n, cells x + n)%nat 0%nat l)
  | VObject m => S (foldr (λ kx n, cells kx.2 + n)%nat 0%nat m)
  | _ => 0%nat
  end.

Definition allocElems (alloc : Value → loc → heap → val * heap)
    : list Value → loc → heap → list val * heap :=
  fix go l n h :=
    match l with
    | [] => ([], h)
    | t :: l' =>
        let '(v, h1) := alloc t n h in
        let '(vs, h2) := go l' (n + cells t)%nat h1 in
        (v :: vs, h2)
    end.

Definition allocEntries (alloc : Value → loc → heap → val * heap)
    : list (string * Value) → loc → heap → list (string * val) * heap :=
  fix go m n h :=
    match m with
    | [] => ([], h)
    | (k, t) :: m' =>
        let '(v, h1) := alloc t n h in
        let '(es, h2) := go m' (n + cells t)%nat h1 in
        ((k, v) :: es, h2)
    end.

Fixpoint alloc (t : Value) (n : loc) (h : heap) : val * heap :=
  match t with
  | VString s => (IString s, h)
  | VNumber f => (INumber f, h)
  | VBool b => (IBool b, h)
  | VNull => (INil, h)
  | VArray l =>
      let '(vs, h1) := allocElems alloc l (S n) h in
      (ISlice n, <[n := CSlice vs]> h1)
  | VObject m =>
      let '(es, h1) := allocEntries alloc m (S n) h in
      (IMap n, <[n := CMap es]> h1)
  end.

(** [rep h t n v]: in the heap [h] the value [v] is the tree [t], decoded at
    location [n]; the cells of [t] are at [n], ..., [n + cells t - 1]. *)
Definition repElems (rep : Value → loc → val → Prop)
    : list Value → loc → list val → Prop :=
  fix go l n vs :=
    match l, vs with
    | [], [] => True
    | t :: l', v :: vs' => rep t n v ∧ go l' (n + cells t)%nat vs'
    | _, _ => False
    end.

Definition repEntries (rep : Value → loc → val → Prop)
    : list (string * Value) → loc → list (string * val) → Prop :=
  fix go m n es :=
    match m, es with
    | [], [] => True
    | (k, t) :: m', (k', v) :: es' => k = k' ∧ rep t n v ∧ go m' (n + cells t)%nat es'
    | _, _ => False
    end.

Fixpoint rep (h : heap) (t : Value) (n : loc) (v : val) : Prop :=
  match t with
  | VString s => v = IString s
  | VNumber f => v = INumber f
  | VBool b => v = IBool b
  | VNull => v = INil
  | VArray l =>
      v = ISlice n ∧ ∃ vs, sliceAt h n = Some vs ∧ repElems (rep h) l (S n) vs
  | VObject m =>
      v = IMap n ∧ ∃ es, mapAt h n = Some es ∧ repEntries (rep h) m (S n) es
  end.

(** The tree a value denotes, read from the heap. *)
Fixpoint readBack (fuel : nat) (h : heap) (v : val) : option Value :=
  match fuel with
  | O => None
  | S fuel' =>
      match v with
      | IString s => Some (VString s)
      | INumber f => Some (VNumber f)
      | IBool b => Some (VBool b)
      | INil => Some VNull
      | ISlice l => s ← sliceAt h l; VArray <$> mapM (readBack fuel' h) s
      | IMap l =>
          m ← mapAt h l;
          VObject <$> mapM (λ kv, pair kv.1 <$> readBack fuel' h kv.2) m
      end
  end.

Section Traverser.

Context {error World : Type}.

(** The visitor reads the heap, for the filters are in it. *)
Definition visitorFunc : Type :=
  string → string → heap → World → (string * option error) * World.

Variable commandLineFilterRunner : @FilterRunner error World.

(** The decoder: the tree it decodes, put in the heap at the free location. *)
Variable readJsonFromFile : string → Value * option error.
Variable readJsonFromText : string → Value * option error.

Definition decoded (r : Value * option error) (h : heap) (free : loc)
    : (val * option error) * (heap * loc) :=
  let '(v, h') := alloc r.1 free h in
  ((v, r.2), (h', (free + cells r.1)%nat)).

Definition doRunFilter (path value : string) (filters : val)
    (filterRunner : option (@FilterRunner error World)) (h : heap) (w : World)
    : (string * option error) * World :=
  match getFilterCommand h path filters with
  | (command, true) =>
      match filterRunner with
      | None => commandLineFilterRunner command value w
      | Some run => run command value w
      end
  | (_, false) => ((value, None), w)
  end.

Definition loadFilters (filter : string) (h : heap) (free : loc)
    : (val * option error) * (heap * loc) :=
  if strings.HasSuffix filter ".json"
  then decoded (readJsonFromFile filter) h free
  else ((IString filter, None), (h, free)).

(** The loop of [traverseMap] over the keys of the map at [l]: the value of
    the key is read from the map, traversed, and assigned to the key. *)
Definition traverseMap
    (traverseWithPath : val → string → visitorFunc → heap → World
                        → option ((val * option error) * (heap * World)))
    (l : loc)
    : list string → string → visitorFunc → heap → World
      → option (option error * (heap * World)) :=
  fix loop keys path visit h w :=
    match keys with
    | [] => Some (None, (h, w))
    | k :: keys' =>
        v ← mapAt h l ≫= mapLookup k;
        '((v', err), (h1, w1)) ← traverseWithPath v (path +:+ "['" +:+ k +:+ "']") visit h w;
        m1 ← mapAt h1 l;
        let h2 := <[l := CMap (mapAssign k v' m1)]> h1 in
        match err with
        | Some e => Some (Some e, (h2, w1))
        | None => loop keys' path visit h2 w1
        end
    end.

(** The loop of [traverseSlice] over the backing array at [l], for [count]
    positions from [k] on. *)
Definition traverseSliceFrom
    (traverseWithPath : val → string → visitorFunc → heap → World
                        → option ((val * option error) * (heap * World)))
    (l : loc)
    : nat → nat → string → visitorFunc → heap → World
      → option (option error * (heap * World)) :=
  fix loop count k path visit h w :=
    match count with
    | O => Some (None, (h, w))
    | S count' =>
        v ← sliceAt h l ≫= (.!! k);
        '((v', err), (h1, w1)) ←
          traverseWithPath v (path +:+ "[" +:+ fmt.decimal k +:+ "]") visit h w;
        s1 ← sliceAt h1 l;
        let h2 := <[l := CSlice (<[k := v']> s1)]> h1 in
        match err with
        | Some e => Some (Some e, (h2, w1))
        | None => loop count' (S k) path visit h2 w1
        end
    end.

(** [None] is for a reference that is not in the heap and for a traversal
    deeper than [fuel]; neither happens on a decoded tree. *)
Fixpoint traverseWithPath (fuel : nat) (value : val) (path : string)
    (visit : visitorFunc) (h : heap) (w : World)
    : option ((val * option error) * (heap * World)) :=
  match fuel with
  | O => None
  | S fuel' =>
      match value with
      | IString s =>
          let '((r, err), w') := visit path s h w in
          Some ((IString r, err), (h, w'))
      | IMap l =>
          m ← mapAt h l;
          '(err, hw) ← traverseMap (traverseWithPath fuel') l m.*1 path visit h w;
          Some ((value, err), hw)
      | ISlice l =>
          s ← sliceAt h l;
          '(err, hw) ←
            traverseSliceFrom (traverseWithPath fuel') l (length s) 0 path visit h w;
          Some ((value, err), hw)
      | _ => Some ((value, None), (h, w))
      end
  end.

Definition traverse (fuel : nat) (value : val) (visit : visitorFunc)
    (h : heap) (w : World) : option ((val * option error) * (heap * World)) :=
  traverseWithPath fuel value "" visit h w.

(** [doFilter] returns the error and nothing else. *)
Definition doFilter (fuel : nat) (value : val) (filter : string)
    (filterRunner : option (@FilterRunner error World))
    (h : heap) (free : loc) (w : World)
    : option (option error * (heap * loc) * World) :=
  match loadFilters filter h free with
  | ((filters, None), (h1, free1)) =>
      '((_, err), (h2, w')) ←
        traverse fuel value
          (λ path value, doRunFilter path value filters filterRunner) h1 w;
      Some (err, (h2, free1), w')
  | ((_, Some e), hf) => Some (Some e, hf, w)
  end.

(** The value handed back is the one that was decoded. *)
Definition FilterJsonFromTextWithFilterRunner (fuel : nat) (jsonText filter : string)
    (filterRunner : option (@FilterRunner error World))
    (h : heap) (free : loc) (w : World)
    : option ((val * option error) * (heap * loc) * World) :=
  match decoded (readJsonFromText jsonText) h free with
  | ((value, None), (h1, free1)) =>
      '(err, hf, w') ← doFilter fuel value filter filterRunner h1 free1 w;
      Some ((value, err), hf, w')
  | ((value, Some e), hf) => Some ((value, Some e), hf, w)
  end.

Definition FilterJsonFromText (fuel : nat) (jsonText filter : string)
    (h : heap) (free : loc) (w : World)
    : option ((val * option error) * (heap * loc) * World) :=
  match decoded (readJsonFromText jsonText) h free with
  | ((value, None), (h1, free1)) =>
      '(err, hf, w') ← doFilter fuel value filter None h1 free1 w;
      Some ((value, err), hf, w')
  | ((value, Some e), hf) => Some ((value, Some e), hf, w)
  end.

End Traverser.

End InPlace.

(** * Properties *)

(** ** Strings *)

Lemma append_assoc (a b c : string) : (a +:+ b) +:+ c = a +:+ (b +:+ c).
Proof. induction a as [|x a IH]; simpl; congruence. Qed.

Lemma append_empty_r (a : string) : a +:+ "" = a.
Proof. induction a as [|x a IH]; simpl; congruence. Qed.

Lemma fieldsFrom_app_sep f s c t cur :
  f c = true →
  strings.fieldsFrom f (s +:+ String c t) cur
  = strings.fieldsFrom f s cur ++ strings.fieldsFrom f t "".
Proof.
  intros Hc. revert cur. induction s as [|x s IH]; intros cur; simpl.
  - rewrite Hc. by destruct (String.eqb cur "").
  - destruct (f x); [|apply IH].
    destruct (String.eqb cur ""); simpl; by rewrite IH.
Qed.

Lemma FieldsFunc_bracketed path x :
  strings.FieldsFunc (path +:+ "[" +:+ x +:+ "]") isBracket
  = strings.FieldsFunc path isBracket ++ strings.FieldsFunc x isBracket.
Proof.
  unfold strings.FieldsFunc.
  change ("[" +:+ x +:+ "]") with (String "[" (x +:+ String "]" "")).
  rewrite !fieldsFrom_app_sep by done. simpl. by rewrite app_nil_r.
Qed.

Lemma FieldsFunc_key path k :
  strings.FieldsFunc (path +:+ "['" +:+ k +:+ "']") isBracket
  = strings.FieldsFunc path isBracket
    ++ strings.FieldsFunc ("'" +:+ k +:+ "'") isBracket.
Proof.
  rewrite <- FieldsFunc_bracketed.
  replace (("'" +:+ k +:+ "'") +:+ "]") with ("'" +:+ k +:+ "']"); [done|].
  by rewrite !append_assoc.
Qed.

(** Characters that are not separators make one field. *)
Lemma fieldsFrom_run f w cur :
  noneSatisfies f w = true →
  strings.fieldsFrom f w cur
  = if String.eqb (cur +:+ w) "" then [] else [cur +:+ w].
Proof.
  revert cur. induction w as [|x w IH]; intros cur Hw; simpl in *.
  - by rewrite append_empty_r.
  - apply andb_true_iff in Hw as [Hx Hw]. apply negb_true_iff in Hx.
    rewrite Hx, IH by done. by rewrite append_assoc.
Qed.

Lemma FieldsFunc_one w :
  w ≠ "" → noneSatisfies isBracket w = true →
  strings.FieldsFunc w isBracket = [w].
Proof.
  intros Hne Hw. unfold strings.FieldsFunc. rewrite fieldsFrom_run by done.
  simpl. destruct w; [done | reflexivity].
Qed.

(** *** Decimal numerals *)

Lemma string_of_uint_digits d :
  noneSatisfies (λ c, negb (isDigit c)) (NilEmpty.string_of_uint d) = true.
Proof. induction d; simpl; by rewrite ?IHd. Qed.

Lemma noneSatisfies_weaken (f g : ascii → bool) s :
  (∀ c, g c = true → f c = true) →
  noneSatisfies f s = true → noneSatisfies g s = true.
Proof.
  intros Hfg. induction s as [|c s IH]; simpl; [done|].
  rewrite !andb_true_iff, !negb_true_iff. intros [Hc Hs]. split; [|auto].
  destruct (g c) eqn:Hg; [|done]. apply Hfg in Hg. congruence.
Qed.

Lemma N_to_uint_nonnil n : N.to_uint n ≠ Decimal.Nil.
Proof. destruct n; simpl; [done | apply DecimalPos.Unsigned.to_uint_nonnil]. Qed.

Lemma decimal_nonempty k : fmt.decimal k ≠ "".
Proof.
  unfold fmt.decimal. pose proof (N_to_uint_nonnil (N.of_nat k)) as H.
  by destruct (N.to_uint (N.of_nat k)).
Qed.

Lemma decimal_digits k :
  noneSatisfies (λ c, negb (isDigit c)) (fmt.decimal k) = true.
Proof. apply string_of_uint_digits. Qed.

Lemma digit_not_bracket c : isBracket c = true → negb (isDigit c) = true.
Proof.
  unfold isBracket. rewrite orb_true_iff.
  intros [H|H]; apply Ascii.eqb_eq in H; by subst.
Qed.

Lemma FieldsFunc_decimal k :
  strings.FieldsFunc (fmt.decimal k) isBracket = [fmt.decimal k].
Proof.
  apply FieldsFunc_one; [apply decimal_nonempty|].
  eapply noneSatisfies_weaken; [apply digit_not_bracket | apply decimal_digits].
Qed.

Lemma FieldsFunc_index path k :
  strings.FieldsFunc (path +:+ "[" +:+ fmt.decimal k +:+ "]") isBracket
  = strings.FieldsFunc path isBracket ++ [fmt.decimal k].
Proof. by rewrite FieldsFunc_bracketed, FieldsFunc_decimal. Qed.

Lemma TrimLeft_id s cut :
  noneSatisfies (λ c, Ascii.eqb c cut) s = true → strings.TrimLeft s cut = s.
Proof.
  destruct s as [|c s]; simpl; [done|].
  rewrite andb_true_iff, negb_true_iff. by intros [-> _].
Qed.

Lemma TrimRight_id s cut :
  noneSatisfies (λ c, Ascii.eqb c cut) s = true → strings.TrimRight s cut = s.
Proof.
  induction s as [|c s IH]; simpl; [done|].
  rewrite andb_true_iff, negb_true_iff. intros [-> Hs]. simpl. by rewrite IH.
Qed.

Lemma Trim_id s cut :
  noneSatisfies (λ c, Ascii.eqb c cut) s = true → strings.Trim s cut = s.
Proof.
  intros H. unfold strings.Trim. rewrite TrimLeft_id by done. by apply TrimRight_id.
Qed.

Lemma digit_not_quote c : Ascii.eqb c "'" = true → negb (isDigit c) = true.
Proof. intros H. apply Ascii.eqb_eq in H. by subst. Qed.

Lemma Trim_decimal k : strings.Trim (fmt.decimal k) "'" = fmt.decimal k.
Proof.
  apply Trim_id.
  eapply noneSatisfies_weaken; [apply digit_not_quote | apply decimal_digits].
Qed.

(** Parsing what [%d] printed gives the position back, when it fits in 32
    bits. *)
Lemma ParseInt_string_of_uint d :
  d ≠ Decimal.Nil →
  strconv.ParseInt_10_32 (NilEmpty.string_of_uint d)
  = if Z.of_N (N.of_uint d) <? 2 ^ 31 then Some (Z.of_N (N.of_uint d)) else None.
Proof.
  intros Hd.
  assert (strconv.parseDigits (NilEmpty.string_of_uint d)
          = Some (Z.of_N (N.of_uint d))) as Hp.
  { unfold strconv.parseDigits. rewrite NilEmpty.usu. by destruct d. }
  unfold strconv.ParseInt_10_32.
  destruct d; [done|..]; cbn [NilEmpty.string_of_uint] in *;
    cbn [Ascii.eqb Bool.eqb]; rewrite Hp; done.
Qed.

Lemma ParseInt_decimal k :
  strconv.ParseInt_10_32 (fmt.decimal k)
  = if Z.of_nat k <? 2 ^ 31 then Some (Z.of_nat k) else None.
Proof.
  unfold fmt.decimal. rewrite ParseInt_string_of_uint by apply N_to_uint_nonnil.
  by rewrite DecimalN.Unsigned.of_to, nat_N_Z.
Qed.

(** ** The resolver *)

Lemma getFilterCommandRec_string keys s :
  getFilterCommandRec keys (VString s) = (VString s, true).
Proof. by destruct keys. Qed.

Lemma getFilterCommand_string path s :
  getFilterCommand path (VString s) = (s, true).
Proof. unfold getFilterCommand. by rewrite getFilterCommandRec_string. Qed.

(** A command found on the way down stays the command of every longer
    path. *)
Lemma getFilterCommandRec_prefix keys rest filters s :
  getFilterCommandRec keys filters = (VString s, true) →
  getFilterCommandRec (keys ++ rest) filters = (VString s, true).
Proof.
  revert filters. induction keys as [|k keys IH]; intros filters; simpl.
  - intros [= ->]. apply getFilterCommandRec_string.
  - destruct filters as [| | | |l|m]; try done.
    + destruct l as [|x [|y l]]; [| apply IH |].
      * by destruct (strconv.ParseInt_10_32 _).
      * destruct (strconv.ParseInt_10_32 _) as [i|]; [|done].
        destruct (_ && _); [|done]. destruct (_ !! _); [apply IH | done].
    + destruct (mapLookup _ m); [apply IH | done].
Qed.

(** The positional case, for a slice that does not have exactly one
    element. *)
Lemma getFilterCommandRec_positional k rest s :
  length s ≠ 1%nat →
  getFilterCommandRec (k :: rest) (VArray s)
  = match strconv.ParseInt_10_32 (strings.Trim k "'") with
    | Some i =>
        if (i <? Z.of_nat (length s)) && (0 <=? i)
        then match s !! Z.to_nat i with
             | Some si => getFilterCommandRec rest si
             | None => (VNull, false)
             end
        else (VNull, false)
    | None => (VNull, false)
    end.
Proof. intros Hlen. by destruct s as [|x [|y s]]. Qed.

Lemma getFilterCommandRec_index i rest s :
  length s ≠ 1%nat →
  getFilterCommandRec (fmt.decimal i :: rest) (VArray s)
  = match s !! i with
    | Some si =>
        if Z.of_nat i <? 2 ^ 31 then getFilterCommandRec rest si else (VNull, false)
    | None => (VNull, false)
    end.
Proof.
  intros Hlen. rewrite getFilterCommandRec_positional by done.
  rewrite Trim_decimal, ParseInt_decimal.
  destruct (Z.of_nat i <? 2 ^ 31) eqn:Hi.
  - rewrite Nat2Z.id. destruct (s !! i) as [si|] eqn:Hs.
    + apply lookup_lt_Some in Hs.
      rewrite (proj2 (Z.ltb_lt _ _)), (proj2 (Z.leb_le _ _)) by lia. done.
    + by destruct (_ && _).
  - by destruct (s !! i).
Qed.

Lemma pathOf_snoc segs seg :
  pathOf (segs ++ [seg]) = pathOf segs +:+ segmentText seg.
Proof. unfold pathOf, extendPath. by rewrite fold_left_app. Qed.

Lemma extendPath_cons path seg segs :
  extendPath path (seg :: segs) = extendPath (path +:+ segmentText seg) segs.
Proof. done. Qed.

(** ** The traverser *)

Lemma Value_nested_ind (P : Value → Prop) :
  (∀ s, P (VString s)) → (∀ f, P (VNumber f)) → (∀ b, P (VBool b)) → P VNull →
  (∀ l, Forall P l → P (VArray l)) →
  (∀ m, Forall (λ kv, P kv.2) m → P (VObject m)) →
  ∀ v, P v.
Proof.
  intros Hs Hn Hb H0 Ha Ho. fix IH 1.
  intros [s|f|b| |l|m]; [apply Hs | apply Hn | apply Hb | apply H0 | |].
  - apply Ha. induction l as [|x l IHl]; constructor; [apply IH | apply IHl].
  - apply Ho. induction m as [|[k x] m IHm]; constructor; [apply IH | apply IHm].
Qed.

Section TraverserFacts.

Context {error World : Type}.
Implicit Types (visit : @visitorFunc error World) (w : World).
Implicit Types (v : Value) (m : list (string * Value)) (l : list Value).

Lemma traverseWithPath_object m path visit w :
  traverseWithPath (VObject m) path visit w
  = let '((m', err), w') := traverseMap traverseWithPath m path visit w in
    ((VObject m', err), w').
Proof. done. Qed.

Lemma traverseWithPath_array l path visit w :
  traverseWithPath (VArray l) path visit w
  = let '((l', err), w') := traverseSliceFrom traverseWithPath l 0 path visit w in
    ((VArray l', err), w').
Proof. done. Qed.

Lemma traverseWithPath_scalar v path visit w :
  isScalar v = true → traverseWithPath v path visit w = ((v, None), w).
Proof. by destruct v. Qed.

(** After the loop of [traverseMap], the entry of a key is the entry it
    was or the traversal of it, under the path extended by that key. *)
Lemma traverseMap_lookup m path visit w k u :
  mapLookup k m = Some u →
  ∃ u', mapLookup k (traverseMap traverseWithPath m path visit w).1.1 = Some u'
    ∧ (u' = u ∨ ∃ w0, u' = (traverseWithPath u (path +:+ segmentText (Key k)) visit w0).1.1).
Proof.
  revert w. induction m as [|[k0 v0] m IH]; intros w; simpl; [done|].
  destruct (traverseWithPath v0 _ visit w) as [[v0' [e|]] w1] eqn:Hv0.
  - simpl. destruct (String.eqb k0 k) eqn:Hk.
    + apply String.eqb_eq in Hk as ->. intros [= <-].
      eexists; split; [done|]. right. exists w. by rewrite Hv0.
    + intros Hu. exists u. by split; [|left].
  - destruct (traverseMap traverseWithPath m path visit w1) as [[m' err'] w2] eqn:Hm.
    simpl. destruct (String.eqb k0 k) eqn:Hk.
    + apply String.eqb_eq in Hk as ->. intros [= <-].
      eexists; split; [done|]. right. exists w. by rewrite Hv0.
    + intros Hu. destruct (IH w1 Hu) as (u' & Hu' & Hor).
      rewrite Hm in Hu'. eauto.
Qed.

Lemma traverseMap_lookup_ok m path visit w m' w' k u :
  traverseMap traverseWithPath m path visit w = ((m', None), w') →
  mapLookup k m = Some u →
  ∃ w0 w1 u',
    traverseWithPath u (path +:+ segmentText (Key k)) visit w0 = ((u', None), w1)
    ∧ mapLookup k m' = Some u'.
Proof.
  revert w m'. induction m as [|[k0 v0] m IH]; intros w m'; simpl; [done|].
  destruct (traverseWithPath v0 _ visit w) as [[v0' [e|]] w1] eqn:Hv0; [done|].
  destruct (traverseMap traverseWithPath m path visit w1) as [[m'' err'] w2] eqn:Hm.
  intros [= <- -> <-]. simpl. destruct (String.eqb k0 k) eqn:Hk.
  - apply String.eqb_eq in Hk as ->. intros [= <-]. eauto.
  - intros Hu. eapply IH; eauto.
Qed.

Lemma traverseSliceFrom_lookup l k0 path visit w i u :
  l !! i = Some u →
  ∃ u', (traverseSliceFrom traverseWithPath l k0 path visit w).1.1 !! i = Some u'
    ∧ (u' = u ∨ ∃ w0,
         u' = (traverseWithPath u (path +:+ segmentText (Index (k0 + i))) visit w0).1.1).
Proof.
  revert w k0 i. induction l as [|v0 l IH]; intros w k0 i; simpl; [done|].
  destruct (traverseWithPath v0 _ visit w) as [[v0' [e|]] w1] eqn:Hv0.
  - simpl. destruct i as [|i]; simpl.
    + intros [= <-]. eexists; split; [done|]. right. exists w.
      rewrite Nat.add_0_r. by rewrite Hv0.
    + intros Hu. exists u. by split; [|left].
  - destruct (traverseSliceFrom traverseWithPath l (S k0) path visit w1)
      as [[l' err'] w2] eqn:Hl.
    simpl. destruct i as [|i]; simpl.
    + intros [= <-]. eexists; split; [done|]. right. exists w.
      rewrite Nat.add_0_r. by rewrite Hv0.
    + intros Hu. destruct (IH w1 (S k0) i Hu) as (u' & Hu' & Hor).
      rewrite Hl in Hu'. replace (k0 + S i)%nat with (S k0 + i)%nat by lia. eauto.
Qed.

Lemma traverseSliceFrom_lookup_ok l k0 path visit w l' w' i u :
  traverseSliceFrom traverseWithPath l k0 path visit w = ((l', None), w') →
  l !! i = Some u →
  ∃ w0 w1 u',
    traverseWithPath u (path +:+ segmentText (Index (k0 + i))) visit w0 = ((u', None), w1)
    ∧ l' !! i = Some u'.
Proof.
  revert w k0 i l'. induction l as [|v0 l IH]; intros w k0 i l'; simpl; [done|].
  destruct (traverseWithPath v0 _ visit w) as [[v0' [e|]] w1] eqn:Hv0; [done|].
  destruct (traverseSliceFrom traverseWithPath l (S k0) path visit w1)
    as [[l'' err'] w2] eqn:Hl.
  intros [= <- -> <-]. destruct i as [|i]; simpl.
  - intros [= <-]. rewrite Nat.add_0_r. eauto.
  - intros Hu. replace (k0 + S i)%nat with (S k0 + i)%nat by lia. eapply IH; eauto.
Qed.

(** The node at a path of the traversed tree is the node that was there,
    or the traversal of it under that path. *)
Lemma subtree_traversed segs : ∀ data path visit w v,
  valueAt segs data = Some v →
  ∃ v', valueAt segs (traverseWithPath data path visit w).1.1 = Some v'
    ∧ (v' = v ∨ ∃ w0, v' = (traverseWithPath v (extendPath path segs) visit w0).1.1).
Proof.
  induction segs as [|[k|i] segs IH]; intros data path visit w v.
  - intros [= <-]. eexists; split; [done|]. right. by exists w.
  - destruct data as [| | | |l|m]; try done. cbn [valueAt].
    destruct (mapLookup k m) as [u|] eqn:Hu; [|done]. cbn [mbind option_bind].
    intros Hv. rewrite traverseWithPath_object.
    destruct (traverseMap_lookup m path visit w k u Hu) as (u' & Hu' & Hor).
    destruct (traverseMap _ m path visit w) as [[m' err] w'].
    cbn [fst snd valueAt] in *. rewrite Hu'. cbn [mbind option_bind].
    rewrite extendPath_cons. destruct Hor as [->|[w0 ->]]; [eauto|].
    by apply IH.
  - destruct data as [| | | |l|m]; try done. cbn [valueAt].
    destruct (l !! i) as [u|] eqn:Hu; [|done]. cbn [mbind option_bind].
    intros Hv. rewrite traverseWithPath_array.
    destruct (traverseSliceFrom_lookup l 0 path visit w i u Hu) as (u' & Hu' & Hor).
    destruct (traverseSliceFrom _ l 0 path visit w) as [[l' err] w'].
    cbn [fst snd valueAt] in *. rewrite Hu'. cbn [mbind option_bind].
    rewrite extendPath_cons. destruct Hor as [->|[w0 ->]]; [eauto|].
    by apply IH.
Qed.

(** When the traversal ends without an error, every node was traversed. *)
Lemma subtree_traversed_ok segs : ∀ data path visit w result w' v,
  traverseWithPath data path visit w = ((result, None), w') →
  valueAt segs data = Some v →
  ∃ w0 w1 v',
    traverseWithPath v (extendPath path segs) visit w0 = ((v', None), w1)
    ∧ valueAt segs result = Some v'.
Proof.
  induction segs as [|[k|i] segs IH]; intros data path visit w result w' v Hrun.
  - intros [= <-]. eauto.
  - destruct data as [| | | |l|m]; try done. cbn [valueAt].
    destruct (mapLookup k m) as [u|] eqn:Hu; [|done]. cbn [mbind option_bind].
    intros Hv. rewrite traverseWithPath_object in Hrun.
    destruct (traverseMap _ m path visit w) as [[m' err] w2] eqn:Hm.
    injection Hrun as <- -> <-.
    destruct (traverseMap_lookup_ok _ _ _ _ _ _ _ _ Hm Hu) as (w0 & w1 & u' & Hu' & Hl).
    destruct (IH _ _ _ _ _ _ _ Hu' Hv) as (w3 & w4 & v' & Hv' & Hat).
    exists w3, w4, v'. split; [done|]. cbn [valueAt]. by rewrite Hl.
  - destruct data as [| | | |l|m]; try done. cbn [valueAt].
    destruct (l !! i) as [u|] eqn:Hu; [|done]. cbn [mbind option_bind].
    intros Hv. rewrite traverseWithPath_array in Hrun.
    destruct (traverseSliceFrom _ l 0 path visit w) as [[l' err] w2] eqn:Hm.
    injection Hrun as <- -> <-.
    destruct (traverseSliceFrom_lookup_ok _ _ _ _ _ _ _ _ _ Hm Hu) as (w0 & w1 & u' & Hu' & Hl).
    destruct (IH _ _ _ _ _ _ _ Hu' Hv) as (w3 & w4 & v' & Hv' & Hat).
    exists w3, w4, v'. split; [done|]. cbn [valueAt]. by rewrite Hl.
Qed.

End TraverserFacts.

(** ** The record of calls *)

Lemma failFast_nil {error} : failFast (error:=error) [] None [].
Proof. by split. Qed.

Lemma failFast_one {error} (c : Call) (err : option error) :
  failFast [c] err [(c, err)].
Proof.
  destruct err as [e|]; simpl.
  - exists [], c, []. by repeat split.
  - split; [done|]. by repeat constructor.
Qed.

Lemma failFast_app_ok {error} (c1 c2 : list Call) (err : option error) n1 n2 :
  failFast c1 None n1 → failFast c2 err n2 → failFast (c1 ++ c2) err (n1 ++ n2).
Proof.
  intros [<- H1]. destruct err as [e|]; simpl.
  - intros (pre & c & post & -> & -> & Hpre & _).
    exists (n1 ++ pre), c, post. rewrite fmap_app, <- !app_assoc.
    repeat split; [by apply Forall_app|]. rewrite !length_app. simpl. lia.
  - intros [<- H2]. rewrite fmap_app. by split; [|apply Forall_app].
Qed.

Lemma failFast_app_err {error} (c1 c2 : list Call) (e : error) n1 :
  failFast c1 (Some e) n1 → failFast (c1 ++ c2) (Some e) n1.
Proof.
  intros (pre & c & post & -> & -> & Hpre & Hlen).
  exists pre, c, (post ++ c2). by rewrite <- app_assoc.
Qed.

Section FailFastFacts.

Context {error World : Type}.

(** A visitor [V], the same visitor [V'] keeping a record, and the calls
    [leavesOf] it records at the strings of a tree. *)
Variable V : @visitorFunc error World.
Variable V' : @visitorFunc error (World * list (Call * option error)).
Variable leavesOf : Value → string → list Call.
Hypothesis leavesOf_object :
  ∀ m path, leavesOf (VObject m) path = leavesOfMap leavesOf m path.
Hypothesis leavesOf_array :
  ∀ l path, leavesOf (VArray l) path = leavesOfSlice leavesOf l 0 path.
Hypothesis leavesOf_scalar :
  ∀ v path, isScalar v = true → leavesOf v path = [].
Hypothesis visit_traced :
  ∀ path s w log r err w',
    V path s w = ((r, err), w') →
    ∃ new, V' path s (w, log) = ((r, err), (w', log ++ new))
           ∧ failFast (leavesOf (VString s) path) err new.

Abbreviation tracedAs data :=
  (∀ path w log res err w',
    traverseWithPath data path V w = ((res, err), w') →
    ∃ new, traverseWithPath data path V' (w, log) = ((res, err), (w', log ++ new))
           ∧ failFast (leavesOf data path) err new).

Lemma traverseMap_traced m :
  Forall (λ kv, tracedAs kv.2) m →
  ∀ path w log m' err w',
    traverseMap traverseWithPath m path V w = ((m', err), w') →
    ∃ new,
      traverseMap traverseWithPath m path V' (w, log) = ((m', err), (w', log ++ new))
      ∧ failFast (leavesOfMap leavesOf m path) err new.
Proof.
  induction 1 as [|[k v] m Hv _ IH]; intros path w log m' err w'; simpl.
  - intros [= <- <- <-]. exists []. rewrite app_nil_r. split; [done|]. apply failFast_nil.
  - simpl in Hv. destruct (traverseWithPath v _ V w) as [[v' e1] w1] eqn:H1.
    destruct (Hv _ _ log _ _ _ H1) as (n1 & -> & Hn1). destruct e1 as [e|].
    + intros [= <- <- <-]. exists n1. split; [done|]. by apply failFast_app_err.
    + destruct (traverseMap traverseWithPath m path V w1) as [[m'' e2] w2] eqn:H2.
      destruct (IH _ _ (log ++ n1) _ _ _ H2) as (n2 & -> & Hn2).
      intros [= <- <- <-]. exists (n1 ++ n2). rewrite app_assoc.
      split; [done|]. by apply failFast_app_ok.
Qed.

Lemma traverseSliceFrom_traced l :
  Forall (λ v, tracedAs v) l →
  ∀ k path w log l' err w',
    traverseSliceFrom traverseWithPath l k path V w = ((l', err), w') →
    ∃ new,
      traverseSliceFrom traverseWithPath l k path V' (w, log)
      = ((l', err), (w', log ++ new))
      ∧ failFast (leavesOfSlice leavesOf l k path) err new.
Proof.
  induction 1 as [|v l Hv _ IH]; intros k path w log l' err w'; simpl.
  - intros [= <- <- <-]. exists []. rewrite app_nil_r. split; [done|]. apply failFast_nil.
  - simpl in Hv. destruct (traverseWithPath v _ V w) as [[v' e1] w1] eqn:H1.
    destruct (Hv _ _ log _ _ _ H1) as (n1 & -> & Hn1). destruct e1 as [e|].
    + intros [= <- <- <-]. exists n1. split; [done|]. by apply failFast_app_err.
    + destruct (traverseSliceFrom traverseWithPath l (S k) path V w1)
        as [[l'' e2] w2] eqn:H2.
      destruct (IH _ _ _ (log ++ n1) _ _ _ H2) as (n2 & -> & Hn2).
      intros [= <- <- <-]. exists (n1 ++ n2). rewrite app_assoc.
      split; [done|]. by apply failFast_app_ok.
Qed.

Lemma traverseWithPath_traced data : tracedAs data.
Proof.
  induction data as [s|f|b| |l IH|m IH] using Value_nested_ind;
    intros path w log res err w'.
  - simpl. destruct (V path s w) as [[r e] w1] eqn:Hv.
    destruct (visit_traced _ _ _ log _ _ _ Hv) as (new & -> & Hnew).
    intros [= <- <- <-]. eauto.
  - intros [= <- <- <-]. exists []. rewrite app_nil_r, leavesOf_scalar by done.
    split; [done|]. apply failFast_nil.
  - intros [= <- <- <-]. exists []. rewrite app_nil_r, leavesOf_scalar by done.
    split; [done|]. apply failFast_nil.
  - intros [= <- <- <-]. exists []. rewrite app_nil_r, leavesOf_scalar by done.
    split; [done|]. apply failFast_nil.
  - rewrite !traverseWithPath_array, leavesOf_array.
    destruct (traverseSliceFrom traverseWithPath l 0 path V w) as [[l' e] w1] eqn:Hl.
    destruct (traverseSliceFrom_traced l IH _ _ _ log _ _ _ Hl) as (new & -> & Hnew).
    intros [= <- <- <-]. eauto.
  - rewrite !traverseWithPath_object, leavesOf_object.
    destruct (traverseMap traverseWithPath m path V w) as [[m' e] w1] eqn:Hm.
    destruct (traverseMap_traced m IH _ _ log _ _ _ Hm) as (new & -> & Hnew).
    intros [= <- <- <-]. eauto.
Qed.

End FailFastFacts.

(** The record of a runner: the strings for which there is a command. *)
Lemma traverseWithPath_traced_runner {error World}
    (commandLineFilterRunner : @FilterRunner error World) filters filterRunner
    data path w log res err w' :
  traverseWithPath data path
    (filterVisitor commandLineFilterRunner filters filterRunner) w
  = ((res, err), w') →
  ∃ new,
    traverseWithPath data path
      (filterVisitor (traced commandLineFilterRunner) filters (traced <$> filterRunner))
      (w, log)
    = ((res, err), (w', log ++ new))
    ∧ failFast (matchedLeaves filters data path) err new.
Proof.
  apply (traverseWithPath_traced _ _ (matchedLeaves filters)); try done.
  - by intros [].
  - clear. intros path s w log r err w'. unfold filterVisitor, doRunFilter. simpl.
    destruct (getFilterCommand path filters) as [c [|]].
    + intros Hrun. exists [((c, s), err)]. split; [|apply failFast_one].
      destruct filterRunner as [run|]; simpl; by rewrite Hrun.
    + intros [= <- <- <-]. exists []. rewrite app_nil_r. split; [done|].
      apply failFast_nil.
Qed.

(** The record of a visitor: the strings of the tree. *)
Lemma traverseWithPath_traced_visitor {error World}
    (visit : @visitorFunc error World) data path w log res err w' :
  traverseWithPath data path visit w = ((res, err), w') →
  ∃ new,
    traverseWithPath data path (tracedVisit visit) (w, log)
    = ((res, err), (w', log ++ new))
    ∧ failFast (visitedLeaves data path) err new.
Proof.
  apply (traverseWithPath_traced _ _ visitedLeaves); try done.
  - by intros [].
  - clear. intros path s w log r err w' Hrun. exists [((path, s), err)].
    split; [|apply failFast_one]. unfold tracedVisit. by rewrite Hrun.
Qed.

(** ** The shape of the traversed tree *)

Lemma sameShape_refl v : sameShape v v.
Proof.
  induction v as [s|f|b| |l IH|m IH] using Value_nested_ind; simpl; try done.
  - induction IH; simpl; auto.
  - induction IH as [|[k x] m Hx _ IHm]; simpl; auto.
Qed.

Lemma sameElems_refl l : sameElems sameShape l l.
Proof. induction l; simpl; auto using sameShape_refl. Qed.

Lemma sameEntries_refl m : sameEntries sameShape m m.
Proof. induction m as [|[k x] m IH]; simpl; auto using sameShape_refl. Qed.

Lemma traverseWithPath_sameShape {error World} data :
  ∀ path (visit : @visitorFunc error World) w,
    sameShape data (traverseWithPath data path visit w).1.1.
Proof.
  induction data as [s|f|b| |l IH|m IH] using Value_nested_ind;
    intros path visit w; try done.
  - simpl. by destruct (visit path s w) as [[r e] w1].
  - rewrite traverseWithPath_array.
    assert (∀ k w, sameElems sameShape l
              (traverseSliceFrom traverseWithPath l k path visit w).1.1) as Hloop.
    { clear w. induction IH as [|v l Hv _ IHl]; intros k w; simpl; [done|].
      specialize (Hv (path +:+ "[" +:+ fmt.decimal k +:+ "]") visit w).
      destruct (traverseWithPath v _ visit w) as [[v' [e|]] w1]; simpl in *.
      - split; [done | apply sameElems_refl].
      - specialize (IHl (S k) w1).
        by destruct (traverseSliceFrom traverseWithPath l (S k) path visit w1)
          as [[l' e'] w2]. }
    specialize (Hloop 0%nat w).
    by destruct (traverseSliceFrom traverseWithPath l 0 path visit w) as [[l' e] w1].
  - rewrite traverseWithPath_object.
    assert (∀ w, sameEntries sameShape m
              (traverseMap traverseWithPath m path visit w).1.1) as Hloop.
    { clear w. induction IH as [|[k v] m Hv _ IHm]; intros w; simpl; [done|].
      simpl in Hv. specialize (Hv (path +:+ "['" +:+ k +:+ "']") visit w).
      destruct (traverseWithPath v _ visit w) as [[v' [e|]] w1]; simpl in *.
      - split; [done|]. split; [done | apply sameEntries_refl].
      - specialize (IHm w1).
        by destruct (traverseMap traverseWithPath m path visit w1) as [[m' e'] w2]. }
    specialize (Hloop w).
    by destruct (traverseMap traverseWithPath m path visit w) as [[m' e] w1].
Qed.

(** ** What the visitor of [doFilter] does at a string *)

Section VisitorFacts.

Context {error World : Type}.
Variable commandLineFilterRunner : @FilterRunner error World.

(** The runner in use: the one given, or the command line. *)
Abbreviation runnerOf filterRunner :=
  (default commandLineFilterRunner filterRunner).

Lemma doRunFilter_matched path value filters filterRunner command w :
  getFilterCommand path filters = (command, true) →
  doRunFilter commandLineFilterRunner path value filters filterRunner w
  = runnerOf filterRunner command value w.
Proof. unfold doRunFilter. intros ->. by destruct filterRunner. Qed.

Lemma doRunFilter_unmatched path value filters filterRunner w :
  (getFilterCommand path filters).2 = false →
  doRunFilter commandLineFilterRunner path value filters filterRunner w
  = ((value, None), w).
Proof.
  unfold doRunFilter. destruct (getFilterCommand path filters) as [c [|]]; done.
Qed.

(** Without an error, a string for which there is a command is replaced
    by what a call of the runner with that command and that string
    returned. *)
Lemma leaf_filtered data filters filterRunner w result w' segs s command :
  traverse data (filterVisitor commandLineFilterRunner filters filterRunner) w
  = ((result, None), w') →
  valueAt segs data = Some (VString s) →
  getFilterCommand (pathOf segs) filters = (command, true) →
  ∃ w0 r w1,
    runnerOf filterRunner command s w0 = ((r, None), w1)
    ∧ valueAt segs result = Some (VString r).
Proof.
  intros Hrun Hat Hcmd.
  destruct (subtree_traversed_ok _ _ _ _ _ _ _ _ Hrun Hat) as (w0 & w1 & v' & Hv & Hres).
  simpl in Hv. unfold filterVisitor at 1 in Hv.
  fold (pathOf segs) in Hv. rewrite (doRunFilter_matched _ _ _ _ _ _ Hcmd) in Hv.
  destruct (runnerOf filterRunner command s w0) as [[r e] w2] eqn:Hr.
  injection Hv as <- -> <-. eauto.
Qed.

(** A string for which there is no command is the same string after the
    traversal, whether the traversal ended with an error or not. *)
Lemma leaf_unmatched data filters filterRunner w segs s :
  valueAt segs data = Some (VString s) →
  (getFilterCommand (pathOf segs) filters).2 = false →
  valueAt segs
    (traverse data (filterVisitor commandLineFilterRunner filters filterRunner) w).1.1
  = Some (VString s).
Proof.
  intros Hat Hno.
  destruct (subtree_traversed segs data ""
              (filterVisitor commandLineFilterRunner filters filterRunner) w _ Hat)
    as (v' & Hv' & [->|[w0 ->]]); [done|].
  unfold traverse. rewrite Hv'. simpl. unfold filterVisitor.
  fold (pathOf segs). by rewrite doRunFilter_unmatched.
Qed.

Lemma scalar_unchanged data (visit : @visitorFunc error World) w segs v :
  valueAt segs data = Some v → isScalar v = true →
  valueAt segs (traverse data visit w).1.1 = Some v.
Proof.
  intros Hat Hv.
  destruct (subtree_traversed segs data "" visit w _ Hat)
    as (v' & Hv' & [->|[w0 ->]]); [done|].
  unfold traverse. rewrite Hv'. by rewrite traverseWithPath_scalar.
Qed.

End VisitorFacts.

(** ** Fields of a path *)

Lemma fieldsFrom_nonempty f s cur :
  cur ≠ "" → strings.fieldsFrom f s cur ≠ [].
Proof.
  revert cur. induction s as [|c s IH]; intros cur Hcur; simpl.
  - by destruct cur.
  - destruct (f c).
    + by destruct cur.
    + apply IH. by destruct cur.
Qed.

Lemma FieldsFunc_quoted_nonempty k :
  strings.FieldsFunc ("'" +:+ k +:+ "'") isBracket ≠ [].
Proof. unfold strings.FieldsFunc. simpl. by apply fieldsFrom_nonempty. Qed.

Lemma FieldsFunc_pathOf_snoc_key segs k :
  strings.FieldsFunc (pathOf (segs ++ [Key k])) isBracket
  = strings.FieldsFunc (pathOf segs) isBracket
    ++ strings.FieldsFunc ("'" +:+ k +:+ "'") isBracket.
Proof. rewrite pathOf_snoc. apply FieldsFunc_key. Qed.

Lemma FieldsFunc_pathOf_snoc_index segs i :
  strings.FieldsFunc (pathOf (segs ++ [Index i])) isBracket
  = strings.FieldsFunc (pathOf segs) isBracket ++ [fmt.decimal i].
Proof. rewrite pathOf_snoc. apply FieldsFunc_index. Qed.

(** ** The keys of a path *)

Lemma FieldsFunc_extendPath segs : ∀ path,
  strings.FieldsFunc (extendPath path segs) isBracket
  = strings.FieldsFunc path isBracket ++ concat (segmentKeys <$> segs).
Proof.
  induction segs as [|seg segs IH]; intros path.
  - simpl. by rewrite app_nil_r.
  - rewrite extendPath_cons, IH, fmap_cons. cbn [concat]. rewrite app_assoc. f_equal.
    destruct seg as [k|i]; [apply FieldsFunc_key | apply FieldsFunc_index].
Qed.

Lemma FieldsFunc_pathOf segs :
  strings.FieldsFunc (pathOf segs) isBracket = concat (segmentKeys <$> segs).
Proof. unfold pathOf. by rewrite FieldsFunc_extendPath. Qed.


(** A key without brackets is one key of the resolver, in quotes. *)
Lemma segmentKeys_plain k :
  noneSatisfies isBracket k = true → segmentKeys (Key k) = ["'" +:+ k +:+ "'"].
Proof.
  intros Hk. apply FieldsFunc_one; [done|]. simpl. clear -Hk.
  induction k as [|c k IH]; simpl in *; [done|].
  apply andb_true_iff in Hk as [-> Hk]. by rewrite IH.
Qed.

Lemma TrimRight_quote s : strings.TrimRight (s +:+ "'") "'" = strings.TrimRight s "'".
Proof. induction s as [|c s IH]; simpl; [done | by rewrite IH]. Qed.

(** The quotes the traverser puts around a key are trimmed with the quotes
    of the key itself. *)
Lemma Trim_quoted k : strings.Trim ("'" +:+ k +:+ "'") "'" = strings.Trim k "'".
Proof.
  unfold strings.Trim. simpl.
  induction k as [|c k IH]; simpl; [done|].
  destruct (Ascii.eqb c "'"); [done|].
  change (String c (k +:+ "'")) with (String c k +:+ "'"). apply TrimRight_quote.
Qed.


(** * The statements of the specification *)

(** C1.  A [string] node of the specification is the command as soon as the
    resolver reaches it, whatever keys remain: [getFilterCommandRec] on a
    string returns it with [true] for every list of keys; a command found
    for some keys is the command for every longer list of keys; and against
    a specification that is one string, such as the one [loadFilters] makes
    of a filter that is not a [.json] file, every path, the empty one too,
    resolves to that string. *)
Theorem string_node_is_the_command :
  (∀ keys s, getFilterCommandRec keys (VString s) = (VString s, true))
  ∧ (∀ keys rest filters s,
       getFilterCommandRec keys filters = (VString s, true) →
       getFilterCommandRec (keys ++ rest) filters = (VString s, true))
  ∧ (∀ path s, getFilterCommand path (VString s) = (s, true))
  ∧ (∀ (readJsonFromFile : string → Value * option string) filter path,
       strings.HasSuffix filter ".json" = false →
       getFilterCommand path (loadFilters readJsonFromFile filter).1 = (filter, true)).
Proof.
  split; [apply getFilterCommandRec_string|].
  split; [apply getFilterCommandRec_prefix|].
  split; [apply getFilterCommand_string|].
  intros rjf filter path Hsuf. unfold loadFilters. rewrite Hsuf.
  apply getFilterCommand_string.
Qed.

Lemma string_node_is_the_command_witness :
  getFilterCommandRec ["'a'"; "0"; "'b'"] (VObject [("a", VString "upper")])
  = (VString "upper", true)
  ∧ getFilterCommand "['x'][3]" (loadFilters noFile "tr a b").1 = ("tr a b", true).
Proof.
  destruct string_node_is_the_command as (_ & Hprefix & _ & Hload). split.
  - apply (Hprefix ["'a'"] ["0"; "'b'"]). reflexivity.
  - apply Hload. reflexivity.
Defined.

(** C2, as the code has it.  Against a slice of the specification with more
    than one element, the resolver finds a command exactly when the text of
    the next key, its quotes trimmed, is a decimal 32-bit integer [i] within
    the bounds of the slice and the rest of the keys resolve against the
    element at [i]; the key of a data map that reads as such an integer is
    accepted like the position of a data slice.  The key that the traverser
    makes of position [i] of a data slice selects exactly element [i], and
    none when [i] is out of range.  With the specification
    [{"a": [CMD0, CMD1]}] and the data [{"a": ["p","q","r"]}], position 0
    resolves to [CMD0], position 1 to [CMD1], position 2 to nothing, and
    the strings passed to the runner are [p] with [CMD0] and [q] with
    [CMD1]. *)
Theorem positional_slice_of_specification :
  (∀ k rest s v,
     (1 < length s)%nat →
     getFilterCommandRec (k :: rest) (VArray s) = (v, true)
     ↔ ∃ i si,
         strconv.ParseInt_10_32 (strings.Trim k "'") = Some (Z.of_nat i)
         ∧ s !! i = Some si
         ∧ getFilterCommandRec rest si = (v, true))
  ∧ (∀ i rest s,
       (1 < length s)%nat → Z.of_nat (length s) < 2 ^ 31 →
       getFilterCommandRec (fmt.decimal i :: rest) (VArray s)
       = match s !! i with
         | Some si => getFilterCommandRec rest si
         | None => (VNull, false)
         end)
  ∧ (∀ CMD0 CMD1,
       let spec := VObject [("a", VArray [VString CMD0; VString CMD1])] in
       let data := VObject [("a", VArray [VString "p"; VString "q"; VString "r"])] in
       getFilterCommand (pathOf [Key "a"; Index 0]) spec = (CMD0, true)
       ∧ getFilterCommand (pathOf [Key "a"; Index 1]) spec = (CMD1, true)
       ∧ getFilterCommand (pathOf [Key "a"; Index 2]) spec = ("", false)
       ∧ matchedLeaves spec data "" = [(CMD0, "p"); (CMD1, "q")]).
Proof.
  split; [|split].
  - intros k rest s v Hlen.
    rewrite getFilterCommandRec_positional by lia. split.
    + destruct (strconv.ParseInt_10_32 _) as [i|]; [|done].
      destruct (i <? Z.of_nat (length s)) eqn:Hlt; [|done].
      destruct (0 <=? i) eqn:Hle; [|done]. simpl.
      destruct (s !! Z.to_nat i) as [si|] eqn:Hs; [|done].
      intros Hrec. exists (Z.to_nat i), si. apply Z.leb_le in Hle.
      by rewrite Z2Nat.id.
    + intros (i & si & -> & Hs & Hrec). pose proof (lookup_lt_Some _ _ _ Hs).
      rewrite (proj2 (Z.ltb_lt _ _)), (proj2 (Z.leb_le _ _)) by lia.
      simpl. by rewrite Nat2Z.id, Hs.
  - intros i rest s Hlen Hbound. rewrite getFilterCommandRec_index by lia.
    destruct (s !! i) as [si|] eqn:Hs; [|done].
    pose proof (lookup_lt_Some _ _ _ Hs).
    by rewrite (proj2 (Z.ltb_lt _ _)) by lia.
  - intros CMD0 CMD1. repeat split.
Qed.

Lemma positional_slice_of_specification_witness :
  getFilterCommandRec ["'1'"] (VArray [VString "CMD0"; VString "CMD1"])
  = (VString "CMD1", true)
  ∧ getFilterCommandRec [fmt.decimal 5; "'x'"] (VArray [VString "CMD0"; VString "CMD1"])
    = (VNull, false).
Proof.
  destruct positional_slice_of_specification as (Hiff & Hindex & _). split.
  - apply Hiff; [simpl; lia|]. exists 1%nat, (VString "CMD1"). by repeat split.
  - rewrite Hindex; [reflexivity | simpl; lia | simpl; lia].
Defined.

(** C2, as stated, fails: with the specification [{"a": [CMD0, CMD1]}] and
    the data [{"a": {"1": "v"}}], the segment after [a] is the key ["1"] of
    a data map, not a position of a data slice, and yet the resolver finds
    [CMD1] and the traverser passes [v] to the runner with it. *)
Lemma positional_slice_accepts_map_key :
  let spec := VObject [("a", VArray [VString "CMD0"; VString "CMD1"])] in
  let data := VObject [("a", VObject [("1", VString "v")])] in
  wf_value data = true ∧ wf_value spec = true
  ∧ valueAt [Key "a"; Key "1"] data = Some (VString "v")
  ∧ (∀ i, Key "1" ≠ Index i)
  ∧ getFilterCommand (pathOf [Key "a"; Key "1"]) spec = ("CMD1", true)
  ∧ matchedLeaves spec data "" = [("CMD1", "v")]
  ∧ ¬ (∀ seg rest s command,
         (1 < length s)%nat →
         getFilterCommand (pathOf (seg :: rest)) (VArray s) = (command, true) →
         ∃ i, seg = Index i ∧ (i < length s)%nat).
Proof.
  repeat split; try done.
  intros H.
  destruct (H (Key "1") [] [VString "CMD0"; VString "CMD1"] "CMD1")
    as (i & Hi & _); [simpl; lia | reflexivity | done].
Qed.

(** The specification [{"a": [CMD]}]. *)
Lemma broadcast_after_a CMD keys :
  keys ≠ [] →
  getFilterCommandRec ("'a'" :: keys) (VObject [("a", VArray [VString CMD])])
  = (VString CMD, true).
Proof. destruct keys as [|k keys]; [done|]. intros _. by destruct keys. Qed.

Lemma broadcast_index CMD path i :
  strings.FieldsFunc path isBracket = ["'a'"] →
  getFilterCommand (path +:+ "[" +:+ fmt.decimal i +:+ "]")
    (VObject [("a", VArray [VString CMD])]) = (CMD, true).
Proof.
  intros Hpath. unfold getFilterCommand. rewrite FieldsFunc_index, Hpath.
  simpl app. by rewrite broadcast_after_a.
Qed.

Lemma leavesOfSlice_cons (ml : Value → string → list Call) v l k path :
  leavesOfSlice ml (v :: l) k path
  = ml v (path +:+ "[" +:+ fmt.decimal k +:+ "]") ++ leavesOfSlice ml l (S k) path.
Proof. done. Qed.

Lemma leavesOfMap_cons (ml : Value → string → list Call) k v m path :
  leavesOfMap ml ((k, v) :: m) path
  = ml v (path +:+ "['" +:+ k +:+ "']") ++ leavesOfMap ml m path.
Proof. done. Qed.

Lemma matchedLeaves_string filters s path :
  matchedLeaves filters (VString s) path
  = match getFilterCommand path filters with
    | (command, true) => [(command, s)]
    | _ => []
    end.
Proof. done. Qed.

Lemma broadcast_matchedLeaves CMD path xs : ∀ k,
  strings.FieldsFunc path isBracket = ["'a'"] →
  leavesOfSlice (matchedLeaves (VObject [("a", VArray [VString CMD])]))
    (VString <$> xs) k path
  = (λ x, (CMD, x)) <$> xs.
Proof.
  induction xs as [|x xs IH]; intros k Hpath; [done|].
  rewrite fmap_cons, leavesOfSlice_cons, matchedLeaves_string.
  rewrite broadcast_index by done. rewrite IH by done. done.
Qed.

(** C3.  A slice of the specification with exactly one element is a
    broadcast filter: the resolver drops the next key without reading it
    and goes on in the sole element.  With the specification [{"a": [CMD]}]
    every position [i] under [a] resolves to [CMD]; for the data
    [{"a": xs}], with [xs] strings in any number, the strings the traverser
    has a command for are all of [xs], each with [CMD]; and when no call
    fails, each of them is replaced by what the runner returned for it. *)
Theorem single_element_slice_broadcasts :
  (∀ k rest x,
     getFilterCommandRec (k :: rest) (VArray [x]) = getFilterCommandRec rest x)
  ∧ (∀ CMD i,
       getFilterCommand (pathOf [Key "a"; Index i]) (VObject [("a", VArray [VString CMD])])
       = (CMD, true))
  ∧ (∀ CMD xs,
       matchedLeaves (VObject [("a", VArray [VString CMD])])
         (VObject [("a", VArray (VString <$> xs))]) ""
       = (λ x, (CMD, x)) <$> xs)
  ∧ (∀ {error World} (run : @FilterRunner error World) w CMD xs result w',
       traverse (VObject [("a", VArray (VString <$> xs))])
         (filterVisitor run (VObject [("a", VArray [VString CMD])]) (Some run)) w
       = ((result, None), w') →
       ∀ i x, xs !! i = Some x →
         ∃ w0 r w1,
           run CMD x w0 = ((r, None), w1)
           ∧ valueAt [Key "a"; Index i] result = Some (VString r)).
Proof.
  split; [done|]. split; [|split].
  - intros CMD i. by apply broadcast_index.
  - intros CMD xs. cbn [matchedLeaves leavesOfMap].
    rewrite broadcast_matchedLeaves by done. apply app_nil_r.
  - intros error World run w CMD xs result w' Hrun i x Hx.
    eapply (leaf_filtered run _ _ (Some run) _ _ _ [Key "a"; Index i]); [done|..].
    + simpl. by rewrite list_lookup_fmap, Hx.
    + by apply broadcast_index.
Qed.

Lemma single_element_slice_broadcasts_witness :
  ∃ w0 r w1,
    upperRunner "upper" "y" w0 = ((r, None), w1)
    ∧ valueAt [Key "a"; Index 1]
        (VObject [("a", VArray [VString "X"; VString "Y"; VString "Z"])])
      = Some (VString r).
Proof.
  destruct single_element_slice_broadcasts as (_ & _ & _ & Hrun).
  apply (Hrun string nat upperRunner 0%nat "upper" ["x"; "y"; "z"] _ 3%nat);
    reflexivity.
Defined.

(** C9.  The resolver drops the key in front of a one-element slice of the
    specification without asking where it comes from: the key of a data
    map is dropped like the position of a data slice.  With the
    specification [{"a": [CMD]}], every key [k] of a map under [a] resolves
    to [CMD], and the traversal of [{"a": {"k": "v"}}] replaces [v] by
    what the runner returns for [CMD] and [v]. *)
Theorem single_element_slice_consumes_map_key :
  (∀ k rest x,
     getFilterCommandRec (strings.FieldsFunc (pathOf [Key k]) isBracket ++ rest) (VArray [x])
     = getFilterCommandRec
         (tail (strings.FieldsFunc (pathOf [Key k]) isBracket) ++ rest) x)
  ∧ (∀ CMD k,
       getFilterCommand (pathOf [Key "a"; Key k]) (VObject [("a", VArray [VString CMD])])
       = (CMD, true))
  ∧ (∀ {error World} (run : @FilterRunner error World) w CMD,
       traverse (VObject [("a", VObject [("k", VString "v")])])
         (filterVisitor run (VObject [("a", VArray [VString CMD])]) (Some run)) w
       = let '((r, err), w') := run CMD "v" w in
         ((VObject [("a", VObject [("k", VString r)])], err), w')).
Proof.
  split; [|split].
  - intros k rest x. pose proof (FieldsFunc_quoted_nonempty k) as Hne.
    change (pathOf [Key k]) with (pathOf ([] ++ [Key k])).
    rewrite FieldsFunc_pathOf_snoc_key.
    change (strings.FieldsFunc (pathOf []) isBracket) with (@nil string).
    by destruct (strings.FieldsFunc ("'" +:+ k +:+ "'") isBracket).
  - intros CMD k. unfold getFilterCommand.
    change (pathOf [Key "a"; Key k]) with (pathOf ([Key "a"] ++ [Key k])).
    rewrite FieldsFunc_pathOf_snoc_key.
    change (strings.FieldsFunc (pathOf [Key "a"]) isBracket) with ["'a'"].
    simpl app. rewrite broadcast_after_a; [done | apply FieldsFunc_quoted_nonempty].
  - intros error World run w CMD. unfold traverse. simpl.
    unfold filterVisitor at 1, doRunFilter. simpl.
    by destruct (run CMD "v" w) as [[r [e|]] w'].
Qed.

(** C10.  The path is one string, split again at [[] and []]: two paths
    can have the same text, and a key of a data map that has these
    characters in it gives the resolver several keys.  The path of the key
    [']['b] is the path of the key [b] under the empty key; the resolver
    reads it as the two keys [''] and ['b']; with the specification
    [{"": {"b": CMD}}] the traversal of the data [{"']['b": "v"}] replaces
    [v] by what the runner returns for [CMD] and [v]. *)
Theorem path_text_is_not_injective :
  [Key "']['b"] ≠ [Key ""; Key "b"]
  ∧ pathOf [Key "']['b"] = pathOf [Key ""; Key "b"]
  ∧ strings.FieldsFunc (pathOf [Key "']['b"]) isBracket = ["''"; "'b'"]
  ∧ wf_value (VObject [("']['b", VString "v")]) = true
  ∧ (∀ CMD,
       mapLookup "']['b" [("", VObject [("b", VString CMD)])] = None
       ∧ getFilterCommand (pathOf [Key "']['b"]) (VObject [("", VObject [("b", VString CMD)])])
         = (CMD, true))
  ∧ (∀ {error World} (run : @FilterRunner error World) w CMD,
       traverse (VObject [("']['b", VString "v")])
         (filterVisitor run (VObject [("", VObject [("b", VString CMD)])]) (Some run)) w
       = let '((r, err), w') := run CMD "v" w in
         ((VObject [("']['b", VString r)], err), w')).
Proof.
  repeat split; try done.
  intros error World run w CMD. unfold traverse. simpl.
  unfold filterVisitor at 1, doRunFilter. simpl.
  by destruct (run CMD "v" w) as [[r [e|]] w'].
Qed.

(** ** [doFilter] *)

Section DoFilterFacts.

Context {error World : Type}.
Variable commandLineFilterRunner : @FilterRunner error World.
Variable readJsonFromFile : string → Value * option error.

Abbreviation doFilter' := (doFilter commandLineFilterRunner readJsonFromFile).

Lemma doFilter_loaded data filter filterRunner w filters :
  loadFilters readJsonFromFile filter = (filters, None) →
  doFilter' data filter filterRunner w
  = let '((result, err), w') :=
      traverse data (filterVisitor commandLineFilterRunner filters filterRunner) w in
    ((afterTraverse data result, err), w').
Proof. unfold doFilter. by intros ->. Qed.

Lemma doFilter_not_loaded data filter filterRunner w filters e :
  loadFilters readJsonFromFile filter = (filters, Some e) →
  doFilter' data filter filterRunner w = ((data, Some e), w).
Proof. unfold doFilter. by intros ->. Qed.

(** A node below the root of the caller's tree is the node of the tree
    [traverse] returned; the root itself is only so for a map or a
    slice. *)
Lemma valueAt_afterTraverse data result segs :
  valueAt segs (afterTraverse data result) = valueAt segs result
  ∨ (afterTraverse data result = data ∧ ∀ v, valueAt segs data = Some v → v = data).
Proof.
  destruct data; simpl; auto; right; split; try done;
    intros v; destruct segs as [|[k|i] segs]; simpl; congruence.
Qed.

Lemma doFilter_traced data filter filterRunner w log :
  ∃ new,
    doFilter (traced commandLineFilterRunner) readJsonFromFile data filter
      (traced <$> filterRunner) (w, log)
    = ((doFilter' data filter filterRunner w).1,
       ((doFilter' data filter filterRunner w).2, log ++ new))
    ∧ match loadFilters readJsonFromFile filter with
      | (filters, None) =>
          failFast (matchedLeaves filters data "")
            (doFilter' data filter filterRunner w).1.2 new
      | (_, Some _) => new = []
      end.
Proof.
  unfold doFilter. destruct (loadFilters readJsonFromFile filter) as [filters [e|]].
  - exists []. by rewrite app_nil_r.
  - unfold traverse.
    destruct (traverseWithPath data ""
                (λ path value, doRunFilter commandLineFilterRunner path value
                                 filters filterRunner) w)
      as [[res err] w'] eqn:Hrun.
    destruct (traverseWithPath_traced_runner commandLineFilterRunner filters
                filterRunner data "" w log res err w' Hrun) as (new & Hnew & Hff).
    exists new. unfold filterVisitor in Hnew. rewrite Hnew. done.
Qed.

End DoFilterFacts.

Lemma failFast_calls {error} (calls : list Call) (err : option error) new :
  failFast calls err new → ∀ x, x ∈ new → x.1 ∈ calls.
Proof.
  destruct err as [e|]; simpl.
  - intros (pre & c & post & -> & -> & _) x. rewrite elem_of_app, list_elem_of_singleton.
    intros [Hx| ->]; rewrite elem_of_app.
    + left. by apply list_elem_of_fmap_2.
    + right. simpl. by left.
  - intros [<- _] x Hx. by apply list_elem_of_fmap_2.
Qed.

Lemma matchedLeaves_stringLeaves filters data :
  ∀ path c, c ∈ matchedLeaves filters data path → c.2 ∈ stringLeaves data.
Proof.
  induction data as [s|f|b| |l IH|m IH] using Value_nested_ind; intros path c;
    try (by intros ?%elem_of_nil).
  - rewrite matchedLeaves_string. destruct (getFilterCommand path filters) as [cmd [|]].
    + rewrite list_elem_of_singleton. intros ->. simpl. by left.
    + by intros ?%elem_of_nil.
  - cbn [matchedLeaves stringLeaves]. generalize 0%nat.
    induction IH as [|v l Hv _ IHl]; intros k.
    + by intros ?%elem_of_nil.
    + rewrite leavesOfSlice_cons. simpl flat_map.
      rewrite !elem_of_app. intros [Hc|Hc]; [left; eauto | right; eauto].
  - cbn [matchedLeaves stringLeaves].
    induction IH as [|[k v] m Hv _ IHm].
    + by intros ?%elem_of_nil.
    + rewrite leavesOfMap_cons. simpl flat_map.
      rewrite !elem_of_app. intros [Hc|Hc]; [left; eauto | right; eauto].
Qed.

(** Under a map or a slice, [doFilter] leaves in the caller's tree what
    [traverse] computed: without an error every string for which there is
    a command is replaced by what the runner returned for it, and the tree
    keeps its shape. *)
Lemma doFilter_replaces_below_the_root {error World}
    (commandLineFilterRunner : @FilterRunner error World) readJsonFromFile
    data filter filterRunner w filters result w' segs s command :
  loadFilters readJsonFromFile filter = (filters, None) →
  doFilter commandLineFilterRunner readJsonFromFile data filter filterRunner w
  = ((result, None), w') →
  valueAt segs data = Some (VString s) → segs ≠ [] →
  getFilterCommand (pathOf segs) filters = (command, true) →
  sameShape data result
  ∧ ∃ w0 r w1,
      default commandLineFilterRunner filterRunner command s w0 = ((r, None), w1)
      ∧ valueAt segs result = Some (VString r).
Proof.
  intros Hload Hrun Hat Hsegs Hcmd. rewrite (doFilter_loaded _ _ _ _ _ _ _ Hload) in Hrun.
  destruct (traverse data _ w) as [[res err] w1] eqn:Htr. injection Hrun as <- -> <-.
  assert (afterTraverse data res = res) as ->.
  { destruct data; try done; by destruct segs as [|[k|i] segs]. }
  split.
  - pose proof (traverseWithPath_sameShape data ""
                  (filterVisitor commandLineFilterRunner filters filterRunner) w) as Hs.
    unfold traverse in Htr. by rewrite Htr in Hs.
  - by eapply leaf_filtered.
Qed.

(** C4 at the root.  The data is the JSON document that is the one string
    [hello], the filter is the command [upper], and the runner turns
    [hello] into [HELLO] without an error.  The resolver finds the command
    for the empty path, [traverse] returns [HELLO], but [doFilter] drops
    what [traverse] returns, so the value handed back to the caller is
    still [hello], in the model on trees and in the model on the heap.  The
    same string inside a slice is replaced. *)
Lemma root_string_is_not_replaced :
  let jsonText := String (ascii_of_nat 34) ("hello" +:+ String (ascii_of_nat 34) "") in
  let readJsonFromText := λ _ : string, (VString "hello", @None string) in
  getFilterCommand "" (loadFilters noFile "upper").1 = ("upper", true)
  ∧ upperRunner "upper" "hello" 0%nat = (("HELLO", None), 1%nat)
  ∧ traverse (VString "hello")
      (filterVisitor upperRunner (VString "upper") (Some upperRunner)) 0%nat
    = ((VString "HELLO", None), 1%nat)
  ∧ doFilter upperRunner noFile (VString "hello") "upper" (Some upperRunner) 0%nat
    = ((VString "hello", None), 1%nat)
  ∧ FilterJsonFromTextWithFilterRunner upperRunner noFile readJsonFromText jsonText
      "upper" (Some upperRunner) 0%nat
    = ((VString "hello", None), 1%nat)
  ∧ InPlace.FilterJsonFromTextWithFilterRunner upperRunner noFile readJsonFromText 1
      jsonText "upper" (Some upperRunner) ∅ 0%nat 0%nat
    = Some ((InPlace.IString "hello", None), (∅, 0%nat), 1%nat)
  ∧ doFilter upperRunner noFile (VArray [VString "hello"]) "upper" (Some upperRunner) 0%nat
    = ((VArray [VString "HELLO"], None), 1%nat).
Proof. repeat split. Qed.

(** C5.  [doFilter] is fail-fast.  Run with a runner that records its
    calls, it returns what it returns with the runner itself, and the
    record is fail-fast for the strings the traverser has a command for,
    taken in the order of the traversal: when [doFilter] returns an error
    [e], the calls made are those strings up to the first one whose call
    failed, that call is the last one made and [e] is the error it
    returned, so the number of calls is the position of the first failure;
    without an error every such string was passed to the runner once.
    When the filters cannot be loaded no call is made.  The same holds of
    the strings the traverser visits, whatever the visitor: they are the
    strings of the data up to the first one at which the visitor returned
    an error, and that error is the error of the traversal. *)
Theorem doFilter_is_fail_fast {error World}
    (commandLineFilterRunner : @FilterRunner error World)
    (readJsonFromFile : string → Value * option error)
    (data : Value) (filter : string) (filterRunner : option FilterRunner) (w : World) :
  let r := doFilter commandLineFilterRunner readJsonFromFile data filter filterRunner w in
  (∃ record,
     doFilter (traced commandLineFilterRunner) readJsonFromFile data filter
       (traced <$> filterRunner) (w, [])
     = (r.1, (r.2, record))
     ∧ match loadFilters readJsonFromFile filter with
       | (filters, None) => failFast (matchedLeaves filters data "") r.1.2 record
       | (_, Some e) => record = [] ∧ r = ((data, Some e), w)
       end)
  ∧ (∀ visit : @visitorFunc error World,
       let t := traverse data visit w in
       ∃ visited,
         traverse data (tracedVisit visit) (w, []) = (t.1, (t.2, visited))
         ∧ failFast (visitedLeaves data "") t.1.2 visited).
Proof.
  intros r. split.
  - destruct (doFilter_traced commandLineFilterRunner readJsonFromFile
                data filter filterRunner w []) as (new & Hrun & Hff).
    exists new. split; [done|].
    destruct (loadFilters readJsonFromFile filter) as [filters [e|]] eqn:Hload; [|done].
    split; [done|]. subst r. by erewrite doFilter_not_loaded.
  - intros visit t. subst t. unfold traverse.
    destruct (traverseWithPath data "" visit w) as [[res err] w'] eqn:Hrun.
    destruct (traverseWithPath_traced_visitor visit data "" w [] res err w' Hrun)
      as (new & Hnew & Hff).
    exists new. by rewrite Hnew.
Qed.

(** Three strings have a command, the call for the second fails: two calls
    are made, and the third string is what it was. *)
Example fail_fast_second_of_three :
  let spec := VObject [("a", VArray [VString "upper"; VString "lower"; VString "upper"])] in
  let data := VObject [("a", VArray [VString "x"; VString "y"; VString "z"])] in
  matchedLeaves spec data "" = [("upper", "x"); ("lower", "y"); ("upper", "z")]
  ∧ traverse data (filterVisitor (traced upperRunner) spec (Some (traced upperRunner)))
      (0%nat, [])
    = ((VObject [("a", VArray [VString "X"; VString ""; VString "z"])],
        Some "Unexpected command :: lower"),
       (2%nat, [(("upper", "x"), None);
                (("lower", "y"), Some "Unexpected command :: lower")])).
Proof. by split. Qed.




(** C7.  Numbers, booleans and nulls are not touched: [traverseWithPath]
    returns such a node as it is, with a nil error and without calling the
    visitor; a number, boolean or null at any path of the data is at the
    same path of the tree [doFilter] hands back, with or without an error;
    and every value a recording runner was called with is one of the
    strings of the data. *)
Theorem scalars_are_never_filtered :
  (∀ {error World} v path (visit : @visitorFunc error World) w,
     isScalar v = true → traverseWithPath v path visit w = ((v, None), w))
  ∧ (∀ {error World} (commandLineFilterRunner : @FilterRunner error World)
       readJsonFromFile data filter filterRunner w segs v,
       valueAt segs data = Some v → isScalar v = true →
       valueAt segs
         (doFilter commandLineFilterRunner readJsonFromFile data filter filterRunner w).1.1
       = Some v)
  ∧ (∀ {error World} (commandLineFilterRunner : @FilterRunner error World)
       readJsonFromFile data filter filterRunner w call,
       call ∈ (doFilter (traced commandLineFilterRunner) readJsonFromFile data filter
                 (traced <$> filterRunner) (w, [])).2.2 →
       call.1.2 ∈ stringLeaves data).
Proof.
  split; [|split].
  - intros error World v path visit w. apply traverseWithPath_scalar.
  - intros error World clr rjf data filter fr w segs v Hat Hv.
    unfold doFilter. destruct (loadFilters rjf filter) as [filters [e|]]; [done|].
    pose proof (scalar_unchanged data
                  (λ path value, doRunFilter clr path value filters fr) w segs v Hat Hv)
      as Hs.
    destruct (traverse data _ w) as [[res err] w1]. simpl in *.
    destruct (valueAt_afterTraverse data res segs) as [-> | [-> Hroot]]; [done|].
    by rewrite Hat.
  - intros error World clr rjf data filter fr w call.
    destruct (doFilter_traced clr rjf data filter fr w []) as (new & -> & Hff).
    simpl. intros Hcall.
    destruct (loadFilters rjf filter) as [filters [e|]].
    + subst new. by apply elem_of_nil in Hcall.
    + eapply matchedLeaves_stringLeaves, failFast_calls; eauto.
Qed.

Lemma scalars_are_never_filtered_witness :
  valueAt [Key "size"]
    (doFilter upperRunner noFile
       (VObject [("a", VString "x"); ("size", VNumber (Float64 27))])
       "upper" (Some upperRunner) 0%nat).1.1
  = Some (VNumber (Float64 27))
  ∧ traverseWithPath VNull "['a']" (filterVisitor upperRunner (VString "upper") None) 0%nat
    = ((VNull, None), 0%nat)
  ∧ "x" ∈ stringLeaves (VObject [("a", VString "x"); ("size", VNumber (Float64 27))]).
Proof.
  destruct scalars_are_never_filtered as (Hnode & Hat & Hcall). split; [|split].
  - apply Hat; reflexivity.
  - apply Hnode. reflexivity.
  - apply (Hcall string nat upperRunner noFile
             (VObject [("a", VString "x"); ("size", VNumber (Float64 27))])
             "upper" (Some upperRunner) 0%nat (("upper", "x"), None)).
    vm_compute. by left.
Defined.

(** ** The heap: decoded trees *)

Abbreviation cellsOf l := (foldr (λ (x : Value) (n : nat), (InPlace.cells x + n)%nat) 0%nat l).
Abbreviation cellsOfEntries m :=
  (foldr (λ (kx : string * Value) (n : nat), (InPlace.cells kx.2 + n)%nat) 0%nat m).

Lemma sliceAt_Some h l s : InPlace.sliceAt h l = Some s ↔ h !! l = Some (InPlace.CSlice s).
Proof.
  unfold InPlace.sliceAt. destruct (h !! l) as [[s'|m']|]; split; congruence.
Qed.

Lemma mapAt_Some h l m : InPlace.mapAt h l = Some m ↔ h !! l = Some (InPlace.CMap m).
Proof.
  unfold InPlace.mapAt. destruct (h !! l) as [[s'|m']|]; split; congruence.
Qed.

Lemma sliceAt_frame (h h' : gmap nat InPlace.cell) l :
  h' !! l = h !! l → InPlace.sliceAt h' l = InPlace.sliceAt h l.
Proof. unfold InPlace.sliceAt. by intros ->. Qed.

Lemma mapAt_frame (h h' : gmap nat InPlace.cell) l :
  h' !! l = h !! l → InPlace.mapAt h' l = InPlace.mapAt h l.
Proof. unfold InPlace.mapAt. by intros ->. Qed.

(** A tree in the heap is the same tree when the heap changes elsewhere. *)
Lemma rep_frame (h h' : gmap nat InPlace.cell) t :
  ∀ n v,
    InPlace.rep h t n v →
    (∀ l, (n ≤ l < n + InPlace.cells t)%nat → h' !! l = h !! l) →
    InPlace.rep h' t n v.
Proof.
  induction t as [s|f|b| |l IH|m IH] using Value_nested_ind; intros n v; try done.
  - simpl. intros [-> (vs & Hs & Hel)] Hfr. split; [done|]. exists vs. split.
    { rewrite (sliceAt_frame h h'); [done | apply Hfr; lia]. }
    assert (∀ x, (S n ≤ x < S n + cellsOf l)%nat → h' !! x = h !! x) as Hfr'.
    { intros x Hx. apply Hfr. lia. }
    clear Hfr Hs. revert vs Hel Hfr'. generalize (S n).
    induction IH as [|t l Ht _ IHl]; intros b [|v vs]; simpl; try done.
    intros [Hv Hvs] Hfr. split.
    + apply Ht; [done|]. intros x Hx. apply Hfr. lia.
    + apply IHl; [done|]. intros x Hx. apply Hfr. lia.
  - simpl. intros [-> (es & Hs & Hel)] Hfr. split; [done|]. exists es. split.
    { rewrite (mapAt_frame h h'); [done | apply Hfr; lia]. }
    assert (∀ x, (S n ≤ x < S n + cellsOfEntries m)%nat → h' !! x = h !! x) as Hfr'.
    { intros x Hx. apply Hfr. lia. }
    clear Hfr Hs. revert es Hel Hfr'. generalize (S n).
    induction IH as [|[k t] m Ht _ IHm]; intros b [|[k' v] es]; simpl; try done.
    intros (-> & Hv & Hes) Hfr. split; [done|]. split.
    + apply Ht; [done|]. intros x Hx. apply Hfr. simpl in *. lia.
    + apply IHm; [done|]. intros x Hx. apply Hfr. simpl in *. lia.
Qed.

Lemma repElems_frame (h h' : gmap nat InPlace.cell) l : ∀ b vs,
  InPlace.repElems (InPlace.rep h) l b vs →
  (∀ x, (b ≤ x < b + cellsOf l)%nat → h' !! x = h !! x) →
  InPlace.repElems (InPlace.rep h') l b vs.
Proof.
  induction l as [|t l IH]; intros b [|v vs]; simpl; try done.
  intros [Hv Hvs] Hfr. split.
  - eapply rep_frame; [done|]. intros x Hx. apply Hfr. lia.
  - apply IH; [done|]. intros x Hx. apply Hfr. lia.
Qed.

Lemma repEntries_frame (h h' : gmap nat InPlace.cell) m : ∀ b es,
  InPlace.repEntries (InPlace.rep h) m b es →
  (∀ x, (b ≤ x < b + cellsOfEntries m)%nat → h' !! x = h !! x) →
  InPlace.repEntries (InPlace.rep h') m b es.
Proof.
  induction m as [|[k t] m IH]; intros b [|[k' v] es]; simpl; try done.
  intros (-> & Hv & Hes) Hfr. split; [done|]. split.
  - eapply rep_frame; [done|]. intros x Hx. apply Hfr. lia.
  - apply IH; [done|]. intros x Hx. apply Hfr. lia.
Qed.

(** The decoder puts the tree at the free location and touches nothing
    else. *)
Lemma alloc_rep t : ∀ n (h : gmap nat InPlace.cell),
  InPlace.rep (InPlace.alloc t n h).2 t n (InPlace.alloc t n h).1
  ∧ (∀ l, ¬ (n ≤ l < n + InPlace.cells t)%nat → (InPlace.alloc t n h).2 !! l = h !! l).
Proof.
  induction t as [s|f|b| |l IH|m IH] using Value_nested_ind; intros n h; try done.
  - assert (∀ b h,
      InPlace.repElems (InPlace.rep (InPlace.allocElems InPlace.alloc l b h).2) l b
        (InPlace.allocElems InPlace.alloc l b h).1
      ∧ (∀ x, ¬ (b ≤ x < b + cellsOf l)%nat →
           (InPlace.allocElems InPlace.alloc l b h).2 !! x = h !! x)) as Hloop.
    { clear n h. induction IH as [|t l Ht _ IHl]; intros b h; simpl; [done|].
      destruct (Ht b h) as [Hrep Hfr].
      destruct (InPlace.alloc t b h) as [v h1]. simpl in *.
      destruct (IHl (b + InPlace.cells t)%nat h1) as [Hreps Hfrs].
      destruct (InPlace.allocElems InPlace.alloc l _ h1) as [vs h2]. simpl in *.
      split; [split; [|done]|].
      - eapply rep_frame; [done|]. intros x Hx. apply Hfrs. lia.
      - intros x Hx. rewrite Hfrs by lia. apply Hfr. lia. }
    simpl. destruct (Hloop (S n) h) as [Hreps Hfrs].
    destruct (InPlace.allocElems InPlace.alloc l (S n) h) as [vs h1]. simpl in *.
    split; [split; [done|]|].
    + exists vs. split; [apply sliceAt_Some, lookup_insert_eq|].
      eapply repElems_frame; [done|]. intros x Hx. apply lookup_insert_ne. lia.
    + intros x Hx. rewrite lookup_insert_ne by lia. apply Hfrs. lia.
  - assert (∀ b h,
      InPlace.repEntries (InPlace.rep (InPlace.allocEntries InPlace.alloc m b h).2) m b
        (InPlace.allocEntries InPlace.alloc m b h).1
      ∧ (∀ x, ¬ (b ≤ x < b + cellsOfEntries m)%nat →
           (InPlace.allocEntries InPlace.alloc m b h).2 !! x = h !! x)) as Hloop.
    { clear n h. induction IH as [|[k t] m Ht _ IHm]; intros b h; simpl; [done|].
      simpl in Ht. destruct (Ht b h) as [Hrep Hfr].
      destruct (InPlace.alloc t b h) as [v h1]. simpl in *.
      destruct (IHm (b + InPlace.cells t)%nat h1) as [Hreps Hfrs].
      destruct (InPlace.allocEntries InPlace.alloc m _ h1) as [es h2]. simpl in *.
      split; [split; [done|split; [|done]]|].
      - eapply rep_frame; [done|]. intros x Hx. apply Hfrs. lia.
      - intros x Hx. rewrite Hfrs by lia. apply Hfr. lia. }
    simpl. destruct (Hloop (S n) h) as [Hreps Hfrs].
    destruct (InPlace.allocEntries InPlace.alloc m (S n) h) as [es h1]. simpl in *.
    split; [split; [done|]|].
    + exists es. split; [apply mapAt_Some, lookup_insert_eq|].
      eapply repEntries_frame; [done|]. intros x Hx. apply lookup_insert_ne. lia.
    + intros x Hx. rewrite lookup_insert_ne by lia. apply Hfrs. lia.
Qed.

Lemma repElems_length (R : Value → nat → InPlace.val → Prop) l : ∀ b vs,
  InPlace.repElems R l b vs → length l = length vs.
Proof.
  induction l as [|t l IH]; intros b [|v vs]; simpl; try done.
  intros [_ H]. f_equal. eauto.
Qed.

Lemma repElems_lookup (R : Value → nat → InPlace.val → Prop) l : ∀ b vs i t,
  InPlace.repElems R l b vs → l !! i = Some t →
  ∃ v, vs !! i = Some v ∧ R t (b + cellsOf (take i l))%nat v.
Proof.
  induction l as [|t0 l IH]; intros b [|v vs] i t; simpl; try done.
  intros [Hv Hvs]. destruct i as [|i]; simpl.
  - intros [= <-]. exists v. by rewrite Nat.add_0_r.
  - intros Hi. destruct (IH _ _ _ _ Hvs Hi) as (v' & Hv' & HR).
    exists v'. split; [done|]. by rewrite Nat.add_assoc.
Qed.

Lemma repEntries_keys (R : Value → nat → InPlace.val → Prop) m : ∀ b es,
  InPlace.repEntries R m b es → es.*1 = m.*1.
Proof.
  induction m as [|[k t] m IH]; intros b [|[k' v] es]; simpl; try done.
  intros (-> & _ & H). f_equal. eauto.
Qed.

Lemma repEntries_mapLookup (R : Value → nat → InPlace.val → Prop) m : ∀ b es k,
  InPlace.repEntries R m b es →
  match mapLookup k m with
  | Some t => ∃ v b', mapLookup k es = Some v ∧ R t b' v
  | None => mapLookup k es = None
  end.
Proof.
  induction m as [|[k0 t] m IH]; intros b [|[k' v] es] k; simpl; try done.
  intros (<- & Hv & Hes). destruct (String.eqb k0 k); [eauto|].
  by eapply IH.
Qed.

(** The resolver reading the filters from the heap finds what the resolver
    finds in the tree of the filters. *)
Lemma getFilterCommandRec_refines (h : gmap nat InPlace.cell) keys : ∀ tf n vf,
  InPlace.rep h tf n vf →
  ∃ n',
    InPlace.rep h (getFilterCommandRec keys tf).1 n'
      (InPlace.getFilterCommandRec h keys vf).1
    ∧ (InPlace.getFilterCommandRec h keys vf).2 = (getFilterCommandRec keys tf).2.
Proof.
  induction keys as [|k keys IH]; intros tf n vf Hrep; [by exists n|].
  destruct tf as [s|f|b| |l|m]; simpl in Hrep.
  - subst vf. by exists n.
  - subst vf. by exists n.
  - subst vf. by exists n.
  - subst vf. by exists n.
  - destruct Hrep as [-> (vs & Hs & Hel)]. cbn [getFilterCommandRec InPlace.getFilterCommandRec].
    rewrite Hs. pose proof (repElems_length _ _ _ _ Hel) as Hlen.
    destruct l as [|t1 [|t2 l]], vs as [|v1 [|v2 vs]]; try done.
    + exists n. destruct (strconv.ParseInt_10_32 _) as [i|]; [|done].
      by destruct (_ && _).
    + destruct Hel as [Hv _]. eauto.
    + rewrite <- Hlen.
      destruct (strconv.ParseInt_10_32 _) as [i|]; [|by exists n].
      destruct (_ && _); [|by exists n].
      destruct ((t1 :: t2 :: l) !! Z.to_nat i) as [t|] eqn:Ht.
      * destruct (repElems_lookup _ _ _ _ _ _ Hel Ht) as (v & -> & Hv). eauto.
      * apply lookup_ge_None in Ht. rewrite Hlen in Ht.
        apply lookup_ge_None in Ht. rewrite Ht. by exists n.
  - destruct Hrep as [-> (es & Hs & Hel)]. cbn [getFilterCommandRec InPlace.getFilterCommandRec].
    rewrite Hs. cbn [mbind option_bind].
    pose proof (repEntries_mapLookup _ _ _ _ (strings.Trim k "'") Hel) as Hk.
    destruct (mapLookup _ m) as [t|].
    + destruct Hk as (v & b' & -> & Hv). eauto.
    + rewrite Hk. by exists n.
Qed.

Lemma getFilterCommand_refines (h : gmap nat InPlace.cell) path tf n vf :
  InPlace.rep h tf n vf →
  InPlace.getFilterCommand h path vf = getFilterCommand path tf.
Proof.
  intros Hrep. unfold InPlace.getFilterCommand, getFilterCommand.
  destruct (getFilterCommandRec_refines h (strings.FieldsFunc path isBracket) _ _ _ Hrep)
    as (n' & Hr & Hb).
  destruct (getFilterCommandRec _ tf) as [t' b].
  destruct (InPlace.getFilterCommandRec h _ vf) as [v' b']. simpl in *. subst b'.
  destruct t' as [s|f|x| |l|m]; simpl in Hr;
    [subst v'..|destruct Hr as [-> _]|destruct Hr as [-> _]]; by destruct b.
Qed.

Lemma mapLookup_middle {A} k (v : A) done rest :
  k ∉ done.*1 → mapLookup k (done ++ (k, v) :: rest) = Some v.
Proof.
  induction done as [|[k0 v0] done IH]; simpl.
  - intros _. by rewrite String.eqb_refl.
  - rewrite not_elem_of_cons. intros [Hk Hd].
    destruct (String.eqb k0 k) eqn:E; [|auto].
    apply String.eqb_eq in E. congruence.
Qed.

Lemma mapAssign_middle k v v' done rest :
  k ∉ done.*1 →
  InPlace.mapAssign k v' (done ++ (k, v) :: rest) = done ++ (k, v') :: rest.
Proof.
  induction done as [|[k0 v0] done IH]; simpl.
  - intros _. by rewrite String.eqb_refl.
  - rewrite not_elem_of_cons. intros [Hk Hd].
    destruct (String.eqb k0 k) eqn:E; [|by rewrite IH].
    apply String.eqb_eq in E. congruence.
Qed.

Lemma height_elem t l :
  t ∈ l → (height t ≤ foldr (λ x n, Nat.max (height x) n) 0 l)%nat.
Proof.
  induction l as [|x l IH]; [by intros ?%elem_of_nil|].
  rewrite elem_of_cons. simpl. intros [->|Ht]; [lia|]. specialize (IH Ht). lia.
Qed.

Lemma height_entry (kt : string * Value) m :
  kt ∈ m → (height kt.2 ≤ foldr (λ kx n, Nat.max (height kx.2) n) 0 m)%nat.
Proof.
  induction m as [|x m IH]; [by intros ?%elem_of_nil|].
  rewrite elem_of_cons. simpl. intros [->|Ht]; [lia|]. specialize (IH Ht). lia.
Qed.

(** ** The heap: the traverser assigns in place what the traverser on trees
    returns *)

Section InPlaceFacts.

Context {error World : Type}.
Variable visitT : @visitorFunc error World.
Variable visit : @InPlace.visitorFunc error World.

(** The visitor depends on the heap at the locations [keep] only, where the
    heap is as in [h0]. *)
Variable h0 : gmap nat InPlace.cell.
Variable keep : nat → Prop.
Hypothesis visit_visitT :
  ∀ (h : gmap nat InPlace.cell) path s w,
    (∀ x, keep x → h !! x = h0 !! x) → visit path s h w = visitT path s w.

Abbreviation refinedWith fuel t :=
  (∀ n v path (h : gmap nat InPlace.cell) w,
     InPlace.rep h t n v →
     (∀ x, keep x → ¬ (n ≤ x < n + InPlace.cells t)%nat) →
     (∀ x, keep x → h !! x = h0 !! x) →
     ∃ v' (h' : gmap nat InPlace.cell),
       InPlace.traverseWithPath fuel v path visit h w
       = Some ((v', (traverseWithPath t path visitT w).1.2),
               (h', (traverseWithPath t path visitT w).2))
       ∧ InPlace.rep h' (traverseWithPath t path visitT w).1.1 n v'
       ∧ InPlace.cells (traverseWithPath t path visitT w).1.1 = InPlace.cells t
       ∧ (∀ x, ¬ (n ≤ x < n + InPlace.cells t)%nat → h' !! x = h !! x)).

Lemma traverseSliceFrom_refines fuel n todo :
  Forall (λ t, refinedWith fuel t) todo →
  ¬ keep n →
  ∀ done todo_vs b path (h : gmap nat InPlace.cell) w,
    InPlace.sliceAt h n = Some (done ++ todo_vs) →
    InPlace.repElems (InPlace.rep h) todo b todo_vs →
    (n < b)%nat →
    (∀ x, keep x → ¬ (b ≤ x < b + cellsOf todo)%nat) →
    (∀ x, keep x → h !! x = h0 !! x) →
    ∃ todo_vs' (h' : gmap nat InPlace.cell),
      InPlace.traverseSliceFrom (InPlace.traverseWithPath fuel) n
        (length todo) (length done) path visit h w
      = Some ((traverseSliceFrom traverseWithPath todo (length done) path visitT w).1.2,
              (h', (traverseSliceFrom traverseWithPath todo (length done) path visitT w).2))
      ∧ InPlace.sliceAt h' n = Some (done ++ todo_vs')
      ∧ InPlace.repElems (InPlace.rep h')
          (traverseSliceFrom traverseWithPath todo (length done) path visitT w).1.1
          b todo_vs'
      ∧ cellsOf (traverseSliceFrom traverseWithPath todo (length done) path visitT w).1.1
        = cellsOf todo
      ∧ (∀ x, x ≠ n → ¬ (b ≤ x < b + cellsOf todo)%nat → h' !! x = h !! x).
Proof.
  intros Hall Hn. induction Hall as [|t todo Ht _ IH];
    intros done todo_vs b path h w Hs Hrep Hb Hkeep Hstable.
  { destruct todo_vs; [|done]. exists [], h. by repeat split. }
  destruct todo_vs as [|v tvs]; [done|]. destruct Hrep as [Hv Htvs].
  cbn [length InPlace.traverseSliceFrom traverseSliceFrom].
  rewrite Hs. cbn [mbind option_bind]. rewrite list_lookup_middle by done.
  cbn [mbind option_bind].
  destruct (Ht b v (path +:+ "[" +:+ fmt.decimal (length done) +:+ "]") h w Hv)
    as (v' & h1 & Hrun & Hv' & Hcells & Hfr1); [|done|].
  { intros x Hx Hr. apply (Hkeep x Hx). simpl. lia. }
  rewrite Hrun. cbn [mbind option_bind].
  destruct (traverseWithPath t _ visitT w) as [[t1 e1] w1]. cbn [fst snd] in *.
  assert (InPlace.sliceAt h1 n = Some (done ++ v :: tvs)) as Hs1.
  { rewrite <- Hs. apply sliceAt_frame, Hfr1. lia. }
  rewrite Hs1. cbn [mbind option_bind].
  assert (<[length done := v']> (done ++ v :: tvs) = done ++ v' :: tvs) as ->.
  { rewrite insert_app_r_alt by lia. by rewrite Nat.sub_diag. }
  set (h2 := <[n := InPlace.CSlice (done ++ v' :: tvs)]> h1).
  assert (∀ x, x ≠ n → h2 !! x = h1 !! x) as Hfr2.
  { intros x Hx. by apply lookup_insert_ne. }
  assert (InPlace.sliceAt h2 n = Some (done ++ v' :: tvs)) as Hs2.
  { apply sliceAt_Some, lookup_insert_eq. }
  assert (InPlace.rep h2 t1 b v') as Hv2.
  { eapply rep_frame; [done|]. intros x Hx. apply Hfr2. lia. }
  assert (InPlace.repElems (InPlace.rep h2) todo (b + InPlace.cells t1) tvs) as Htvs2.
  { rewrite Hcells. eapply repElems_frame; [done|]. intros x Hx.
    rewrite Hfr2 by lia. apply Hfr1. lia. }
  destruct e1 as [e|].
  - exists (v' :: tvs), h2. cbn [fst snd]. split; [done|]. split; [done|].
    split; [by split|]. split; [simpl; lia|].
    intros x Hx Hr. rewrite Hfr2 by done. apply Hfr1. simpl in Hr. lia.
  - destruct (IH (done ++ [v']) tvs (b + InPlace.cells t1)%nat path h2 w1)
      as (tvs' & h' & Hloop & Hs' & Hrep' & Hcells' & Hfr'); try done.
    { by rewrite <- app_assoc. }
    { lia. }
    { intros x Hx Hr. apply (Hkeep x Hx). simpl. lia. }
    { intros x Hx. rewrite Hfr2 by (intros ->; done). rewrite Hfr1; [by apply Hstable|].
      intros Hr. apply (Hkeep x Hx). simpl. lia. }
    replace (length (done ++ [v'])) with (S (length done)) in Hloop, Hrep', Hcells'
      by (rewrite length_app; simpl; lia).
    rewrite Hloop.
    destruct (traverseSliceFrom traverseWithPath todo (S (length done)) path visitT w1)
      as [[rest' e2] w2]. cbn [fst snd] in *.
    exists (v' :: tvs'), h'. split; [done|]. split; [by rewrite <- app_assoc in Hs'|].
    split; [split; [|done]|].
    + eapply rep_frame; [exact Hv2|]. intros x Hx. apply Hfr'; lia.
    + split; [simpl; lia|]. intros x Hx Hr. simpl in Hr.
      rewrite Hfr' by lia. rewrite Hfr2 by done. apply Hfr1. lia.
Qed.

Lemma traverseMap_refines fuel n todo :
  Forall (λ kt, refinedWith fuel kt.2) todo →
  ¬ keep n →
  ∀ done todo_es b path (h : gmap nat InPlace.cell) w,
    NoDup (done.*1 ++ todo.*1) →
    InPlace.mapAt h n = Some (done ++ todo_es) →
    InPlace.repEntries (InPlace.rep h) todo b todo_es →
    (n < b)%nat →
    (∀ x, keep x → ¬ (b ≤ x < b + cellsOfEntries todo)%nat) →
    (∀ x, keep x → h !! x = h0 !! x) →
    ∃ todo_es' (h' : gmap nat InPlace.cell),
      InPlace.traverseMap (InPlace.traverseWithPath fuel) n todo.*1 path visit h w
      = Some ((traverseMap traverseWithPath todo path visitT w).1.2,
              (h', (traverseMap traverseWithPath todo path visitT w).2))
      ∧ InPlace.mapAt h' n = Some (done ++ todo_es')
      ∧ InPlace.repEntries (InPlace.rep h')
          (traverseMap traverseWithPath todo path visitT w).1.1 b todo_es'
      ∧ cellsOfEntries (traverseMap traverseWithPath todo path visitT w).1.1
        = cellsOfEntries todo
      ∧ (∀ x, x ≠ n → ¬ (b ≤ x < b + cellsOfEntries todo)%nat → h' !! x = h !! x).
Proof.
  intros Hall Hn. induction Hall as [|[k t] todo Ht _ IH];
    intros done todo_es b path h w Hnodup Hs Hrep Hb Hkeep Hstable.
  { destruct todo_es; [|done]. exists [], h. by repeat split. }
  destruct todo_es as [|[k' v] tes]; [done|]. destruct Hrep as (<- & Hv & Htes).
  simpl in Ht. cbn [fmap list_fmap fst InPlace.traverseMap traverseMap].
  assert (k ∉ done.*1) as Hk.
  { simpl in Hnodup. apply NoDup_app in Hnodup as (_ & Hd & _).
    intros Hin. apply (Hd k Hin). by left. }
  rewrite Hs. cbn [mbind option_bind]. rewrite mapLookup_middle by done.
  cbn [mbind option_bind].
  destruct (Ht b v (path +:+ "['" +:+ k +:+ "']") h w Hv)
    as (v' & h1 & Hrun & Hv' & Hcells & Hfr1); [|done|].
  { intros x Hx Hr. apply (Hkeep x Hx). simpl. lia. }
  rewrite Hrun. cbn [mbind option_bind].
  destruct (traverseWithPath t _ visitT w) as [[t1 e1] w1]. cbn [fst snd] in *.
  assert (InPlace.mapAt h1 n = Some (done ++ (k, v) :: tes)) as Hs1.
  { rewrite <- Hs. apply mapAt_frame, Hfr1. lia. }
  rewrite Hs1. cbn [mbind option_bind]. rewrite mapAssign_middle by done.
  set (h2 := <[n := InPlace.CMap (done ++ (k, v') :: tes)]> h1).
  assert (∀ x, x ≠ n → h2 !! x = h1 !! x) as Hfr2.
  { intros x Hx. by apply lookup_insert_ne. }
  assert (InPlace.mapAt h2 n = Some (done ++ (k, v') :: tes)) as Hs2.
  { apply mapAt_Some, lookup_insert_eq. }
  assert (InPlace.rep h2 t1 b v') as Hv2.
  { eapply rep_frame; [done|]. intros x Hx. apply Hfr2. lia. }
  assert (InPlace.repEntries (InPlace.rep h2) todo (b + InPlace.cells t1) tes) as Htes2.
  { rewrite Hcells. eapply repEntries_frame; [done|]. intros x Hx.
    rewrite Hfr2 by lia. apply Hfr1. lia. }
  destruct e1 as [e|].
  - exists ((k, v') :: tes), h2. cbn [fst snd]. split; [done|]. split; [done|].
    split; [by repeat split|]. split; [simpl; lia|].
    intros x Hx Hr. rewrite Hfr2 by done. apply Hfr1. simpl in Hr. lia.
  - destruct (IH (done ++ [(k, v')]) tes (b + InPlace.cells t1)%nat path h2 w1)
      as (tes' & h' & Hloop & Hs' & Hrep' & Hcells' & Hfr'); try done.
    { rewrite fmap_app, <- app_assoc. done. }
    { by rewrite <- app_assoc. }
    { lia. }
    { intros x Hx Hr. apply (Hkeep x Hx). simpl. lia. }
    { intros x Hx. rewrite Hfr2 by (intros ->; done). rewrite Hfr1; [by apply Hstable|].
      intros Hr. apply (Hkeep x Hx). simpl. lia. }
    rewrite Hloop.
    destruct (traverseMap traverseWithPath todo path visitT w1)
      as [[rest' e2] w2]. cbn [fst snd] in *.
    exists ((k, v') :: tes'), h'. split; [done|]. split; [by rewrite <- app_assoc in Hs'|].
    split; [split; [done|split; [|done]]|].
    + eapply rep_frame; [exact Hv2|]. intros x Hx. apply Hfr'; lia.
    + split; [simpl; lia|]. intros x Hx Hr. simpl in Hr.
      rewrite Hfr' by lia. rewrite Hfr2 by done. apply Hfr1. lia.
Qed.

(** The traverser on the heap, with more fuel than the tree is high, returns
    the error the traverser on trees returns, leaves the world as it leaves
    it, and leaves in the heap, at the place of the tree, the tree it
    returns; no other location changes. *)
Lemma traverseWithPath_refines t :
  ∀ fuel, wf_value t = true → (height t < fuel)%nat → refinedWith fuel t.
Proof.
  induction t as [s|f|b| |l IH|m IH] using Value_nested_ind;
    intros [|fuel] Hwf Hfuel; try lia; intros n v path h w Hrep Hkeep Hstable.
  - simpl in Hrep. subst v. simpl. rewrite visit_visitT by done.
    destruct (visitT path s w) as [[r e] w']. by exists (InPlace.IString r), h.
  - simpl in Hrep. subst v. by exists (InPlace.INumber f), h.
  - simpl in Hrep. subst v. by exists (InPlace.IBool b), h.
  - simpl in Hrep. subst v. by exists InPlace.INil, h.
  - destruct Hrep as [-> (vs & Hs & Hel)].
    assert (Forall (λ t, refinedWith fuel t) l) as Hall.
    { apply Forall_forall. intros t Ht.
      eapply (proj1 (Forall_forall _ _) IH); [done| |].
      - simpl in Hwf. rewrite forallb_forall in Hwf. by apply Hwf, list_elem_of_In.
      - pose proof (height_elem t l Ht). simpl in Hfuel. lia. }
    assert (¬ keep n) as Hn. { intros Hk. apply (Hkeep n Hk). simpl. lia. }
    destruct (traverseSliceFrom_refines fuel n l Hall Hn [] vs (S n) path h w)
      as (vs' & h' & Hloop & Hs' & Hrep' & Hcells' & Hfr'); try done; try lia.
    { intros x Hx Hr. apply (Hkeep x Hx). simpl. lia. }
    cbn [InPlace.traverseWithPath]. rewrite Hs. cbn [mbind option_bind].
    rewrite <- (repElems_length _ _ _ _ Hel).
    cbn [length app] in Hloop, Hs', Hrep', Hcells'. rewrite Hloop.
    cbn [mbind option_bind]. rewrite traverseWithPath_array.
    destruct (traverseSliceFrom traverseWithPath l 0 path visitT w) as [[l' e] w'].
    cbn [fst snd] in *. exists (InPlace.ISlice n), h'. split; [done|].
    split; [split; [done|]; by exists vs'|]. split; [simpl; lia|].
    intros x Hx. apply Hfr'; simpl in Hx; lia.
  - destruct Hrep as [-> (es & Hs & Hel)]. simpl in Hwf.
    apply andb_true_iff in Hwf as [Hnodup Hwf]. apply bool_decide_eq_true in Hnodup.
    assert (Forall (λ kt, refinedWith fuel kt.2) m) as Hall.
    { apply Forall_forall. intros kt Ht.
      eapply (proj1 (Forall_forall _ _) IH); [done| |].
      - rewrite forallb_forall in Hwf. by apply Hwf, list_elem_of_In.
      - pose proof (height_entry kt m Ht). simpl in Hfuel. lia. }
    assert (¬ keep n) as Hn. { intros Hk. apply (Hkeep n Hk). simpl. lia. }
    destruct (traverseMap_refines fuel n m Hall Hn [] es (S n) path h w)
      as (es' & h' & Hloop & Hs' & Hrep' & Hcells' & Hfr'); try done; try lia.
    { intros x Hx Hr. apply (Hkeep x Hx). simpl. lia. }
    cbn [InPlace.traverseWithPath]. rewrite Hs. cbn [mbind option_bind].
    rewrite (repEntries_keys _ _ _ _ Hel). cbn [app] in Hs'. rewrite Hloop.
    cbn [mbind option_bind]. rewrite traverseWithPath_object.
    destruct (traverseMap traverseWithPath m path visitT w) as [[m' e] w'].
    cbn [fst snd] in *. exists (InPlace.IMap n), h'. split; [done|].
    split; [split; [done|]; by exists es'|]. split; [simpl; lia|].
    intros x Hx. apply Hfr'; simpl in Hx; lia.
Qed.

End InPlaceFacts.

(** The tree read back from the heap is the tree that is there. *)
Lemma rep_readBack (h : gmap nat InPlace.cell) t :
  ∀ n v fuel,
    InPlace.rep h t n v → (height t < fuel)%nat → InPlace.readBack fuel h v = Some t.
Proof.
  induction t as [s|f|b| |l IH|m IH] using Value_nested_ind;
    intros n v [|fuel] Hrep Hfuel; try lia; simpl in Hrep.
  - by subst v.
  - by subst v.
  - by subst v.
  - by subst v.
  - destruct Hrep as [-> (vs & Hs & Hel)]. simpl. rewrite Hs. simpl.
    assert (mapM (InPlace.readBack fuel h) vs = Some l) as ->; [|done].
    simpl in Hfuel. assert (foldr (λ x n, Nat.max (height x) n) 0%nat l < fuel)%nat
      as Hh by lia.
    clear Hs Hfuel. revert vs Hel Hh. generalize (S n).
    induction IH as [|t l Ht _ IHl]; intros b [|v vs]; simpl; try done.
    intros [Hv Hvs] Hh. rewrite (Ht b v fuel) by (done || lia). simpl.
    rewrite (IHl _ _ Hvs) by lia. done.
  - destruct Hrep as [-> (es & Hs & Hel)]. simpl. rewrite Hs. simpl.
    assert (mapM (λ kv, pair kv.1 <$> InPlace.readBack fuel h kv.2) es = Some m)
      as ->; [|done].
    simpl in Hfuel. assert (foldr (λ kx n, Nat.max (height kx.2) n) 0%nat m < fuel)%nat
      as Hh by lia.
    clear Hs Hfuel. revert es Hel Hh. generalize (S n).
    induction IH as [|[k t] m Ht _ IHm]; intros b [|[k' v] es]; simpl; try done.
    intros (-> & Hv & Hes) Hh. simpl in Ht.
    rewrite (Ht b v fuel) by (done || lia). simpl.
    rewrite (IHm _ _ Hes) by lia. done.
Qed.

Section DoFilterInPlace.

Context {error World : Type}.
Variable commandLineFilterRunner : @FilterRunner error World.
Variable readJsonFromFile : string → Value * option error.

(** The filters are at the free location, and they are the tree
    [loadFilters] returns. *)
Lemma loadFilters_rep filter (h : gmap nat InPlace.cell) free :
  let tf := (loadFilters readJsonFromFile filter).1 in
  let r := InPlace.loadFilters readJsonFromFile filter h free in
  InPlace.rep r.2.1 tf free r.1.1
  ∧ r.1.2 = (loadFilters readJsonFromFile filter).2
  ∧ (∀ x, ¬ (free ≤ x < free + InPlace.cells tf)%nat → r.2.1 !! x = h !! x).
Proof.
  unfold loadFilters, InPlace.loadFilters, InPlace.decoded.
  destruct (strings.HasSuffix filter ".json"); [|done].
  destruct (readJsonFromFile filter) as [tf e]. cbn [fst snd].
  pose proof (alloc_rep tf free h) as [Hrep Hfr].
  by destruct (InPlace.alloc tf free h) as [v h1].
Qed.

(** [doFilter] on the heap returns the error of [doFilter] on trees; the
    [value] of the caller then denotes the tree that the model on trees
    takes for it, and the filters denote the tree that was loaded; only
    cells of the data were assigned to. *)
Lemma doFilter_refines data n value filter filterRunner fuel
    (h : gmap nat InPlace.cell) free w :
  wf_value data = true → (height data < fuel)%nat →
  InPlace.rep h data n value → (n + InPlace.cells data ≤ free)%nat →
  let tf := (loadFilters readJsonFromFile filter).1 in
  let loaded := InPlace.loadFilters readJsonFromFile filter h free in
  let r := doFilter commandLineFilterRunner readJsonFromFile data filter filterRunner w in
  ∃ h' : gmap nat InPlace.cell,
    InPlace.doFilter commandLineFilterRunner readJsonFromFile fuel value filter
      filterRunner h free w
    = Some (r.1.2, (h', loaded.2.2), r.2)
    ∧ InPlace.rep h' r.1.1 n value
    ∧ InPlace.rep h' tf free loaded.1.1
    ∧ (∀ x, ¬ (n ≤ x < n + InPlace.cells data)%nat → h' !! x = loaded.2.1 !! x).
Proof.
  intros Hwf Hfuel Hrep Hfree tf loaded r.
  destruct (loadFilters_rep filter h free) as (Hreptf & Herr & Hfrtf).
  fold tf loaded in Hreptf, Herr, Hfrtf. subst r. unfold doFilter, InPlace.doFilter.
  fold loaded. destruct loaded as [[filters e] [h1 free1]]. cbn [fst snd] in *.
  destruct (loadFilters readJsonFromFile filter) as [tf' e']. cbn [fst snd] in *.
  subst tf e'.
  assert (InPlace.rep h1 data n value) as Hrep1.
  { eapply rep_frame; [done|]. intros x Hx. apply Hfrtf. lia. }
  destruct e as [e|]; [exists h1; cbn [fst snd]; by repeat split|].
  destruct (traverseWithPath_refines
              (λ path value, doRunFilter commandLineFilterRunner path value tf' filterRunner)
              (λ path value, InPlace.doRunFilter commandLineFilterRunner path value
                               filters filterRunner)
              h1 (λ x, (free ≤ x < free + InPlace.cells tf')%nat)) with
    (t := data) (fuel := fuel) (n := n) (v := value) (path := "") (h := h1) (w := w)
    as (v' & h' & Hrun & Hrep' & Hcells & Hfr); try done.
  { intros h2 path s w2 Hstable. unfold doRunFilter, InPlace.doRunFilter.
    erewrite getFilterCommand_refines; [done|].
    eapply rep_frame; [done|]. intros x Hx. by apply Hstable. }
  { intros x Hx. lia. }
  unfold InPlace.traverse, traverse. rewrite Hrun. cbn [mbind option_bind].
  pose proof (traverseWithPath_sameShape data ""
    (λ path value, doRunFilter commandLineFilterRunner path value tf' filterRunner) w)
    as Hshape.
  destruct (traverseWithPath data "" _ w) as [[t' err] w']. cbn [fst snd] in *.
  exists h'. split; [done|]. split; [|split; [|done]].
  - destruct data, t'; simpl in Hshape, Hrep1, Hrep' |- *; try done.
    + destruct Hrep' as [-> ?], Hrep1 as [-> ?]. by split.
    + destruct Hrep' as [-> ?], Hrep1 as [-> ?]. by split.
  - eapply rep_frame; [done|]. intros x Hx. apply Hfr. lia.
Qed.

End DoFilterInPlace.

Section FilterJsonInPlace.

Context {error World : Type}.
Variable commandLineFilterRunner : @FilterRunner error World.
Variable readJsonFromFile : string → Value * option error.
Variable readJsonFromText : string → Value * option error.

(** [FilterJsonFromTextWithFilterRunner] on the heap and on trees: the same
    error, the same world, and the value handed back denotes the tree
    handed back. *)
Lemma FilterJsonFromTextWithFilterRunner_refines fuel jsonText filter run
    (h : gmap nat InPlace.cell) free w :
  let data := (readJsonFromText jsonText).1 in
  let tf := (loadFilters readJsonFromFile filter).1 in
  let dec := InPlace.decoded (readJsonFromText jsonText) h free in
  let loaded := InPlace.loadFilters readJsonFromFile filter dec.2.1 dec.2.2 in
  let r := FilterJsonFromTextWithFilterRunner commandLineFilterRunner readJsonFromFile
             readJsonFromText jsonText filter run w in
  wf_value data = true → (height data < fuel)%nat → (readJsonFromText jsonText).2 = None →
  ∃ h' : gmap nat InPlace.cell,
    InPlace.FilterJsonFromTextWithFilterRunner commandLineFilterRunner readJsonFromFile
      readJsonFromText fuel jsonText filter run h free w
    = Some ((dec.1.1, r.1.2), (h', loaded.2.2), r.2)
    ∧ InPlace.rep h' r.1.1 free dec.1.1
    ∧ InPlace.rep loaded.2.1 tf dec.2.2 loaded.1.1
    ∧ InPlace.rep h' tf dec.2.2 loaded.1.1
    ∧ (∀ x, (dec.2.2 ≤ x)%nat → h' !! x = loaded.2.1 !! x).
Proof.
  intros data tf dec loaded r Hwf Hfuel Hok.
  unfold InPlace.FilterJsonFromTextWithFilterRunner. subst r.
  unfold FilterJsonFromTextWithFilterRunner. fold dec.
  pose proof (alloc_rep data free h) as [Hrep _].
  assert (dec = ((InPlace.alloc data free h).1, None,
                 ((InPlace.alloc data free h).2, (free + InPlace.cells data)%nat)))
    as Hdec.
  { subst dec data. unfold InPlace.decoded. rewrite Hok.
    by destruct (InPlace.alloc _ free h). }
  destruct (readJsonFromText jsonText) as [data' e]. simpl in Hok. subst e.
  subst data. cbn [fst snd] in *.
  destruct (InPlace.alloc data' free h) as [value h1]. cbn [fst snd] in *.
  subst loaded. rewrite Hdec. cbn [fst snd].
  destruct (doFilter_refines commandLineFilterRunner readJsonFromFile data' free value
              filter run fuel h1 (free + InPlace.cells data')%nat w)
    as (h' & Hrun & Hrep' & Hreptf & Hfr); try done.
  rewrite Hrun. cbn [mbind option_bind]. exists h'.
  split; [done|]. split; [done|]. split; [apply loadFilters_rep|].
  split; [done|]. intros x Hx. apply Hfr. lia.
Qed.

End FilterJsonInPlace.

(** C8.  The filters are never assigned to.  On the heap, the resolver
    [InPlace.getFilterCommandRec] reads the maps and the slices of the
    filters and returns no heap, and the traverser assigns to the cells of
    the data only: after [FilterJsonFromTextWithFilterRunner], whether it
    ended with an error of the runner or not, the tree read back from the
    filters is the tree that was loaded, and every cell of the filters, as
    every cell that is not a cell of the data, holds what it held when the
    filters were loaded. *)
Theorem filters_are_read_only {error World}
    (commandLineFilterRunner : @FilterRunner error World)
    (readJsonFromFile readJsonFromText : string → Value * option error)
    (fuel : nat) (jsonText filter : string)
    (filterRunner : option (@FilterRunner error World))
    (h : gmap nat InPlace.cell) (free : nat) (w : World) :
  let data := (readJsonFromText jsonText).1 in
  let tf := (loadFilters readJsonFromFile filter).1 in
  let dec := InPlace.decoded (readJsonFromText jsonText) h free in
  let loaded := InPlace.loadFilters readJsonFromFile filter dec.2.1 dec.2.2 in
  wf_value data = true → (height data < fuel)%nat → (readJsonFromText jsonText).2 = None →
  ∃ err (h' : gmap nat InPlace.cell) free' w',
    InPlace.FilterJsonFromTextWithFilterRunner commandLineFilterRunner readJsonFromFile
      readJsonFromText fuel jsonText filter filterRunner h free w
    = Some ((dec.1.1, err), (h', free'), w')
    ∧ InPlace.readBack (S (height tf)) loaded.2.1 loaded.1.1 = Some tf
    ∧ InPlace.readBack (S (height tf)) h' loaded.1.1 = Some tf
    ∧ (∀ x, (dec.2.2 ≤ x)%nat → h' !! x = loaded.2.1 !! x).
Proof.
  intros data tf dec loaded Hwf Hfuel Hok.
  destruct (FilterJsonFromTextWithFilterRunner_refines commandLineFilterRunner
              readJsonFromFile readJsonFromText fuel jsonText filter filterRunner
              h free w Hwf Hfuel Hok) as (h' & Hrun & _ & Hbefore & Hafter & Hfr).
  eexists _, h', _, _. split; [exact Hrun|].
  split; [eapply rep_readBack; [exact Hbefore | lia]|].
  split; [eapply rep_readBack; [exact Hafter | lia]|]. exact Hfr.
Qed.

Lemma filters_are_read_only_witness :
  let data := VObject [("a", VArray [VString "x"; VString "y"])] in
  let tf := VObject [("a", VArray [VString "upper"; VString "lower"])] in
  let readJsonFromText := λ _ : string, (data, @None string) in
  let dec := InPlace.decoded (readJsonFromText "text") ∅ 0%nat in
  let loaded := InPlace.loadFilters (oneFile "filters.json" tf) "filters.json"
                  dec.2.1 dec.2.2 in
  ∃ err (h' : gmap nat InPlace.cell) free' w',
    InPlace.FilterJsonFromTextWithFilterRunner upperRunner (oneFile "filters.json" tf)
      readJsonFromText 3 "text" "filters.json" (Some upperRunner) ∅ 0%nat 0%nat
    = Some ((dec.1.1, err), (h', free'), w')
    ∧ InPlace.readBack 3 loaded.2.1 loaded.1.1 = Some tf
    ∧ InPlace.readBack 3 h' loaded.1.1 = Some tf
    ∧ (∀ x, (dec.2.2 ≤ x)%nat → h' !! x = loaded.2.1 !! x).
Proof.
  intros data tf readJsonFromText dec loaded.
  apply (filters_are_read_only upperRunner (oneFile "filters.json" tf)
           readJsonFromText 3 "text" "filters.json" (Some upperRunner) ∅ 0%nat 0%nat).
  - reflexivity.
  - simpl. lia.
  - reflexivity.
Defined.

(** The data [{"a": ["x", "y"]}] and the filters
    [{"a": ["upper", "lower"]}] on the heap: the call for [y] fails, the
    value handed back is the map that was decoded, now with [X] in it, and
    the filters read back as they were loaded. *)
Example in_place_with_an_error :
  let data := VObject [("a", VArray [VString "x"; VString "y"])] in
  let tf := VObject [("a", VArray [VString "upper"; VString "lower"])] in
  match InPlace.FilterJsonFromTextWithFilterRunner upperRunner
          (oneFile "filters.json" tf) (λ _, (data, None)) 3 "text" "filters.json"
          (Some upperRunner) ∅ 0%nat 0%nat with
  | Some ((value, err), (h', free'), calls) =>
      value = InPlace.IMap 0
      ∧ err = Some "Unexpected command :: lower"
      ∧ calls = 2%nat
      ∧ InPlace.readBack 3 h' value
        = Some (VObject [("a", VArray [VString "X"; VString ""])])
      ∧ InPlace.readBack 3 h' (InPlace.IMap 2) = Some tf
  | None => False
  end.
Proof. vm_compute. by repeat split. Qed.

(** * Further properties of the package *)

(** ** The traverser with a visitor that changes no string *)

Lemma traverseSliceFrom_cons {error World}
    (rec : Value → string → @visitorFunc error World → World
           → (Value * option error) * World) v l k path visit w :
  traverseSliceFrom rec (v :: l) k path visit w
  = let '((v', err), w1) := rec v (path +:+ "[" +:+ fmt.decimal k +:+ "]") visit w in
    match err with
    | Some e => ((v' :: l, Some e), w1)
    | None =>
        let '((l', err'), w2) := traverseSliceFrom rec l (S k) path visit w1 in
        ((v' :: l', err'), w2)
    end.
Proof. done. Qed.

Lemma traverseMap_cons {error World}
    (rec : Value → string → @visitorFunc error World → World
           → (Value * option error) * World) k v m path visit w :
  traverseMap rec ((k, v) :: m) path visit w
  = let '((v', err), w1) := rec v (path +:+ "['" +:+ k +:+ "']") visit w in
    match err with
    | Some e => (((k, v') :: m, Some e), w1)
    | None =>
        let '((m', err'), w2) := traverseMap rec m path visit w1 in
        (((k, v') :: m', err'), w2)
    end.
Proof. done. Qed.

Lemma traverseWithPath_unchanged {error World} (visit : @visitorFunc error World)
    (R : World → World → Prop) :
  (∀ w, R w w) → (∀ w1 w2 w3, R w1 w2 → R w2 w3 → R w1 w3) →
  (∀ path s w, ∃ w', visit path s w = ((s, None), w') ∧ R w w') →
  ∀ data path w,
    ∃ w', traverseWithPath data path visit w = ((data, None), w') ∧ R w w'.
Proof.
  intros Hrefl Htrans Hvisit data.
  induction data as [s|f|b| |l IH|m IH] using Value_nested_ind; intros path w;
    try (by exists w).
  - simpl. destruct (Hvisit path s w) as (w' & -> & HR). by exists w'.
  - rewrite traverseWithPath_array.
    assert (∀ k w, ∃ w',
      traverseSliceFrom traverseWithPath l k path visit w = ((l, None), w') ∧ R w w')
      as Hloop.
    { clear w. induction IH as [|v l Hv _ IHl]; intros k w; [by exists w|].
      rewrite traverseSliceFrom_cons.
      destruct (Hv (path +:+ "[" +:+ fmt.decimal k +:+ "]") w) as (w1 & -> & HR1).
      destruct (IHl (S k) w1) as (w2 & -> & HR2). exists w2. eauto. }
    destruct (Hloop 0%nat w) as (w' & -> & HR). by exists w'.
  - rewrite traverseWithPath_object.
    assert (∀ w, ∃ w',
      traverseMap traverseWithPath m path visit w = ((m, None), w') ∧ R w w')
      as Hloop.
    { clear w. induction IH as [|[k v] m Hv _ IHm]; intros w; [by exists w|].
      rewrite traverseMap_cons. simpl in Hv.
      destruct (Hv (path +:+ "['" +:+ k +:+ "']") w) as (w1 & -> & HR1).
      destruct (IHm w1) as (w2 & -> & HR2). exists w2. eauto. }
    destruct (Hloop w) as (w' & -> & HR). by exists w'.
Qed.

(** A specification without strings has no command for any keys. *)
Lemma getFilterCommandRec_no_strings keys : ∀ filters,
  stringLeaves filters = [] → stringLeaves (getFilterCommandRec keys filters).1 = [].
Proof.
  induction keys as [|k keys IH]; intros filters Hf; [done|].
  destruct filters as [s|f|b| |l|m]; try done.
  - assert (∀ i x, l !! i = Some x → stringLeaves x = []) as Hl.
    { intros i x Hx. simpl in Hf. clear -Hf Hx. revert i Hx.
      induction l as [|y l IHl]; intros [|i]; simpl in *; try done.
      - intros [= ->]. by apply app_eq_nil in Hf as [? ?].
      - apply app_eq_nil in Hf as [? ?]. eauto. }
    cbn [getFilterCommandRec]. destruct l as [|x [|y l]].
    + by destruct (strconv.ParseInt_10_32 _) as [i|]; [destruct (_ && _)|].
    + apply IH. by apply (Hl 0%nat).
    + destruct (strconv.ParseInt_10_32 _) as [i|]; [|done].
      destruct (_ && _); [|done].
      destruct (_ !! _) as [si|] eqn:Hsi; [|done]. apply IH. eauto.
  - cbn [getFilterCommandRec]. destruct (mapLookup _ m) as [v|] eqn:Hv; [|done].
    apply IH. simpl in Hf. clear -Hf Hv. revert Hv.
    induction m as [|[k0 v0] m IHm]; simpl in *; [done|].
    apply app_eq_nil in Hf as [? ?]. destruct (String.eqb k0 _); [by intros [= <-]|eauto].
Qed.

Lemma getFilterCommand_no_strings path filters :
  stringLeaves filters = [] → getFilterCommand path filters = ("", false).
Proof.
  intros Hf. unfold getFilterCommand.
  pose proof (getFilterCommandRec_no_strings (strings.FieldsFunc path isBracket) _ Hf) as H.
  by destruct (getFilterCommandRec _ filters) as [[s|f|b| |l|m] [|]].
Qed.

(** ** What [doFilter] leaves in the tree *)

(** X1.  [doFilter] changes strings only: the tree it hands back has the
    shape of the data, the same maps with the same keys in them, slices of
    the same lengths, the same numbers, booleans and nulls, whatever the
    filters and the runner, and whether it ends with an error or not. *)
Theorem doFilter_keeps_the_shape {error World}
    (commandLineFilterRunner : @FilterRunner error World)
    (readJsonFromFile : string → Value * option error)
    (data : Value) (filter : string) (filterRunner : option FilterRunner) (w : World) :
  sameShape data
    (doFilter commandLineFilterRunner readJsonFromFile data filter filterRunner w).1.1.
Proof.
  unfold doFilter. destruct (loadFilters readJsonFromFile filter) as [filters [e|]].
  { apply sameShape_refl. }
  pose proof (traverseWithPath_sameShape data ""
    (λ path value, doRunFilter commandLineFilterRunner path value filters filterRunner) w)
    as Hshape.
  unfold traverse. destruct (traverseWithPath data "" _ w) as [[result err] w'].
  simpl in *. destruct data; simpl; try done; apply sameShape_refl.
Qed.

(** X2.  Whatever happens, a string of the data is afterwards either the
    string it was, or what a call of the runner returned for it with the
    command of its path; the runner is the one given or, without one, the
    command line.  This holds when the traversal stopped at an error too:
    the string at which it stopped holds what the runner returned with the
    error. *)
Theorem strings_come_from_the_runner {error World}
    (commandLineFilterRunner : @FilterRunner error World)
    (readJsonFromFile : string → Value * option error)
    data filter filterRunner w filters segs s :
  loadFilters readJsonFromFile filter = (filters, None) →
  valueAt segs data = Some (VString s) →
  ∃ s',
    valueAt segs
      (doFilter commandLineFilterRunner readJsonFromFile data filter filterRunner w).1.1
    = Some (VString s')
    ∧ (s' = s
       ∨ ∃ command w0,
           getFilterCommand (pathOf segs) filters = (command, true)
           ∧ s' = (default commandLineFilterRunner filterRunner command s w0).1.1).
Proof.
  intros Hload Hat. rewrite (doFilter_loaded _ _ _ _ _ _ _ Hload).
  destruct (subtree_traversed segs data ""
              (filterVisitor commandLineFilterRunner filters filterRunner) w _ Hat)
    as (v' & Hv' & Hor).
  unfold traverse. destruct (traverseWithPath data "" _ w) as [[res err] w1].
  cbn [fst snd] in *.
  destruct (valueAt_afterTraverse data res segs) as [-> | [-> Hroot]]; [|by eauto].
  rewrite Hv'. destruct Hor as [->|[w0 ->]]; [by eauto|].
  cbn [traverseWithPath]. fold (pathOf segs). unfold filterVisitor at 1.
  destruct (getFilterCommand (pathOf segs) filters) as [command [|]] eqn:Hcmd.
  - rewrite (doRunFilter_matched _ _ _ _ _ _ _ Hcmd).
    destruct (default commandLineFilterRunner filterRunner command s w0)
      as [[r e] w2] eqn:Hr.
    exists r. split; [done|]. right. exists command, w0. by rewrite Hr.
  - rewrite doRunFilter_unmatched by (by rewrite Hcmd). by eauto.
Qed.

Lemma strings_come_from_the_runner_witness :
  ∃ s',
    valueAt [Key "a"; Index 1]
      (doFilter upperRunner
         (oneFile "filters.json" (VObject [("a", VArray [VString "upper"; VString "lower"])]))
         (VObject [("a", VArray [VString "x"; VString "y"])])
         "filters.json" (Some upperRunner) 0%nat).1.1
    = Some (VString s')
    ∧ (s' = "y"
       ∨ ∃ command w0,
           getFilterCommand (pathOf [Key "a"; Index 1])
             (VObject [("a", VArray [VString "upper"; VString "lower"])])
           = (command, true)
           ∧ s' = (default upperRunner (Some upperRunner) command "y" w0).1.1).
Proof.
  apply (strings_come_from_the_runner upperRunner
           (oneFile "filters.json" (VObject [("a", VArray [VString "upper"; VString "lower"])]))
           (VObject [("a", VArray [VString "x"; VString "y"])])
           "filters.json" (Some upperRunner) 0%nat _ [Key "a"; Index 1] "y");
    reflexivity.
Defined.

(** X3.  When [doFilter] ends without an error, every string under a map or
    a slice of the data for whose path there is a command holds what a
    call of the runner with that command and that string returned.  (The
    string that is the whole data is the one that is not replaced.) *)
Theorem matched_strings_are_replaced {error World}
    (commandLineFilterRunner : @FilterRunner error World)
    (readJsonFromFile : string → Value * option error)
    data filter filterRunner w filters result w' segs s command :
  loadFilters readJsonFromFile filter = (filters, None) →
  doFilter commandLineFilterRunner readJsonFromFile data filter filterRunner w
  = ((result, None), w') →
  valueAt segs data = Some (VString s) → segs ≠ [] →
  getFilterCommand (pathOf segs) filters = (command, true) →
  ∃ w0 r w1,
    default commandLineFilterRunner filterRunner command s w0 = ((r, None), w1)
    ∧ valueAt segs result = Some (VString r).
Proof.
  intros Hload Hrun Hat Hsegs Hcmd.
  by destruct (doFilter_replaces_below_the_root commandLineFilterRunner readJsonFromFile
                 data filter filterRunner w filters result w' segs s command
                 Hload Hrun Hat Hsegs Hcmd) as [_ H].
Qed.

Lemma matched_strings_are_replaced_witness :
  ∃ w0 r w1,
    default upperRunner (Some upperRunner) "upper" "y" w0 = ((r, None), w1)
    ∧ valueAt [Key "b"; Key "c"]
        (VObject [("a", VString "x"); ("b", VObject [("c", VString "Y")])])
      = Some (VString r).
Proof.
  apply (matched_strings_are_replaced upperRunner
           (oneFile "filters.json" (VObject [("b", VString "upper")]))
           (VObject [("a", VString "x"); ("b", VObject [("c", VString "y")])])
           "filters.json" (Some upperRunner) 0%nat
           (VObject [("b", VString "upper")]) _ 1%nat [Key "b"; Key "c"] "y" "upper");
    done.
Defined.

(** X4.  With a runner that returns every value as it is, without an error
    (the runner of the first test), [doFilter] hands the data back unchanged
    and without an error, whatever the filters are. *)
Theorem identity_runner_changes_nothing {error World}
    (commandLineFilterRunner : @FilterRunner error World)
    (readJsonFromFile : string → Value * option error)
    data filter (run : @FilterRunner error World) w filters :
  loadFilters readJsonFromFile filter = (filters, None) →
  (∀ command value w0, (run command value w0).1 = (value, None)) →
  (doFilter commandLineFilterRunner readJsonFromFile data filter (Some run) w).1
  = (data, None).
Proof.
  intros Hload Hrun. rewrite (doFilter_loaded _ _ _ _ _ _ _ Hload).
  destruct (traverseWithPath_unchanged
              (filterVisitor commandLineFilterRunner filters (Some run))
              (λ _ _, True)) with (data := data) (path := "") (w := w)
    as (w' & Htr & _); [done|done| |].
  { intros path s w0. unfold filterVisitor, doRunFilter.
    destruct (getFilterCommand path filters) as [command [|]]; [|by eauto].
    specialize (Hrun command s w0). destruct (run command s w0) as [r w1].
    simpl in Hrun. subst r. by eauto. }
  unfold traverse, filterVisitor in *. rewrite Htr. by destruct data.
Qed.

Lemma identity_runner_changes_nothing_witness :
  (doFilter upperRunner noFile (VObject [("a", VArray [VString "x"; VNull])]) "trim"
     (Some (λ command value calls, ((value, None), S calls))) 0%nat).1
  = (VObject [("a", VArray [VString "x"; VNull])], None).
Proof.
  apply (identity_runner_changes_nothing upperRunner noFile _ "trim" _ 0%nat
           (VString "trim")); done.
Defined.

(** X5.  Filters without a string in them (an empty object, an empty array,
    numbers, booleans, nulls, and maps and slices of these) have no command
    for any path: [doFilter] hands the data back unchanged, without an
    error and without a call of the runner. *)
Theorem filters_without_commands_do_nothing {error World}
    (commandLineFilterRunner : @FilterRunner error World)
    (readJsonFromFile : string → Value * option error)
    data filter filterRunner w filters :
  loadFilters readJsonFromFile filter = (filters, None) →
  stringLeaves filters = [] →
  (∀ path, getFilterCommand path filters = ("", false))
  ∧ doFilter commandLineFilterRunner readJsonFromFile data filter filterRunner w
    = ((data, None), w).
Proof.
  intros Hload Hf. split; [intros path; by apply getFilterCommand_no_strings|].
  rewrite (doFilter_loaded _ _ _ _ _ _ _ Hload).
  destruct (traverseWithPath_unchanged
              (filterVisitor commandLineFilterRunner filters filterRunner) eq)
    with (data := data) (path := "") (w := w) as (w' & Htr & <-);
    [done|congruence| |].
  { intros path s w0. exists w0. split; [|done]. unfold filterVisitor.
    apply doRunFilter_unmatched. by rewrite getFilterCommand_no_strings. }
  unfold traverse, filterVisitor in *. rewrite Htr. by destruct data.
Qed.

Lemma filters_without_commands_do_nothing_witness :
  (∀ path, getFilterCommand path (VObject [("a", VArray []); ("b", VNull)]) = ("", false))
  ∧ doFilter upperRunner (oneFile "f.json" (VObject [("a", VArray []); ("b", VNull)]))
      (VObject [("a", VArray [VString "x"])]) "f.json" (Some upperRunner) 0%nat
    = ((VObject [("a", VArray [VString "x"])], None), 0%nat).
Proof.
  apply (filters_without_commands_do_nothing upperRunner
           (oneFile "f.json" (VObject [("a", VArray []); ("b", VNull)]))); done.
Defined.

(** ** The keys the resolver can ask for *)












(** X7.  The text of a path is read back as its segments when no key has a
    bracket in it: one key for each segment; the key read for a key of the
    data is that key, its quotes trimmed (the key itself when it has no
    quote at either end), and the key read for a position is its decimal
    numeral, which [strconv.ParseInt] turns back into the position when it
    is below 2^31. *)
Theorem path_keys_round_trip segs :
  Forall (λ seg, match seg with
                 | Key k => noneSatisfies isBracket k = true
                 | Index i => True
                 end) segs →
  (λ k0, strings.Trim k0 "'") <$> strings.FieldsFunc (pathOf segs) isBracket
  = (λ seg, match seg with
            | Key k => strings.Trim k "'"
            | Index i => fmt.decimal i
            end) <$> segs
  ∧ ∀ i, Z.of_nat i < 2 ^ 31 →
         strconv.ParseInt_10_32 (fmt.decimal i) = Some (Z.of_nat i).
Proof.
  intros Hsegs. split.
  - rewrite FieldsFunc_pathOf. induction Hsegs as [|seg segs Hseg _ IH]; [done|].
    rewrite !fmap_cons. cbn [concat]. rewrite fmap_app, IH. f_equal.
    destruct seg as [k|i].
    + rewrite segmentKeys_plain by done. cbn [fmap list_fmap]. by rewrite Trim_quoted.
    + cbn [segmentKeys fmap list_fmap]. by rewrite Trim_decimal.
  - intros i Hi. rewrite ParseInt_decimal. by rewrite (proj2 (Z.ltb_lt _ _)).
Qed.

Lemma path_keys_round_trip_witness :
  (λ k0, strings.Trim k0 "'")
    <$> strings.FieldsFunc (pathOf [Key "a"; Index 12; Key "b c"]) isBracket
  = ["a"; fmt.decimal 12; "b c"]
  ∧ strconv.ParseInt_10_32 (fmt.decimal 12) = Some 12.
Proof.
  destruct (path_keys_round_trip [Key "a"; Index 12; Key "b c"]) as [Hkeys Hparse].
  - by repeat constructor.
  - split; [exact Hkeys|]. apply (Hparse 12%nat). reflexivity.
Defined.

(** ** The strings after a failure *)

Section AfterFailure.

Context {error World : Type}.
Variable visit : @visitorFunc error World.

(** A count of the calls of the visitor, kept in the world. *)
Variable count : World → nat.
Hypothesis count_visit : ∀ path s w, count (visit path s w).2 = S (count w).

Abbreviation restUntouched leaves leaves' w w' err :=
  (∃ n : nat,
     count w' = (count w + n)%nat
     ∧ (n ≤ length leaves)%nat
     ∧ leaves'.*1 = leaves.*1
     ∧ drop n leaves' = drop n leaves
     ∧ (err = None → n = length leaves)).

Lemma restUntouched_nil w (err : option error) :
  restUntouched (@nil Call) (@nil Call) w w (@None error).
Proof. exists 0%nat. repeat split; (done || lia). Qed.

Lemma restUntouched_stop (l1 l1' l2 : list Call) w w1 (e : error) :
  restUntouched l1 l1' w w1 (Some e) →
  restUntouched (l1 ++ l2) (l1' ++ l2) w w1 (Some e).
Proof.
  intros (n & Hc & Hn & Hp & Hd & _).
  assert (length l1' = length l1) as Hlen.
  { pose proof (f_equal length Hp) as Hl. by rewrite !length_fmap in Hl. }
  exists n. rewrite !fmap_app, Hp, length_app.
  repeat split; try done; try lia.
  rewrite !drop_app_le by lia. by rewrite Hd.
Qed.

Lemma restUntouched_go (l1 l1' l2 l2' : list Call) w w1 w2 (err : option error) :
  restUntouched l1 l1' w w1 (@None error) →
  restUntouched l2 l2' w1 w2 err →
  restUntouched (l1 ++ l2) (l1' ++ l2') w w2 err.
Proof.
  intros (n1 & Hc1 & Hn1 & Hp1 & Hd1 & He1) (n2 & Hc2 & Hn2 & Hp2 & Hd2 & He2).
  specialize (He1 eq_refl). subst n1.
  assert (length l1' = length l1) as Hlen.
  { pose proof (f_equal length Hp1) as Hl. by rewrite !length_fmap in Hl. }
  exists (length l1 + n2)%nat. rewrite !fmap_app, Hp1, Hp2, length_app.
  repeat split; try done; try lia.
  - rewrite (drop_app_ge l1' l2'), (drop_app_ge l1 l2) by lia. rewrite Hlen.
    replace (length l1 + n2 - length l1)%nat with n2 by lia. done.
  - intros He. rewrite (He2 He). done.
Qed.

Lemma traverseWithPath_restUntouched data :
  ∀ path w res err w',
    traverseWithPath data path visit w = ((res, err), w') →
    restUntouched (visitedLeaves data path) (visitedLeaves res path) w w' err.
Proof.
  induction data as [s|f|b| |l IH|m IH] using Value_nested_ind;
    intros path w res err w'.
  - simpl. pose proof (count_visit path s w) as Hc.
    destruct (visit path s w) as [[r e] w1]. intros [= <- <- <-].
    exists 1%nat. simpl in *. repeat split; (done || lia).
  - intros [= <- <- <-]. apply (restUntouched_nil w None).
  - intros [= <- <- <-]. apply (restUntouched_nil w None).
  - intros [= <- <- <-]. apply (restUntouched_nil w None).
  - rewrite traverseWithPath_array.
    destruct (traverseSliceFrom traverseWithPath l 0 path visit w) as [[l' e] w1] eqn:Hl.
    intros [= <- <- <-]. cbn [visitedLeaves].
    revert w l' e w1 Hl. generalize 0%nat.
    induction IH as [|v l Hv _ IHl]; intros k w l' e w2.
    + intros [= <- <- <-]. apply (restUntouched_nil w None).
    + rewrite traverseSliceFrom_cons.
      destruct (traverseWithPath v _ visit w) as [[v' e1] w1] eqn:Hv1.
      specialize (Hv _ _ _ _ _ Hv1). destruct e1 as [e1|].
      * intros [= <- <- <-]. rewrite !leavesOfSlice_cons. by apply restUntouched_stop.
      * destruct (traverseSliceFrom traverseWithPath l (S k) path visit w1)
          as [[l'' e2] w3] eqn:Hl2.
        intros [= <- <- <-]. rewrite !leavesOfSlice_cons.
        eapply restUntouched_go; [done|]. by eapply IHl.
  - rewrite traverseWithPath_object.
    destruct (traverseMap traverseWithPath m path visit w) as [[m' e] w1] eqn:Hm.
    intros [= <- <- <-]. cbn [visitedLeaves].
    revert w m' e w1 Hm.
    induction IH as [|[k v] m Hv _ IHm]; intros w m' e w2.
    + intros [= <- <- <-]. apply (restUntouched_nil w None).
    + rewrite traverseMap_cons. simpl in Hv.
      destruct (traverseWithPath v _ visit w) as [[v' e1] w1] eqn:Hv1.
      specialize (Hv _ _ _ _ _ Hv1). destruct e1 as [e1|].
      * intros [= <- <- <-]. rewrite !leavesOfMap_cons. by apply restUntouched_stop.
      * destruct (traverseMap traverseWithPath m path visit w1)
          as [[m'' e2] w3] eqn:Hm2.
        intros [= <- <- <-]. rewrite !leavesOfMap_cons.
        eapply restUntouched_go; [done|]. by eapply IHm.
Qed.

End AfterFailure.

(** X8.  The traversal leaves the strings it did not come to as they were.
    Take the strings of the data in the order of the traversal and let
    [record] be the calls of the visitor, as a recording visitor sees
    them: in the tree handed back the strings are at the same paths, and
    all those after the first [length record] are the strings of the
    data.  With C5, which says that the record ends at the first failure:
    after an error, the strings before the one that failed were visited,
    and every string after it is untouched. *)
Theorem strings_after_a_failure_are_untouched {error World}
    (visit : @visitorFunc error World) (data : Value) (w : World) :
  let t := traverse data visit w in
  ∃ record,
    traverse data (tracedVisit visit) (w, []) = (t.1, (t.2, record))
    ∧ (visitedLeaves t.1.1 "").*1 = (visitedLeaves data "").*1
    ∧ (length record ≤ length (visitedLeaves data ""))%nat
    ∧ drop (length record) (visitedLeaves t.1.1 "")
      = drop (length record) (visitedLeaves data "").
Proof.
  intros t. subst t. unfold traverse.
  destruct (traverseWithPath data "" visit w) as [[res err] w'] eqn:Hrun.
  destruct (traverseWithPath_traced_visitor visit data "" w [] res err w' Hrun)
    as (record & Hrec & _).
  exists record. split; [done|]. cbn [fst snd].
  destruct (traverseWithPath_restUntouched (tracedVisit visit) (λ σ, length σ.2))
    with (data := data) (path := "") (w := (w, @nil (Call * option error)))
         (res := res) (err := err) (w' := (w', [] ++ record))
    as (n & Hc & Hn & Hp & Hd & _); [|done|].
  { intros path s [w0 log]. unfold tracedVisit.
    destruct (visit path s w0) as [[r e] w1]. simpl. rewrite length_app. simpl. lia. }
  simpl in Hc. subst n. done.
Qed.

(** ** The command line of [commandLineFilterRunner] *)

Lemma splitFrom_nonempty sep s : ∀ cur, strings.splitFrom sep s cur ≠ [].
Proof.
  induction s as [|c s IH]; intros cur; simpl; [done|].
  destruct (Ascii.eqb c sep); [done|apply IH].
Qed.

Lemma concat_cons sep x l :
  l ≠ [] → String.concat sep (x :: l) = x +:+ sep +:+ String.concat sep l.
Proof. by destruct l. Qed.

Lemma splitFrom_concat sep s : ∀ cur,
  String.concat (String sep "") (strings.splitFrom sep s cur) = cur +:+ s.
Proof.
  induction s as [|c s IH]; intros cur; cbn [strings.splitFrom].
  - by rewrite append_empty_r.
  - destruct (Ascii.eqb c sep) eqn:Hc.
    + apply Ascii.eqb_eq in Hc as ->.
      rewrite concat_cons by apply splitFrom_nonempty. by rewrite IH.
    + rewrite IH. by rewrite append_assoc.
Qed.

Lemma noneSatisfies_app f a b :
  noneSatisfies f (a +:+ b) = noneSatisfies f a && noneSatisfies f b.
Proof.
  induction a as [|c a IH]; [done|].
  change (String c a +:+ b) with (String c (a +:+ b)).
  cbn [noneSatisfies]. rewrite IH. by rewrite andb_assoc.
Qed.

Lemma splitFrom_no_sep sep s : ∀ cur,
  noneSatisfies (λ c, Ascii.eqb c sep) cur = true →
  Forall (λ part, noneSatisfies (λ c, Ascii.eqb c sep) part = true)
    (strings.splitFrom sep s cur).
Proof.
  induction s as [|c s IH]; intros cur Hcur; cbn [strings.splitFrom].
  - by constructor.
  - destruct (Ascii.eqb c sep) eqn:Hc.
    + constructor; [done|]. by apply IH.
    + apply IH. rewrite noneSatisfies_app, Hcur. simpl. by rewrite Hc.
Qed.

Lemma splitFrom_run sep part : ∀ cur,
  noneSatisfies (λ c, Ascii.eqb c sep) part = true →
  ∀ rest, strings.splitFrom sep (part +:+ rest) cur
          = strings.splitFrom sep rest (cur +:+ part).
Proof.
  induction part as [|c part IH]; intros cur Hpart rest.
  - by rewrite append_empty_r.
  - change (String c part +:+ rest) with (String c (part +:+ rest)).
    cbn [strings.splitFrom]. cbn [noneSatisfies] in Hpart.
    apply andb_true_iff in Hpart as [Hc Hpart].
    apply negb_true_iff in Hc. rewrite Hc.
    rewrite IH by done. by rewrite append_assoc.
Qed.

Lemma Split_concat sep parts :
  parts ≠ [] →
  Forall (λ part, noneSatisfies (λ c, Ascii.eqb c sep) part = true) parts →
  strings.Split (String.concat (String sep "") parts) sep = parts.
Proof.
  unfold strings.Split. intros Hne Hparts.
  induction Hparts as [|part parts Hpart Hparts IH]; [done|].
  destruct parts as [|part' parts].
  - cbn [String.concat]. rewrite <- (append_empty_r part) at 1.
    by rewrite splitFrom_run.
  - rewrite concat_cons by done. rewrite splitFrom_run by done.
    change (String sep "" +:+ ?x) with (String sep x).
    cbn [strings.splitFrom]. rewrite Ascii.eqb_refl.
    f_equal. by apply IH.
Qed.

(** X9.  The command line runner cuts the command at every space and at
    nothing else.  There is always a program name, so [parts[0]] is never
    out of range; the name and the arguments joined by one space each are
    the command again, and none of them has a space in it: no quoting
    keeps two words together, and two spaces in a row give an empty
    argument.  The other way round, a name and arguments without spaces
    are what the runner reads from their joined text.  The process gets
    the string on its standard input, and when it fails what it wrote is
    dropped: the result is the empty string. *)
Theorem the_command_is_cut_at_every_space {error World}
    (execRun : string → list string → string → World → (string * option error) * World)
    (command value : string) (w : World) :
  ∃ name args,
    strings.Split command " " = name :: args
    ∧ String.concat " " (name :: args) = command
    ∧ Forall (λ part, noneSatisfies (λ c, Ascii.eqb c " ") part = true) (name :: args)
    ∧ (∀ parts,
         parts ≠ [] →
         Forall (λ part, noneSatisfies (λ c, Ascii.eqb c " ") part = true) parts →
         strings.Split (String.concat " " parts) " " = parts)
    ∧ commandLineFilterRunner execRun command value w
      = ((match (execRun name args value w).1.2 with
          | None => (execRun name args value w).1.1
          | Some _ => ""
          end,
          (execRun name args value w).1.2),
         (execRun name args value w).2).
Proof.
  pose proof (splitFrom_nonempty " " command "") as Hne.
  pose proof (splitFrom_concat " " command "") as Hjoin.
  pose proof (splitFrom_no_sep " " command "" eq_refl) as Hparts.
  unfold commandLineFilterRunner, strings.Split in *.
  destruct (strings.splitFrom " " command "") as [|name args]; [done|].
  exists name, args. split_and!; try done.
  - intros parts. apply (Split_concat " ").
  - by destruct (execRun name args value w) as [[out [e|]] w'].
Qed.

Lemma the_command_is_cut_at_every_space_witness :
  strings.Split "tr  a-z A-Z" " " = ["tr"; ""; "a-z"; "A-Z"]
  ∧ strings.Split (String.concat " " ["sed"; "-e"; "s/a/b/"]) " " = ["sed"; "-e"; "s/a/b/"].
Proof.
  destruct (the_command_is_cut_at_every_space
              (λ name args stdin (w : unit), ((stdin, @None string), w))
              "tr  a-z A-Z" "x" ())
    as (name & args & Hsplit & _ & _ & Hback & _).
  split; [reflexivity|]. apply Hback; [done|]. repeat constructor.
Defined.

(** ** The string at which the traversal stops *)

Lemma sameShape_paths a : ∀ b path,
  sameShape a b → (visitedLeaves b path).*1 = (visitedLeaves a path).*1.
Proof.
  induction a as [s|f|x| |l IH|m IH] using Value_nested_ind;
    intros [s'|f'|x'| |l'|m'] path Hab; try done.
  - cbn [visitedLeaves]. generalize 0%nat. revert l' Hab.
    induction IH as [|v l Hv _ IHl]; intros [|v' l'] Hab k; try done.
    destruct Hab as [Hvv Hll]. rewrite !leavesOfSlice_cons, !fmap_app.
    f_equal; [by apply Hv|by apply IHl].
  - cbn [visitedLeaves]. revert m' Hab.
    induction IH as [|[k v] m Hv _ IHm]; intros [|[k' v'] m'] Hab; try done.
    destruct Hab as [<- [Hvv Hmm]]. rewrite !leavesOfMap_cons, !fmap_app.
    simpl in Hv. f_equal; [by apply Hv|by apply IHm].
Qed.

Lemma traverseWithPath_leaves_length {error World} (visit : @visitorFunc error World)
    data path w :
  length (visitedLeaves (traverseWithPath data path visit w).1.1 path)
  = length (visitedLeaves data path).
Proof.
  pose proof (sameShape_paths _ _ path (traverseWithPath_sameShape data path visit w)) as H.
  apply (f_equal length) in H. by rewrite !length_fmap in H.
Qed.

Section FailingLeaf.

Context {error World : Type}.
Variable visit : @visitorFunc error World.

(** The traversal of [data] ended with the error [e] in the world [w']:
    the error is that of a call of the visitor on a string of the data,
    the world is the one the call left, and the string is in the result
    what the call returned. *)
Abbreviation failedAt leaves leaves' e w' :=
  (∃ (i : nat) p s w0 r,
     leaves !! i = Some (p, s)
     ∧ visit p s w0 = ((r, Some e), w')
     ∧ leaves' !! i = Some (p, r)).

Lemma failedAt_left (l1 l1' l2 l2' : list Call) (e : error) w' :
  failedAt l1 l1' e w' → failedAt (l1 ++ l2) (l1' ++ l2') e w'.
Proof.
  intros (i & p & s & w0 & r & H1 & Hv & H2).
  exists i, p, s, w0, r. split_and!; [|done|]; by apply lookup_app_l_Some.
Qed.

Lemma failedAt_right (l1 l1' l2 l2' : list Call) (e : error) w' :
  length l1' = length l1 →
  failedAt l2 l2' e w' → failedAt (l1 ++ l2) (l1' ++ l2') e w'.
Proof.
  intros Hl (i & p & s & w0 & r & H1 & Hv & H2).
  exists (length l1 + i)%nat, p, s, w0, r. split_and!; [|done|].
  - by rewrite lookup_app_r, Nat.add_comm, Nat.add_sub by apply Nat.le_add_r.
  - rewrite <- Hl.
    by rewrite lookup_app_r, Nat.add_comm, Nat.add_sub by apply Nat.le_add_r.
Qed.

Lemma traverseWithPath_failedAt data :
  ∀ path w res e w',
    traverseWithPath data path visit w = ((res, Some e), w') →
    failedAt (visitedLeaves data path) (visitedLeaves res path) e w'.
Proof.
  induction data as [s|f|b| |l IH|m IH] using Value_nested_ind;
    intros path w res e w' Hrun; try done.
  - simpl in Hrun. destruct (visit path s w) as [[r err] w1] eqn:Hv.
    injection Hrun as <- -> <-. by exists 0%nat, path, s, w, r.
  - rewrite traverseWithPath_array in Hrun. cbn [visitedLeaves].
    destruct (traverseSliceFrom traverseWithPath l 0 path visit w)
      as [[l' err] w1] eqn:Hloop.
    injection Hrun as <- -> <-. cbn [visitedLeaves].
    revert Hloop. generalize 0%nat. revert w l'.
    induction IH as [|v l Hv _ IHl]; intros w l' k Hloop; [done|].
    rewrite traverseSliceFrom_cons in Hloop.
    pose proof (traverseWithPath_leaves_length visit v
                  (path +:+ "[" +:+ fmt.decimal k +:+ "]") w) as Hlen.
    destruct (traverseWithPath v (path +:+ "[" +:+ fmt.decimal k +:+ "]") visit w)
      as [[v' [e1|]] w2] eqn:Hhead.
    + injection Hloop as <- <- <-. rewrite !leavesOfSlice_cons.
      apply failedAt_left. by eapply Hv.
    + destruct (traverseSliceFrom traverseWithPath l (S k) path visit w2)
        as [[l'' err'] w3] eqn:Htail.
      injection Hloop as <- -> <-. rewrite !leavesOfSlice_cons.
      apply failedAt_right; [done|]. by eapply IHl.
  - rewrite traverseWithPath_object in Hrun. cbn [visitedLeaves].
    destruct (traverseMap traverseWithPath m path visit w)
      as [[m' err] w1] eqn:Hloop.
    injection Hrun as <- -> <-. cbn [visitedLeaves].
    revert Hloop. revert w m'.
    induction IH as [|[k v] m Hv _ IHm]; intros w m' Hloop; [done|].
    rewrite traverseMap_cons in Hloop. simpl in Hv.
    pose proof (traverseWithPath_leaves_length visit v
                  (path +:+ "['" +:+ k +:+ "']") w) as Hlen.
    destruct (traverseWithPath v (path +:+ "['" +:+ k +:+ "']") visit w)
      as [[v' [e1|]] w2] eqn:Hhead.
    + injection Hloop as <- <- <-. rewrite !leavesOfMap_cons.
      apply failedAt_left. by eapply Hv.
    + destruct (traverseMap traverseWithPath m path visit w2)
        as [[m'' err'] w3] eqn:Htail.
      injection Hloop as <- -> <-. rewrite !leavesOfMap_cons.
      apply failedAt_right; [done|]. by eapply IHm.
Qed.

End FailingLeaf.



(** ** Signs in the keys of a positional slice *)

Lemma parseDigits_decimal k : strconv.parseDigits (fmt.decimal k) = Some (Z.of_nat k).
Proof.
  unfold strconv.parseDigits, fmt.decimal. rewrite NilEmpty.usu.
  pose proof (N_to_uint_nonnil (N.of_nat k)) as Hnil.
  destruct (N.to_uint (N.of_nat k)) eqn:Hd; try done;
    cbn [NilEmpty.string_of_uint fmap option_fmap option_map];
    by rewrite <- Hd, DecimalN.Unsigned.of_to, nat_N_Z.
Qed.

Lemma ParseInt_minus k :
  strconv.ParseInt_10_32 ("-" +:+ fmt.decimal k)
  = if Z.of_nat k <=? 2 ^ 31 then Some (- Z.of_nat k) else None.
Proof.
  change ("-" +:+ fmt.decimal k) with (String "-" (fmt.decimal k)).
  unfold strconv.ParseInt_10_32. cbn [Ascii.eqb Bool.eqb andb].
  by rewrite parseDigits_decimal.
Qed.

Lemma ParseInt_plus k :
  strconv.ParseInt_10_32 ("+" +:+ fmt.decimal k) = strconv.ParseInt_10_32 (fmt.decimal k).
Proof.
  rewrite ParseInt_decimal.
  change ("+" +:+ fmt.decimal k) with (String "+" (fmt.decimal k)).
  unfold strconv.ParseInt_10_32. cbn [Ascii.eqb Bool.eqb andb].
  by rewrite parseDigits_decimal.
Qed.

Lemma Trim_signed (sign : ascii) k :
  Ascii.eqb sign "'" = false →
  strings.Trim ("'" +:+ String sign (fmt.decimal k) +:+ "'") "'"
  = String sign (fmt.decimal k).
Proof.
  intros Hsign. rewrite Trim_quoted. apply Trim_id.
  cbn [noneSatisfies]. rewrite Hsign. simpl.
  eapply noneSatisfies_weaken; [apply digit_not_quote|apply decimal_digits].
Qed.

(** X11.  On a slice of filters that is read by position, a key is read
    as a number with [strconv.ParseInt], signs included.  The key of a
    map of the data that is a minus sign and a number other than zero
    never selects a filter; with a plus sign it selects what the position
    of that number selects, and so does [-0] for the first position. *)
Theorem signed_keys_on_a_positional_slice (i : nat) (rest : list string) (s : list Value) :
  length s ≠ 1%nat →
  ((0 < i)%nat →
   getFilterCommandRec (("'" +:+ String "-" (fmt.decimal i) +:+ "'") :: rest) (VArray s)
   = (VNull, false))
  ∧ getFilterCommandRec (("'" +:+ String "+" (fmt.decimal i) +:+ "'") :: rest) (VArray s)
    = getFilterCommandRec (fmt.decimal i :: rest) (VArray s)
  ∧ getFilterCommandRec (("'" +:+ String "-" (fmt.decimal 0) +:+ "'") :: rest) (VArray s)
    = getFilterCommandRec (fmt.decimal 0 :: rest) (VArray s).
Proof.
  intros Hlen. rewrite !(getFilterCommandRec_positional _ _ _ Hlen).
  rewrite !Trim_signed, !Trim_decimal by done.
  change (String "-" ?x) with ("-" +:+ x). change (String "+" ?x) with ("+" +:+ x).
  rewrite !ParseInt_minus, ParseInt_plus. split_and!; [|done|done].
  intros Hi. destruct (Z.of_nat i <=? 2 ^ 31); [|done].
  rewrite (proj2 (Z.leb_gt _ _)) by lia. by rewrite andb_false_r.
Qed.

Lemma signed_keys_on_a_positional_slice_witness :
  getFilterCommandRec ["'-1'"] (VArray [VString "upper"; VString "lower"]) = (VNull, false)
  ∧ getFilterCommandRec ["'+1'"] (VArray [VString "upper"; VString "lower"])
    = (VString "lower", true)
  ∧ getFilterCommandRec ["'-0'"] (VArray [VString "upper"; VString "lower"])
    = (VString "upper", true).
Proof.
  destruct (signed_keys_on_a_positional_slice 1 [] [VString "upper"; VString "lower"])
    as (Hminus & Hplus & Hzero); [done|].
  split_and!; [exact (Hminus (Nat.lt_0_succ 0))|exact Hplus|exact Hzero].
Defined.

(** ** A runner that is a function of its arguments *)

(** A visitor that never returns an error: the traversal returns none. *)
Lemma traverseWithPath_never_fails {error World} (visit : @visitorFunc error World) :
  (∀ path s w, (visit path s w).1.2 = None) →
  ∀ data path w, (traverseWithPath data path visit w).1.2 = None.
Proof.
  intros Hvisit data path w.
  destruct (traverseWithPath data path visit w) as [[res [e|]] w'] eqn:Hrun; [|done].
  destruct (traverseWithPath_failedAt _ _ _ _ _ _ _ Hrun)
    as (i & p & s & w0 & r & _ & Hv & _).
  specialize (Hvisit p s w0). by rewrite Hv in Hvisit.
Qed.

(** X12.  With a runner whose result is a function [f] of the command and
    the string and which never fails, [doFilter] never fails, and a string
    under a map or a slice of the data is afterwards [f] of the command of
    its path and the string, or the string itself where its path has no
    command; data that is one string is handed back as it is, command or
    not.  Nothing else enters: not the other strings, not the calls made
    before, and not the order in which [range] went over the entries of
    the maps. *)
Theorem a_pure_runner_decides_by_path {error World}
    (commandLineFilterRunner : @FilterRunner error World)
    (readJsonFromFile : string → Value * option error)
    data filter (run : @FilterRunner error World) (f : string → string → string)
    w filters :
  loadFilters readJsonFromFile filter = (filters, None) →
  (∀ command value w0, (run command value w0).1 = (f command value, None)) →
  (doFilter commandLineFilterRunner readJsonFromFile data filter (Some run) w).1.2 = None
  ∧ ∀ segs s,
      valueAt segs data = Some (VString s) →
      valueAt segs
        (doFilter commandLineFilterRunner readJsonFromFile data filter (Some run) w).1.1
      = Some (VString (match segs, getFilterCommand (pathOf segs) filters with
                       | _ :: _, (command, true) => f command s
                       | _, _ => s
                       end)).
Proof.
  intros Hload Hrun. rewrite (doFilter_loaded _ _ _ _ _ _ _ Hload).
  pose proof (traverseWithPath_never_fails
                (filterVisitor commandLineFilterRunner filters (Some run))) as Hnone.
  unfold traverse.
  destruct (traverseWithPath data ""
              (filterVisitor commandLineFilterRunner filters (Some run)) w)
    as [[res err] w'] eqn:Htrav.
  assert (err = None) as ->.
  { specialize (Hnone) with (data := data) (path := "") (w := w).
    rewrite Htrav in Hnone. apply Hnone. intros path s w0.
    unfold filterVisitor, doRunFilter.
    destruct (getFilterCommand path filters) as [command [|]]; [|done].
    by rewrite Hrun. }
  split; [done|]. intros segs s Hat. cbn [fst snd].
  destruct segs as [|seg segs].
  { simpl in Hat. by injection Hat as ->. }
  assert (afterTraverse data res = res) as ->.
  { destruct data; try done; by destruct seg. }
  destruct (getFilterCommand (pathOf (seg :: segs)) filters) as [command [|]] eqn:Hcmd.
  - destruct (leaf_filtered commandLineFilterRunner data filters (Some run) w res w'
                (seg :: segs) s command Htrav Hat Hcmd) as (w0 & r & w1 & Hr & ->).
    simpl in Hr. specialize (Hrun command s w0). rewrite Hr in Hrun.
    by injection Hrun as ->.
  - pose proof (leaf_unmatched commandLineFilterRunner data filters (Some run) w
                  (seg :: segs) s Hat) as Hleaf.
    unfold traverse in Hleaf. rewrite Htrav, Hcmd in Hleaf. by apply Hleaf.
Qed.

Lemma a_pure_runner_decides_by_path_witness :
  (doFilter upperRunner noFile
     (VObject [("a", VString "x"); ("b", VArray [VString "y"])]) "upper"
     (Some (λ command value w, ((ToUpper value, None), S w))) 0%nat).1.2 = None
  ∧ valueAt [Key "b"; Index 0]
      (doFilter upperRunner noFile
         (VObject [("a", VString "x"); ("b", VArray [VString "y"])]) "upper"
         (Some (λ command value w, ((ToUpper value, None), S w))) 0%nat).1.1
    = Some (VString "Y")
  ∧ valueAt []
      (doFilter upperRunner noFile (VString "hello") "upper"
         (Some (λ command value w, ((ToUpper value, None), S w))) 0%nat).1.1
    = Some (VString "hello").
Proof.
  destruct (a_pure_runner_decides_by_path upperRunner noFile
              (VObject [("a", VString "x"); ("b", VArray [VString "y"])]) "upper"
              (λ command value w, ((ToUpper value, None), S w))
              (λ command value, ToUpper value) 0%nat (VString "upper"))
    as [Herr Hat]; [reflexivity|done|].
  destruct (a_pure_runner_decides_by_path upperRunner noFile
              (VString "hello") "upper"
              (λ command value w, ((ToUpper value, None), S w))
              (λ command value, ToUpper value) 0%nat (VString "upper"))
    as [_ Hroot]; [reflexivity|done|].
  split_and!; [exact Herr| |].
  - by apply (Hat [Key "b"; Index 0] "y").
  - by apply (Hroot [] "hello").
Defined.

(** ** The data on the heap *)

Lemma sameShape_height a : ∀ b, sameShape a b → height b = height a.
Proof.
  induction a as [s|f|x| |l IH|m IH] using Value_nested_ind;
    intros [s'|f'|x'| |l'|m'] Hab; try done.
  - cbn [height]. f_equal. revert l' Hab.
    induction IH as [|v l Hv _ IHl]; intros [|v' l'] Hab; try done.
    destruct Hab as [Hvv Hll]. cbn [fold_right].
    f_equal; [by apply Hv|by apply IHl].
  - cbn [height]. f_equal. revert m' Hab.
    induction IH as [|[k v] m Hv _ IHm]; intros [|[k' v'] m'] Hab; try done.
    destruct Hab as [_ [Hvv Hmm]]. cbn [fold_right]. simpl in Hv.
    f_equal; [by apply Hv|by apply IHm].
Qed.

(** X13.  The package filters the decoded value where it is.  On the
    heap, [FilterJsonFromTextWithFilterRunner] hands back the very value
    the decoder made, with the error and the calls of the runner of the
    function on trees; read from the heap after the call, with or without
    an error, that value is the tree the function on trees returns.  So
    whoever holds a map or a slice of the data sees the filtered
    strings. *)
Theorem the_data_is_filtered_in_place {error World}
    (commandLineFilterRunner : @FilterRunner error World)
    (readJsonFromFile readJsonFromText : string → Value * option error)
    (fuel : nat) (jsonText filter : string)
    (filterRunner : option (@FilterRunner error World))
    (h : gmap nat InPlace.cell) (free : nat) (w : World) :
  let data := (readJsonFromText jsonText).1 in
  let dec := InPlace.decoded (readJsonFromText jsonText) h free in
  let r := FilterJsonFromTextWithFilterRunner commandLineFilterRunner readJsonFromFile
             readJsonFromText jsonText filter filterRunner w in
  wf_value data = true → (height data < fuel)%nat → (readJsonFromText jsonText).2 = None →
  ∃ (h' : gmap nat InPlace.cell) free',
    InPlace.FilterJsonFromTextWithFilterRunner commandLineFilterRunner readJsonFromFile
      readJsonFromText fuel jsonText filter filterRunner h free w
    = Some ((dec.1.1, r.1.2), (h', free'), r.2)
    ∧ InPlace.readBack (S (height data)) h' dec.1.1 = Some r.1.1.
Proof.
  intros data dec r Hwf Hfuel Hok.
  destruct (FilterJsonFromTextWithFilterRunner_refines commandLineFilterRunner
              readJsonFromFile readJsonFromText fuel jsonText filter filterRunner
              h free w Hwf Hfuel Hok) as (h' & Hrun & Hrep & _).
  eexists h', _. split; [exact Hrun|].
  eapply rep_readBack; [exact Hrep|].
  assert (sameShape data r.1.1) as Hshape.
  { subst r data. unfold FilterJsonFromTextWithFilterRunner.
    destruct (readJsonFromText jsonText) as [value [e|]]; [done|]. simpl.
    unfold doFilter. destruct (loadFilters readJsonFromFile filter) as [filters [e|]].
    { apply sameShape_refl. }
    pose proof (traverseWithPath_sameShape value ""
      (λ path v, doRunFilter commandLineFilterRunner path v filters filterRunner) w)
      as Hs.
    unfold traverse. destruct (traverseWithPath value "" _ w) as [[result err] w'].
    simpl in *. destruct value; simpl; try done; apply sameShape_refl. }
  rewrite (sameShape_height _ _ Hshape). lia.
Qed.

Lemma the_data_is_filtered_in_place_witness :
  let data := VObject [("a", VArray [VString "x"; VString "y"])] in
  let tf := VObject [("a", VArray [VString "upper"; VString "lower"])] in
  ∃ (h' : gmap nat InPlace.cell) free',
    InPlace.FilterJsonFromTextWithFilterRunner upperRunner (oneFile "filters.json" tf)
      (λ _, (data, None)) 3 "text" "filters.json" (Some upperRunner) ∅ 0%nat 0%nat
    = Some ((InPlace.IMap 0, Some "Unexpected command :: lower"), (h', free'), 2%nat)
    ∧ InPlace.readBack 3 h' (InPlace.IMap 0)
      = Some (VObject [("a", VArray [VString "X"; VString ""])]).
Proof.
  intros data tf.
  exact (the_data_is_filtered_in_place upperRunner (oneFile "filters.json" tf)
           (λ _, (data, None)) 3 "text" "filters.json" (Some upperRunner) ∅ 0%nat 0%nat
           eq_refl (le_n 3) eq_refl).
Defined.

(** ** The end of the input *)

Lemma readJsonFromReader_EOF {error Reader} `{EqDecision error}
    (io_EOF : error) (Decode : Reader → Value * option error) reader value :
  Decode reader = (value, Some io_EOF) →
  readJsonFromReader io_EOF Decode reader = (value, None).
Proof. unfold readJsonFromReader. intros ->. by rewrite bool_decide_eq_true_2. Qed.

(** X14.  The end of the input is no error.  [readJsonFromReader] never
    returns [io.EOF]; where the decoder finds the input at its end before
    any value, the value is [nil], and [FilterJsonFromReader] and
    [FilterJsonFromReaderWithFilterRunner] go on to load the filters:
    they return [nil] with the error of loading the filters, if any, and
    no runner is called. *)
Theorem the_end_of_the_input_is_no_error {error World Reader} `{EqDecision error}
    (io_EOF : error) (Decode : Reader → Value * option error)
    (os_Open : string → Reader + error)
    (commandLineFilterRunner : @FilterRunner error World)
    (reader : Reader) (filter : string) (filterRunner : option FilterRunner) (w : World) :
  Decode reader = (VNull, Some io_EOF) →
  (∀ r, (readJsonFromReader io_EOF Decode r).2 ≠ Some io_EOF)
  ∧ FilterJsonFromReader io_EOF Decode os_Open commandLineFilterRunner reader filter w
    = ((VNull, (loadFilters (readJsonFromFile io_EOF Decode os_Open) filter).2), w)
  ∧ FilterJsonFromReaderWithFilterRunner io_EOF Decode os_Open commandLineFilterRunner
      reader filter filterRunner w
    = ((VNull, (loadFilters (readJsonFromFile io_EOF Decode os_Open) filter).2), w).
Proof.
  intros Heof. split_and!.
  - intros r. unfold readJsonFromReader. destruct (Decode r) as [value err].
    case_bool_decide as Herr; simpl; [done|done].
  - unfold FilterJsonFromReader. rewrite (readJsonFromReader_EOF _ _ _ _ Heof).
    unfold doFilter.
    by destruct (loadFilters (readJsonFromFile io_EOF Decode os_Open) filter)
      as [filters [e|]].
  - unfold FilterJsonFromReaderWithFilterRunner.
    rewrite (readJsonFromReader_EOF _ _ _ _ Heof). unfold doFilter.
    by destruct (loadFilters (readJsonFromFile io_EOF Decode os_Open) filter)
      as [filters [e|]].
Qed.

Lemma the_end_of_the_input_is_no_error_witness :
  FilterJsonFromReader "EOF"
    (λ text : string, if String.eqb text "" then (VNull, Some "EOF")
                      else (VString text, None))
    (λ name, inr ("open " +:+ name +:+ ": no such file or directory"))
    upperRunner "" "filters.json" 0%nat
  = ((VNull, Some "open filters.json: no such file or directory"), 0%nat).
Proof.
  apply (the_end_of_the_input_is_no_error "EOF"
           (λ text : string, if String.eqb text "" then (VNull, Some "EOF")
                             else (VString text, None))
           (λ name, inr ("open " +:+ name +:+ ": no such file or directory"))
           upperRunner "" "filters.json" None 0%nat eq_refl).
Defined.

(** X15.  A file of filters that is empty is no error either: its
    filters are [nil], no path has a command, and [doFilter] leaves the
    data as it is, calls no runner and returns no error. *)
Theorem an_empty_file_of_filters_filters_nothing {error World Reader} `{EqDecision error}
    (io_EOF : error) (Decode : Reader → Value * option error)
    (os_Open : string → Reader + error)
    (commandLineFilterRunner : @FilterRunner error World)
    (file : Reader) (data : Value) (filter : string)
    (filterRunner : option FilterRunner) (w : World) :
  strings.HasSuffix filter ".json" = true →
  os_Open filter = inl file →
  Decode file = (VNull, Some io_EOF) →
  doFilter commandLineFilterRunner (readJsonFromFile io_EOF Decode os_Open)
    data filter filterRunner w
  = ((data, None), w).
Proof.
  intros Hjson Hopen Heof.
  assert (loadFilters (readJsonFromFile io_EOF Decode os_Open) filter = (VNull, None))
    as Hload.
  { unfold loadFilters, readJsonFromFile. rewrite Hjson, Hopen.
    by apply readJsonFromReader_EOF. }
  rewrite (doFilter_loaded _ _ _ _ _ _ _ Hload).
  destruct (traverseWithPath_unchanged
              (filterVisitor commandLineFilterRunner VNull filterRunner) eq)
    with (data := data) (path := "") (w := w) as (w' & Htr & <-);
    [done|congruence| |].
  { intros path s w0. exists w0. split; [|done]. unfold filterVisitor.
    apply doRunFilter_unmatched. by rewrite getFilterCommand_no_strings. }
  unfold traverse, filterVisitor in *. rewrite Htr. by destruct data.
Qed.

Lemma an_empty_file_of_filters_filters_nothing_witness :
  doFilter upperRunner
    (readJsonFromFile "EOF"
       (λ content : string, if String.eqb content "" then (VNull, Some "EOF")
                            else (VString content, None))
       (λ name, if String.eqb name "empty.json" then inl "" else inr "no such file"))
    (VObject [("a", VString "x")]) "empty.json" (Some upperRunner) 0%nat
  = ((VObject [("a", VString "x")], None), 0%nat).
Proof.
  apply (an_empty_file_of_filters_filters_nothing "EOF"
           (λ content : string, if String.eqb content "" then (VNull, Some "EOF")
                                else (VString content, None))
           (λ name, if String.eqb name "empty.json" then inl "" else inr "no such file")
           upperRunner "" (VObject [("a", VString "x")]) "empty.json"
           (Some upperRunner) 0%nat); reflexivity.
Defined.

(** ** The command [jsonfilter] *)

Lemma isPiped_true stat : Main.isPiped stat = true ↔ stat = Some Main.ModeNamedPipe.
Proof.
  destruct stat as [mode|]; simpl; [|by split].
  rewrite Z.eqb_eq. split; [by intros ->|by intros [= ->]].
Qed.

Lemma length_eqb_0 s : (String.length s =? 0)%nat = false ↔ s ≠ "".
Proof. destruct s; simpl; split; congruence. Qed.

(** X16.  [isPiped] compares the whole mode of the file with
    [os.ModeNamedPipe].  A pipe whose mode has a permission bit in it, as
    the mode [prw-------], is not taken for a pipe: without exactly one
    argument the command then does not read its standard input and exits
    with the code 1. *)
Theorem a_pipe_with_permission_bits_is_not_piped {error}
    (mode : Z) (filter output : string) (args : list string)
    (stdin : string * option error) :
  Z.land mode Main.ModePerm ≠ 0 →
  Main.isPiped (Some mode) = false
  ∧ (length args ≠ 1%nat →
     Main.init (Main.Flags false filter output args) (Some mode) stdin = Main.Exit 1).
Proof.
  intros Hperm.
  assert (Main.isPiped (Some mode) = false) as Hpiped.
  { apply not_true_is_false. rewrite isPiped_true. intros [= ->]. by apply Hperm. }
  split; [done|]. intros Hargs. unfold Main.init. rewrite Hpiped.
  by destruct args as [|arg0 [|arg1 args]].
Qed.

Lemma a_pipe_with_permission_bits_is_not_piped_witness :
  Main.isPiped (Some (Z.lor Main.ModeNamedPipe 384)) = false
  ∧ Main.init (Main.Flags false "upper" "" []) (Some (Z.lor Main.ModeNamedPipe 384))
      ("[1]", @None string) = Main.Exit 1.
Proof.
  destruct (a_pipe_with_permission_bits_is_not_piped
              (Z.lor Main.ModeNamedPipe 384) "upper" "" [] ("[1]", @None string))
    as [Hpiped Hinit]; [done|].
  split; [exact Hpiped|]. by apply Hinit.
Defined.

(** X17.  What the command writes is what the package made of the text.
    When [jsonfilter] ends having written a value, [flag.Parse] had
    returned, and the value is the result without an error of
    [FilterJsonFromText] for a text and the filter of the flags, neither
    of them empty; the help was not asked for; the text is the one
    argument, which then is neither [/?] nor [help], or it was read
    without an error from a standard input whose mode is that of a pipe;
    and the value went to the standard output, or to the file of the flag
    [output], which was created, when the flag is given and the standard
    output is no pipe. *)
Theorem what_is_written_was_filtered {error}
    (FilterJsonFromText : string → string → Value * option error)
    (os_Create : string → option error)
    (doWrite : Main.Writer → Value → option error)
    (parsed : Main.Parsed)
    (stdinStat stdoutStat : option Z) (stdin : string * option error)
    (writer : Main.Writer) (value : Value) :
  Main.jsonfilter FilterJsonFromText os_Create doWrite parsed stdinStat stdoutStat stdin
  = inr (Main.Returned (Some (writer, value))) →
  ∃ help filter output args jsontext,
    parsed = Main.Flags help filter output args
    ∧ FilterJsonFromText jsontext filter = (value, None)
    ∧ jsontext ≠ "" ∧ filter ≠ "" ∧ help = false
    ∧ ((args = [jsontext] ∧ jsontext ≠ "/?" ∧ jsontext ≠ "help")
       ∨ (length args ≠ 1%nat ∧ stdinStat = Some Main.ModeNamedPipe
          ∧ stdin = (jsontext, None)))
    ∧ doWrite writer value = None
    ∧ (writer = Main.Stdout
       ∨ (writer = Main.File output ∧ output ≠ ""
          ∧ stdoutStat ≠ Some Main.ModeNamedPipe ∧ os_Create output = None)).
Proof.
  unfold Main.jsonfilter. intros Hrun.
  destruct (Main.init parsed stdinStat stdin) as [code|jsontext filter output] eqn:Hinit;
    [done|].
  injection Hrun as Hmain.
  destruct parsed as [code|help filter0 output0 args]; [done|].
  exists help, filter, output, args, jsontext.
  assert (filter0 = filter ∧ output0 = output ∧ filter ≠ "" ∧ help = false
          ∧ ((args = [jsontext] ∧ jsontext ≠ "/?" ∧ jsontext ≠ "help")
             ∨ (length args ≠ 1%nat ∧ stdinStat = Some Main.ModeNamedPipe
                ∧ stdin = (jsontext, None))))
    as (-> & -> & Hfilter & Hhelp & Hfrom).
  { unfold Main.init in Hinit. destruct help; [done|].
    assert (∀ text, (if (String.length filter0 =? 0)%nat
                     then Main.Exit 1 else Main.Ready text filter0 output0)
                    = Main.Ready jsontext filter output →
                    filter0 = filter ∧ output0 = output ∧ filter ≠ "" ∧ text = jsontext)
      as Hcheck.
    { intros text. destruct (String.length filter0 =? 0)%nat eqn:Hlen; [done|].
      intros [= -> <- <-]. by apply length_eqb_0 in Hlen. }
    destruct args as [|arg0 [|arg1 args]].
    - destruct (Main.isPiped stdinStat) eqn:Hpiped; [|done].
      apply isPiped_true in Hpiped. destruct stdin as [text [e|]]; [done|].
      apply Hcheck in Hinit as (? & ? & ? & ->). split_and!; [done..|].
      right. by split_and!.
    - destruct (String.eqb arg0 "/?" || String.eqb arg0 "help") eqn:Harg; [done|].
      apply orb_false_iff in Harg as [H1 H2].
      apply String.eqb_neq in H1, H2.
      apply Hcheck in Hinit as (? & ? & ? & ->). split_and!; [done..|].
      left. by split_and!.
    - destruct (Main.isPiped stdinStat) eqn:Hpiped; [|done].
      apply isPiped_true in Hpiped. destruct stdin as [text [e|]]; [done|].
      apply Hcheck in Hinit as (? & ? & ? & ->). split_and!; [done..|].
      right. by split_and!. }
  unfold Main.main in Hmain.
  destruct (String.length jsontext =? 0)%nat eqn:Htext; [done|].
  apply length_eqb_0 in Htext.
  destruct (FilterJsonFromText jsontext filter) as [v [e|]]; [done|].
  unfold Main.createWriter in Hmain.
  destruct (String.length output =? 0)%nat eqn:Hout.
  - simpl in Hmain. destruct (doWrite Main.Stdout v) as [e|] eqn:Hw; [done|].
    injection Hmain as <- <-. split_and!; try done. by left.
  - apply length_eqb_0 in Hout. cbn [orb] in Hmain.
    destruct (Main.isPiped stdoutStat) eqn:Hpiped.
    + destruct (doWrite Main.Stdout v) as [e|] eqn:Hw; [done|].
      injection Hmain as <- <-. split_and!; try done. by left.
    + destruct (os_Create output) as [e|] eqn:Hcreate; [done|].
      destruct (doWrite (Main.File output) v) as [e|] eqn:Hw; [done|].
      injection Hmain as <- <-. split_and!; try done. right. split_and!; try done.
      intros ->. by rewrite (proj2 (isPiped_true _) eq_refl) in Hpiped.
Qed.

Lemma what_is_written_was_filtered_witness :
  ∃ help filter output args jsontext,
    Main.Flags false "upper" "out.json" ["abc"] = Main.Flags help filter output args
    ∧ (λ text filter : string, (VString (ToUpper text), @None string)) jsontext filter
      = (VString "ABC", None)
    ∧ jsontext ≠ "" ∧ filter ≠ "" ∧ help = false
    ∧ ((args = [jsontext] ∧ jsontext ≠ "/?" ∧ jsontext ≠ "help")
       ∨ (length args ≠ 1%nat ∧ None = Some Main.ModeNamedPipe
          ∧ ("", @None string) = (jsontext, None)))
    ∧ (λ (_ : Main.Writer) (_ : Value), @None string) (Main.File "out.json")
        (VString "ABC") = None
    ∧ (Main.File "out.json" = Main.Stdout
       ∨ (Main.File "out.json" = Main.File output ∧ output ≠ ""
          ∧ None ≠ Some Main.ModeNamedPipe
          ∧ (λ _ : string, @None string) output = None)).
Proof.
  apply (what_is_written_was_filtered
           (λ text filter : string, (VString (ToUpper text), @None string))
           (λ _ : string, @None string)
           (λ (_ : Main.Writer) (_ : Value), @None string)
           (Main.Flags false "upper" "out.json" ["abc"]) None None ("", @None string)
           (Main.File "out.json") (VString "ABC")).
  reflexivity.
Defined.

(** ** A filter that ends in [.json] *)

Lemma length_append (s t : string) :
  String.length (s +:+ t) = (String.length s + String.length t)%nat.
Proof.
  induction s as [|c s IH]; [done|].
  change (String c s +:+ t) with (String c (s +:+ t)). simpl. by rewrite IH.
Qed.

Lemma substring_all t : String.substring 0 (String.length t) t = t.
Proof. induction t as [|c t IH]; [done|]. simpl. by rewrite IH. Qed.

Lemma substring_append s t :
  String.substring (String.length s) (String.length t) (s +:+ t) = t.
Proof.
  induction s as [|c s IH]; [apply substring_all|].
  change (String c s +:+ t) with (String c (s +:+ t)). by simpl.
Qed.

Lemma HasSuffix_append s suffix : strings.HasSuffix (s +:+ suffix) suffix = true.
Proof.
  unfold strings.HasSuffix. rewrite length_append.
  rewrite (proj2 (Nat.leb_le _ _)) by lia.
  replace (String.length s + String.length suffix - String.length suffix)%nat
    with (String.length s) by lia.
  rewrite substring_append. by rewrite String.eqb_refl.
Qed.

(** X18.  A filter whose text ends in [.json] is the name of a file and
    never a command, whatever comes before the suffix, spaces included.
    Where no such file can be opened, [doFilter] returns the error of
    [os.Open], leaves the data as it is and calls no runner. *)
Theorem a_filter_that_ends_in_json_is_a_file {error World Reader} `{EqDecision error}
    (io_EOF : error) (Decode : Reader → Value * option error)
    (os_Open : string → Reader + error)
    (commandLineFilterRunner : @FilterRunner error World)
    (data : Value) (prefix : string) (filterRunner : option FilterRunner) (w : World)
    (err : error) :
  os_Open (prefix +:+ ".json") = inr err →
  loadFilters (readJsonFromFile io_EOF Decode os_Open) (prefix +:+ ".json")
  = (VNull, Some err)
  ∧ doFilter commandLineFilterRunner (readJsonFromFile io_EOF Decode os_Open)
      data (prefix +:+ ".json") filterRunner w
    = ((data, Some err), w).
Proof.
  intros Hopen.
  assert (loadFilters (readJsonFromFile io_EOF Decode os_Open) (prefix +:+ ".json")
          = (VNull, Some err)) as Hload.
  { unfold loadFilters, readJsonFromFile. by rewrite HasSuffix_append, Hopen. }
  split; [done|]. by rewrite (doFilter_not_loaded _ _ _ _ _ _ _ _ Hload).
Qed.

Lemma a_filter_that_ends_in_json_is_a_file_witness :
  doFilter upperRunner
    (readJsonFromFile "EOF" (λ content : string, (VString content, None))
       (λ name, inr ("open " +:+ name +:+ ": no such file or directory")))
    (VArray [VString "x"]) "cat names.json" (Some upperRunner) 0%nat
  = ((VArray [VString "x"], Some "open cat names.json: no such file or directory"),
     0%nat).
Proof.
  apply (a_filter_that_ends_in_json_is_a_file "EOF"
           (λ content : string, (VString content, None))
           (λ name, inr ("open " +:+ name +:+ ": no such file or directory"))
           upperRunner (VArray [VString "x"]) "cat names" (Some upperRunner) 0%nat
           "open cat names.json: no such file or directory" eq_refl).
Defined.

(** ** Positions and the keys of a map of filters *)

(** X19.  A map of filters does not tell a position from a key.  For the
    string at position [i] of a slice of the data the resolver asks the
    map of filters for the key that is the decimal text of [i]: the
    filter under the key [0] of a map is the filter of the first element
    of a slice. *)
Theorem a_position_selects_a_key_of_a_map (i : nat) (rest : list string)
    (m : list (string * Value)) :
  getFilterCommandRec (fmt.decimal i :: rest) (VObject m)
  = match mapLookup (fmt.decimal i) m with
    | Some v => getFilterCommandRec rest v
    | None => (VNull, false)
    end
  ∧ ∀ command,
      getFilterCommand (pathOf [Index i]) (VObject ((fmt.decimal i, VString command) :: m))
      = (command, true).
Proof.
  split.
  - cbn [getFilterCommandRec]. by rewrite Trim_decimal.
  - intros command. unfold getFilterCommand.
    change (pathOf [Index i]) with (pathOf ([] ++ [Index i])).
    rewrite FieldsFunc_pathOf_snoc_index. cbn [pathOf extendPath fold_left app].
    change (strings.FieldsFunc "" isBracket) with (@nil string). cbn [app].
    cbn [getFilterCommandRec]. rewrite Trim_decimal. cbn [mapLookup].
    by rewrite String.eqb_refl.
Qed.

(** ** The commands the runner is called with *)

Lemma mapLookup_elem {A} key (m : list (string * A)) v :
  mapLookup key m = Some v → ∃ k, (k, v) ∈ m.
Proof.
  induction m as [|[k0 v0] m IH]; [done|]. simpl.
  destruct (String.eqb k0 key).
  - intros [= ->]. exists k0. by left.
  - intros [k Hk]%IH. exists k. by right.
Qed.

Lemma stringLeaves_elem c x (l : list Value) :
  x ∈ l → c ∈ stringLeaves x → c ∈ stringLeaves (VArray l).
Proof. intros Hx Hc. cbn [stringLeaves]. apply list_elem_of_In, in_flat_map.
  exists x. by rewrite <- !list_elem_of_In. Qed.

Lemma stringLeaves_entry c k x (m : list (string * Value)) :
  (k, x) ∈ m → c ∈ stringLeaves x → c ∈ stringLeaves (VObject m).
Proof. intros Hx Hc. cbn [stringLeaves]. apply list_elem_of_In, in_flat_map.
  exists (k, x). by rewrite <- !list_elem_of_In. Qed.

Lemma getFilterCommandRec_in_filters keys : ∀ filters c,
  getFilterCommandRec keys filters = (VString c, true) → c ∈ stringLeaves filters.
Proof.
  induction keys as [|k keys IH]; intros filters c.
  - intros [= ->]. simpl. by left.
  - destruct filters as [s|f|b| |l|m]; try done.
    + intros [= ->]. simpl. by left.
    + cbn [getFilterCommandRec]. destruct l as [|x [|y l]].
      * by destruct (strconv.ParseInt_10_32 _) as [i|]; [destruct (_ && _)|].
      * intros Hc%IH. eapply stringLeaves_elem; [|done]. by left.
      * destruct (strconv.ParseInt_10_32 _) as [i|]; [|done].
        destruct (_ && _); [|done].
        destruct (_ !! _) as [si|] eqn:Hsi; [|done].
        intros Hc%IH. eapply stringLeaves_elem; [|done].
        by eapply list_elem_of_lookup_2.
    + cbn [getFilterCommandRec]. destruct (mapLookup _ m) as [v|] eqn:Hv; [|done].
      intros Hc%IH. apply mapLookup_elem in Hv as [k0 Hk0].
      by eapply stringLeaves_entry.
Qed.

Lemma getFilterCommand_in_filters path filters command :
  getFilterCommand path filters = (command, true) → command ∈ stringLeaves filters.
Proof.
  unfold getFilterCommand.
  destruct (getFilterCommandRec _ filters) as [[s|f|b| |l|m] [|]] eqn:Hrec; try done.
  intros [= <-]. by eapply getFilterCommandRec_in_filters.
Qed.

Lemma matchedLeaves_commands filters data :
  ∀ path c, c ∈ matchedLeaves filters data path → c.1 ∈ stringLeaves filters.
Proof.
  induction data as [s|f|b| |l IH|m IH] using Value_nested_ind; intros path c;
    try (by intros ?%elem_of_nil).
  - rewrite matchedLeaves_string.
    destruct (getFilterCommand path filters) as [cmd [|]] eqn:Hcmd.
    + rewrite list_elem_of_singleton. intros ->. simpl.
      by eapply getFilterCommand_in_filters.
    + by intros ?%elem_of_nil.
  - cbn [matchedLeaves]. generalize 0%nat.
    induction IH as [|v l Hv _ IHl]; intros k.
    + by intros ?%elem_of_nil.
    + rewrite leavesOfSlice_cons. rewrite elem_of_app. intros [Hc|Hc]; eauto.
  - cbn [matchedLeaves].
    induction IH as [|[k v] m Hv _ IHm].
    + by intros ?%elem_of_nil.
    + rewrite leavesOfMap_cons. rewrite elem_of_app. intros [Hc|Hc]; eauto.
Qed.

(** X20.  The resolver makes up no command: the command it finds for a
    path is one of the strings of the filters.  So every call of the
    runner that [doFilter] makes, the failing one included, is with a
    command that is a string of the filters; for a filter that is no
    file, with the filter itself. *)
Theorem commands_are_strings_of_the_filters {error World}
    (commandLineFilterRunner : @FilterRunner error World)
    (readJsonFromFile : string → Value * option error)
    data filter filterRunner w filters :
  loadFilters readJsonFromFile filter = (filters, None) →
  (∀ path command,
     getFilterCommand path filters = (command, true) → command ∈ stringLeaves filters)
  ∧ ∀ call,
      call ∈ (doFilter (traced commandLineFilterRunner) readJsonFromFile data filter
                (traced <$> filterRunner) (w, [])).2.2 →
      call.1.1 ∈ stringLeaves filters.
Proof.
  intros Hload. split; [intros path command; apply getFilterCommand_in_filters|].
  destruct (doFilter_traced commandLineFilterRunner readJsonFromFile data filter
              filterRunner w []) as (new & -> & Hnew).
  rewrite Hload in Hnew. cbn [snd app]. intros call Hcall.
  apply (failFast_calls _ _ _ Hnew) in Hcall.
  by eapply matchedLeaves_commands.
Qed.

Lemma commands_are_strings_of_the_filters_witness :
  (("upper", "x"), None)
  ∈ (doFilter (traced upperRunner) noFile
       (VObject [("a", VString "x"); ("b", VArray [VString "y"])]) "upper"
       (traced <$> Some upperRunner) (0%nat, [])).2.2
  ∧ "upper" ∈ stringLeaves (VString "upper").
Proof.
  assert ((("upper", "x"), None)
          ∈ (doFilter (traced upperRunner) noFile
               (VObject [("a", VString "x"); ("b", VArray [VString "y"])]) "upper"
               (traced <$> Some upperRunner) (0%nat, [])).2.2) as Hcall.
  { vm_compute. by left. }
  split; [exact Hcall|].
  exact (proj2 (commands_are_strings_of_the_filters upperRunner noFile
                  (VObject [("a", VString "x"); ("b", VArray [VString "y"])]) "upper"
                  (Some upperRunner) 0%nat (VString "upper") eq_refl)
           (("upper", "x"), None) Hcall).
Defined.

(** ** How the command exits *)

(** X21.  Where [flag.Parse] ends the command itself, as it does for a
    flag that is not defined, [init] ends with the code of [flag.Parse]
    and looks at nothing else.  Where [flag.Parse] returns, [init] exits
    with the code 0 or the code 1 if it exits: with 0 exactly when the
    help is asked for, by the flag or by the one argument [/?] or [help],
    which comes before every other check, so that it needs no filter and
    reads no input; and with 1, whatever the arguments and the input are,
    where the help is not asked for and the filter is empty. *)
Theorem the_help_comes_first {error}
    (help : bool) (filter output : string) (args : list string)
    (stdinStat : option Z) (stdin : string * option error) :
  (∀ code, Main.init (Main.ParseExit code) stdinStat stdin = Main.Exit code)
  ∧ (∀ code,
       Main.init (Main.Flags help filter output args) stdinStat stdin = Main.Exit code →
       code = 0 ∨ code = 1)
  ∧ (Main.init (Main.Flags help filter output args) stdinStat stdin = Main.Exit 0
     ↔ help = true ∨ args = ["/?"] ∨ args = ["help"])
  ∧ (help = false → args ≠ ["/?"] → args ≠ ["help"] → filter = "" →
     Main.init (Main.Flags help filter output args) stdinStat stdin = Main.Exit 1).
Proof.
  split; [done|]. unfold Main.init. destruct help.
  { split_and!; [intros code [= <-]; by left|split; [by left|done]|done]. }
  assert (∀ text, (if (String.length filter =? 0)%nat
                   then Main.Exit 1 else Main.Ready text filter output) ≠ Main.Exit 0)
    as Hcheck.
  { intros text. by destruct (String.length filter =? 0)%nat. }
  assert (∀ text code, (if (String.length filter =? 0)%nat
                        then Main.Exit 1 else Main.Ready text filter output)
                       = Main.Exit code →
                       code = 0 ∨ code = 1) as Hcode.
  { intros text code. destruct (String.length filter =? 0)%nat; [|done].
    intros [= <-]. by right. }
  assert ((if Main.isPiped stdinStat
           then match stdin with
                | (text, None) =>
                    if (String.length filter =? 0)%nat
                    then Main.Exit 1 else Main.Ready text filter output
                | (_, Some _) => Main.Exit 1
                end
           else Main.Exit 1) ≠ Main.Exit 0
          ∧ (∀ code,
               (if Main.isPiped stdinStat
                then match stdin with
                     | (text, None) =>
                         if (String.length filter =? 0)%nat
                         then Main.Exit 1 else Main.Ready text filter output
                     | (_, Some _) => Main.Exit 1
                     end
                else Main.Exit 1) = Main.Exit code → code = 0 ∨ code = 1)
          ∧ (filter = "" →
             (if Main.isPiped stdinStat
              then match stdin with
                   | (text, None) =>
                       if (String.length filter =? 0)%nat
                       then Main.Exit 1 else Main.Ready text filter output
                   | (_, Some _) => Main.Exit 1
                   end
              else Main.Exit 1) = Main.Exit 1)) as (Hin0 & Hin & Hin1).
  { destruct (Main.isPiped stdinStat); [|by split_and!; [|intros code [= <-]; right|]].
    destruct stdin as [text [e|]]; [by split_and!; [|intros code [= <-]; right|]|].
    split_and!; [apply Hcheck|apply Hcode|by intros ->]. }
  destruct args as [|arg0 [|arg1 args]].
  - split_and!; [done| |by intros _ _ _ ?; apply Hin1].
    split; [done|]. by intros [|[|]].
  - destruct (String.eqb arg0 "/?" || String.eqb arg0 "help") eqn:Harg.
    + apply orb_true_iff in Harg as [->%String.eqb_eq| ->%String.eqb_eq].
      * split_and!; [intros code [= <-]; by left|split; auto|done].
      * split_and!; [intros code [= <-]; by left|split; auto|done].
    + apply orb_false_iff in Harg as [H1%String.eqb_neq H2%String.eqb_neq].
      split_and!; [apply Hcode| |by intros _ _ _ ->].
      split; [by intros ?%Hcheck|]. intros [|[[= ->]|[= ->]]]; done.
  - split_and!; [done| |by intros _ _ _ ?; apply Hin1].
    split; [done|]. by intros [|[|]].
Qed.

Lemma the_help_comes_first_witness :
  Main.init (Main.ParseExit 2) None ("", @None string) = Main.Exit 2
  ∧ Main.init (Main.Flags false "" "" ["[1, 2]"]) None ("", @None string) = Main.Exit 1.
Proof.
  destruct (the_help_comes_first false "" "" ["[1, 2]"] None ("", @None string))
    as (Hparse & _ & _ & Hfilter).
  split; [apply Hparse|by apply Hfilter].
Defined.
